(** * Lenia engine of the Artificial_Life repository: a shallow embedding

    Three programs of the repository implement the continuous cellular
    automaton:

    - the "Lenia with Camera Controls" program (sparse normalised ring
      kernel, direct toroidal convolution), module [Direct];
    - [lenia_lorenz.go] (dense kernel, FFT convolution, Lorenz-driven
      growth parameters), module [Transform];
    - [Lenia2.main.go] (fixed Gaussian kernel, OpenGL front end), module
      [Lenia2].

    The grid constants [gridW], [gridH] ([width], [height]) of each program
    are kept as parameters of its definitions, so that the two convolution
    strategies can be compared on one grid; each module records the values
    of its source file in [Const].

    Numeric model.  A Go [float64] (and the [float32] of Lenia2) is read as
    a real number: [+], [*], [/], [math.Exp], [math.Hypot], [math.Tanh] are
    the exact real operations, so rounding, overflow and NaN are outside the
    model.  A Go [int] is a [Z]; [%] is the truncated remainder [Z.rem].
    Rendering, camera and timing fields of the [Game] structs do not take
    part in a tick and are left out of the records. *)

From Stdlib Require Import Reals Lra Lia ZArith List Bool.
From Stdlib Require Strings.String.
Import ListNotations.
Open Scope R_scope.

(** ** Shared numeric vocabulary *)

(** [math.Hypot(p, q)] *)
Definition hypot (p q : R) : R := sqrt (p * p + q * q).

(** [math.Ceil]: least integer not below [r]. *)
Definition ceil (r : R) : Z := (1 - up (- r))%Z.

(** [float64(n)] for an [int] n. *)
Definition float64 (n : Z) : R := IZR n.

(** A [[][]float64] grid; row [y], column [x]. *)
Definition Field := list (list R).

(** [A[y][x]].  The programs only index inside the grid; outside it (where
    Go panics) the model reads 0. *)
Definition get (A : Field) (y x : Z) : R :=
  nth (Z.to_nat x) (nth (Z.to_nat y) A []) 0.

(** The indices visited by [for i := 0; i < n; i++]. *)
Definition upto (n : nat) : list Z := map Z.of_nat (seq 0 n).

(** The indices visited by [for i := lo; i <= hi; i++]. *)
Definition fromTo (lo hi : Z) : list Z :=
  map (fun i => (lo + Z.of_nat i)%Z) (seq 0 (Z.to_nat (hi - lo + 1))).

(** A grid all of whose [h] rows have [w] cells. *)
Definition wellFormed (w h : nat) (A : Field) : Prop :=
  length A = h /\ Forall (fun row => length row = w) A.

(** Every cell lies in [0,1]. *)
Definition inUnit (A : Field) : Prop :=
  Forall (Forall (fun v => 0 <= v <= 1)) A.

(** The grid written by
    [for y < h { for x < w { next[y][x] = f(y, x) } }]. *)
Definition tabulate (w h : nat) (f : Z -> Z -> R) : Field :=
  map (fun y => map (fun x => f y x) (upto w)) (upto h).

(** [make([][]float64, h)] with rows [make([]float64, w)]. *)
Definition zeros (w h : nat) : Field := repeat (repeat 0 w) h.

(** ** The direct-convolution program ("Lenia with Camera Controls") *)
Module Direct.

Record KernelEntry := mkEntry { dx : Z; dy : Z; w : R }.

(** [clamp(v, a, b)] *)
Definition clamp (v a b : R) : R :=
  if Rlt_dec v a then a else if Rgt_dec v b then b else v.

(** [wrap(x, m)] *)
Definition wrap (x m : Z) : Z :=
  if (x >=? 0)%Z then Z.rem x m else Z.rem (Z.rem x m + m) m.

(** The closure [Kc] of [buildKernel], with its [shellSigma]. *)
Definition Kc (shellSigma rNorm : R) : R :=
  let x := (rNorm - 0.5) / shellSigma in exp (- 0.5 * x * x).

(** The entries appended by the double loop of [buildKernel], before the
    division by [sum]. *)
Definition rawEntries (shellSigma R' : R) : list KernelEntry :=
  let Ri := ceil R' in
  flat_map (fun dy =>
    flat_map (fun dx =>
      let dist := hypot (float64 dx) (float64 dy) in
      if Rle_dec dist R'
      then [mkEntry dx dy (Kc shellSigma (dist / R'))]
      else [])
      (fromTo (- Ri) Ri))
    (fromTo (- Ri) Ri).

(** The running [sum += w]. *)
Definition weightSum (es : list KernelEntry) : R :=
  fold_left (fun s e => s + w e) es 0.

(** [buildKernel] with [shellSigma] as an argument. *)
Definition buildKernelWith (shellSigma R' : R) : list KernelEntry * R :=
  let entries := rawEntries shellSigma R' in
  let sum := weightSum entries in
  (map (fun e => mkEntry (dx e) (dy e) (w e / sum)) entries, 1).

(** [buildKernel(R)]: [shellSigma := 0.15]. *)
Definition buildKernel (R' : R) : list KernelEntry * R :=
  buildKernelWith 0.15 R'.

(** [growth(u, mu, sigma)] *)
Definition growth (u mu sigma : R) : R :=
  if Rle_dec sigma 0 then 0
  else 2 * exp (- ((u - mu) * (u - mu)) / (2 * sigma * sigma)) - 1.

Record Game := mkGame {
  A : Field; Anext : Field;
  kernel : list KernelEntry;
  dt : R; mu : R; sigma : R
}.

Definition radius : R := 6.0.
Definition dtDefault : R := 0.08.
Definition muDefault : R := 0.30.
Definition sigDefault : R := 0.06.

Section Grid.
(** The constants [gridW], [gridH] of the program, kept abstract. *)
Variables gridW gridH : nat.

(** The accumulator [u] of [step] at cell [(x, y)]. *)
Definition activity (g : Game) (y x : Z) : R :=
  fold_left (fun u k =>
      let nx := wrap (x + dx k) (Z.of_nat gridW) in
      let ny := wrap (y + dy k) (Z.of_nat gridH) in
      u + w k * get (A g) ny nx)
    (kernel g) 0.

(** [(g *Game) step()]: every cell of [Anext] is overwritten, then the two
    buffers are exchanged.  [NewGame] allocates the two buffers separately
    and [step] only exchanges them, so the cells written to [Anext] are
    never among those read from [A]. *)
Definition step (g : Game) : Game :=
  let next := tabulate gridW gridH (fun y x =>
      let val := get (A g) y x
                 + dt g * growth (activity g y x) (mu g) (sigma g) in
      clamp val 0 1) in
  mkGame next (A g) (kernel g) (dt g) (mu g) (sigma g).

(** [n] calls of [step]. *)
Fixpoint run (n : nat) (g : Game) : Game :=
  match n with O => g | S n' => run n' (step g) end.

(** The process-global generator of [math/rand] is read as the sequence
    [draws] of the values its successive [rand.Float64()] calls return; a
    cursor counts the calls made so far. *)
Variable draws : nat -> R.

(** The body of the inner loop of [NewGame] at cell [(x, y)]: the blob
    value, then the random perturbation with its one or two draws. *)
Definition seedCell (y x : Z) (cur : nat) : R * nat :=
  let cx := Z.quot (Z.of_nat gridW) 2 in
  let cy := Z.quot (Z.of_nat gridH) 2 in
  let d := hypot (float64 (x - cx)) (float64 (y - cy)) in
  let blob := if Rlt_dec d 16 then 0.8 * exp (- d * d / (2 * 8 * 8)) else 0 in
  if Rlt_dec (draws cur) 0.001
  then (draws (S cur) * 0.8 + 0.1, S (S cur))
  else (blob, S cur).

(** One row of the seeding loop, threading the cursor. *)
Fixpoint seedRow (y : Z) (xs : list Z) (cur : nat) : list R * nat :=
  match xs with
  | [] => ([], cur)
  | x :: xs' =>
      let (v, cur1) := seedCell y x cur in
      let (row, cur2) := seedRow y xs' cur1 in
      (v :: row, cur2)
  end.

(** All rows of the seeding loop. *)
Fixpoint seedRows (ys : list Z) (cur : nat) : Field * nat :=
  match ys with
  | [] => ([], cur)
  | y :: ys' =>
      let (row, cur1) := seedRow y (upto gridW) cur in
      let (rows, cur2) := seedRows ys' cur1 in
      (row :: rows, cur2)
  end.

(** [NewGame()] *)
Definition NewGame : Game :=
  let A := fst (seedRows (upto gridH) 0) in
  let Anext := zeros gridW gridH in
  let kernel := fst (buildKernel radius) in
  mkGame A Anext kernel dtDefault muDefault sigDefault.

End Grid.

(** The grid constants of the source file. *)
Module Const.
Definition gridW : nat := 240.
Definition gridH : nat := 160.
End Const.

End Direct.

(** ** The FFT program with Lorenz modulation ([lenia_lorenz.go]) *)
Module Transform.

(** [complex128] as real and imaginary part. *)
Definition complex128 := (R * R)%type.

(** [complex(v, 0)] *)
Definition complex (re im : R) : complex128 := (re, im).

(** [real(c)] *)
Definition real (c : complex128) : R := fst c.

(** [*] on [complex128]. *)
Definition Cmul (p q : complex128) : complex128 :=
  (fst p * fst q - snd p * snd q, fst p * snd q + snd p * fst q).

Record Genome := mkGenome { Mu : R; Sigma : R; Dt : R; ColorBias : R }.

Record Lorenz := mkLorenz {
  x : R; y : R; z : R;
  sigma : R; rho : R; b : R;
  dt : R
}.

(** [NewLorenz()] *)
Definition NewLorenz : Lorenz := mkLorenz 0.1 0 0 10 28 (8 / 3) 0.01.

(** [(l *Lorenz) Step()] *)
Definition Lorenz_Step (l : Lorenz) : Lorenz :=
  let dx := sigma l * (y l - x l) in
  let dy := x l * (rho l - z l) - y l in
  let dz := x l * y l - b l * z l in
  mkLorenz (x l + dx * dt l) (y l + dy * dt l) (z l + dz * dt l)
           (sigma l) (rho l) (b l) (dt l).

(** The two methods of [*fourier.FFT2] the program calls (with a [nil]
    destination).  The transform library is not part of the repository:
    its two operations are carried by the [Game], as in the source. *)
Record FFT2 := mkFFT2 {
  Coefficients : list complex128 -> list complex128;
  Sequence : list complex128 -> list complex128
}.

Record Game := mkGame {
  A : Field; Anext : Field;
  genome : Genome;
  fft2d : FFT2;
  kernelFFT : list complex128;
  lorenz : Lorenz
}.

(** [flatten(m)]: row-major, [len(m)] rows of [len(m[0])] cells. *)
Definition flatten (m : Field) : list complex128 :=
  flat_map (fun row =>
      map (fun x => complex (nth x row 0) 0) (seq 0 (length (hd [] m))))
    m.

(** [clamp(v, lo, hi)] *)
Definition clamp (v lo hi : R) : R :=
  if Rlt_dec v lo then lo else if Rgt_dec v hi then hi else v.

(** [growth(u, mu, sigma)], with [math.Pow(u-mu, 2)]. *)
Definition growth (u mu sigma : R) : R :=
  if Rle_dec sigma 0 then 0
  else 2 * exp (- (u - mu) ^ 2 / (2 * sigma * sigma)) - 1.

Section Grid.
Variables gridW gridH : nat.

(** [buildKernel(R)]: a dense [gridH] x [gridW] array. *)
Definition buildKernel (R' : R) : Field :=
  let shellSigma := 0.15 in
  let cx := Z.quot (Z.of_nat gridW) 2 in
  let cy := Z.quot (Z.of_nat gridH) 2 in
  tabulate gridW gridH (fun y x =>
    let dx := float64 (x - cx) in
    let dy := float64 (y - cy) in
    let dist := hypot dx dy in
    if Rle_dec dist R'
    then let rn := dist / R' in exp (- 0.5 * ((rn - 0.5) / shellSigma) ^ 2)
    else 0).

(** [reshape(data)] *)
Definition reshape (data : list complex128) : Field :=
  tabulate gridW gridH (fun y x =>
    real (nth (Z.to_nat y * gridW + Z.to_nat x) data (0, 0))).

(** The loop [for i := range stateFFT { stateFFT[i] *= g.kernelFFT[i] }]. *)
Definition mulSpectrum (stateFFT kernelFFT : list complex128)
  : list complex128 :=
  map (fun i => Cmul (nth i stateFFT (0, 0)) (nth i kernelFFT (0, 0)))
      (seq 0 (length stateFFT)).

(** The activity field [U] of [step]: the FFT convolution. *)
Definition convolve (g : Game) : Field :=
  let stateFFT := Coefficients (fft2d g) (flatten (A g)) in
  let conv := Sequence (fft2d g) (mulSpectrum stateFFT (kernelFFT g)) in
  reshape conv.

(** The Lorenz modulation of [step]: the genome after the driver moved to
    [l]. *)
Definition modulate (gn : Genome) (l : Lorenz) : Genome :=
  mkGenome (clamp (Mu gn + 0.002 * tanh (x l / 20)) 0.01 1.0)
           (clamp (Sigma gn * (1 + 0.001 * y l)) 0.001 1.0)
           (Dt gn)
           (tanh (z l / 30)).

(** [(g *Game) step()] *)
Definition step (g : Game) : Game :=
  let U := convolve g in
  let l := Lorenz_Step (lorenz g) in
  let gn := modulate (genome g) l in
  let next := tabulate gridW gridH (fun y x =>
      let u := get U y x in
      let grow := growth u (Mu gn) (Sigma gn) in
      let val := get (A g) y x + Dt gn * grow in
      clamp val 0 1) in
  mkGame next (A g) gn (fft2d g) (kernelFFT g) l.

(** [n] calls of [step]. *)
Fixpoint run (n : nat) (g : Game) : Game :=
  match n with O => g | S n' => run n' (step g) end.

(** The genomes published by the first [n] ticks, oldest first. *)
Fixpoint genomes (n : nat) (g : Game) : list Genome :=
  match n with
  | O => []
  | S n' => genome (step g) :: genomes n' (step g)
  end.

(** [rand.Seed(s)] fixes the sequence of values the later
    [rand.Float64()] calls return; the generator of [math/rand] is not part
    of the repository. *)
Variable randSeed : Z -> nat -> R.

(** [fourier.NewFFT2(rows, cols)] *)
Variable NewFFT2 : nat -> nat -> FFT2.

(** The body of the inner loop of [NewGame]. *)
Definition seedCell (draws : nat -> R) (y x : Z) (cur : nat) : R * nat :=
  let cx := Z.quot (Z.of_nat gridW) 2 in
  let cy := Z.quot (Z.of_nat gridH) 2 in
  let d := hypot (float64 (x - cx)) (float64 (y - cy)) in
  let blob := if Rlt_dec d 12 then 0.9 * exp (- d * d / (2 * 6 * 6)) else 0 in
  if Rlt_dec (draws cur) 0.002
  then (draws (S cur), S (S cur))
  else (blob, S cur).

Fixpoint seedRow (draws : nat -> R) (y : Z) (xs : list Z) (cur : nat)
  : list R * nat :=
  match xs with
  | [] => ([], cur)
  | x :: xs' =>
      let (v, cur1) := seedCell draws y x cur in
      let (row, cur2) := seedRow draws y xs' cur1 in
      (v :: row, cur2)
  end.

Fixpoint seedRows (draws : nat -> R) (ys : list Z) (cur : nat)
  : Field * nat :=
  match ys with
  | [] => ([], cur)
  | y :: ys' =>
      let (row, cur1) := seedRow draws y (upto gridW) cur in
      let (rows, cur2) := seedRows draws ys' cur1 in
      (row :: rows, cur2)
  end.

(** [NewGame()]; [now] is the value [time.Now().UnixNano()] returns. *)
Definition NewGame (now : Z) : Game :=
  let draws := randSeed now in
  let A := fst (seedRows draws (upto gridH) 0) in
  let Anext := zeros gridW gridH in
  let fft2d := NewFFT2 gridH gridW in
  let kernel := buildKernel 6 in
  let kernelFlat := flatten kernel in
  let kernelFFT := Coefficients fft2d kernelFlat in
  mkGame A Anext (mkGenome 0.3 0.06 0.08 0) fft2d kernelFFT NewLorenz.

End Grid.

(** The grid constants of the source file. *)
Module Const.
Definition gridW : nat := 128.
Definition gridH : nat := 128.
End Const.

End Transform.

(** ** The OpenGL program ([Lenia2.main.go]) *)
Module Lenia2.

(** The constant [R] of the source (the name is taken by the type of the
    reals here, as it is for the radius arguments [R'] above). *)
Definition R0 : R := 7.0.
Definition sigmaK : R := 3.14159.
Definition muG : R := 3.14159.
Definition sigmaG : R := 3.14159.
Definition dt : R := 0.00618033.
(** [RConv = int(R)] *)
Definition RConv : Z := 7.

(** [kernel(dx, dy)] *)
Definition kernel (dx dy : Z) : R :=
  let r := sqrt (float64 (dx * dx + dy * dy)) in
  if Rgt_dec r R0 then 0.0
  else exp (- r * r / (2 * sigmaK * sigmaK)).

(** [growth(S)] *)
Definition growth (S' : R) : R :=
  let exponent := - (S' - muG) ^ 2 / (2 * sigmaG ^ 2) in
  2.0 * exp exponent - 1.0.

Section Grid.
Variables width height : nat.

(** The accumulator [sum] of [updateField] at cell [(i, j)]. *)
Definition activity (field : Field) (j i : Z) : R :=
  fold_left (fun sum dy =>
      fold_left (fun sum dx =>
          let ni := Z.rem (i + dx + Z.of_nat width) (Z.of_nat width) in
          let nj := Z.rem (j + dy + Z.of_nat height) (Z.of_nat height) in
          let k := kernel dx dy in
          sum + get field nj ni * k)
        (fromTo (- RConv) RConv) sum)
    (fromTo (- RConv) RConv) 0.

(** [updateField()]: the global [field] before and after. *)
Definition updateField (field : Field) : Field :=
  tabulate width height (fun j i =>
    let sum := activity field j i in
    let val := get field j i + dt * growth sum in
    let val := if Rlt_dec val 0 then 0 else val in
    let val := if Rgt_dec val 1 then 1 else val in
    val).

End Grid.

(** The grid constants of the source file. *)
Module Const.
Definition width : nat := 256.
Definition height : nat := 256.
End Const.

End Lenia2.

(** ** Reference definitions, in the words of the specification *)

(** The activity of the specification:
    U[y][x] = sum over the kernel entries of
    weight * Field[(y+dy) mod H][(x+dx) mod W]. *)
Definition toroidalSum (W H : nat) (kernel : list Direct.KernelEntry)
    (F : Field) (y x : Z) : R :=
  fold_right Rplus 0
    (map (fun k => Direct.w k
                   * get F ((y + Direct.dy k) mod Z.of_nat H)
                           ((x + Direct.dx k) mod Z.of_nat W))
         kernel).

(** The Field shifted cyclically by [(sx, sy)]: the cell at [(x, y)] moves
    to [((x + sx) mod W, (y + sy) mod H)].  The torus is the specification's,
    written with the mathematical [mod]; the code's [wrap] takes no part. *)
Definition shiftField (W H : nat) (sx sy : Z) (F : Field) : Field :=
  tabulate W H (fun y x =>
    get F ((y - sy) mod Z.of_nat H) ((x - sx) mod Z.of_nat W)).

(** A [Game] with its current Field replaced. *)
Definition withField (g : Direct.Game) (F : Field) : Direct.Game :=
  Direct.mkGame F (Direct.Anext g) (Direct.kernel g)
                (Direct.dt g) (Direct.mu g) (Direct.sigma g).


(** The growth parameters are inside their safe range. *)
Definition genomeSafe (gn : Transform.Genome) : Prop :=
  0.01 <= Transform.Mu gn <= 1 /\ 0.001 <= Transform.Sigma gn <= 1.

(** The total mass of a dense kernel array. *)
Definition gridSum (F : Field) : R :=
  fold_right Rplus 0 (map (fold_right Rplus 0) F).

(** The cyclic convolution that elementwise multiplication of 2-D Fourier
    transforms realises: at [(x, y)] the sum over all cells [(kx, ky)] of
    K[ky][kx] * F[(y-ky) mod H][(x-kx) mod W]. *)
Definition cyclicConv (W H : nat) (F K : Field) (y x : Z) : R :=
  fold_right Rplus 0
    (flat_map (fun ky =>
        map (fun kx => get K ky kx
                       * get F ((y - ky) mod Z.of_nat H)
                               ((x - kx) mod Z.of_nat W))
            (upto W))
       (upto H)).

(** What the program relies on from its transform library: transforming
    two real [H] x [W] arrays, multiplying the spectra elementwise and
    transforming back gives [c] times their cyclic convolution ([c] is the
    library's scaling convention). *)
Definition realisesCyclicConvolution (W H : nat) (fft : Transform.FFT2)
    (c : R) : Prop :=
  forall (F K : Field) (y x : Z),
    wellFormed W H F -> wellFormed W H K ->
    (0 <= y < Z.of_nat H)%Z -> (0 <= x < Z.of_nat W)%Z ->
    get (Transform.reshape W H
           (Transform.Sequence fft
              (Transform.mulSpectrum
                 (Transform.Coefficients fft (Transform.flatten F))
                 (Transform.Coefficients fft (Transform.flatten K))))) y x
    = c * cyclicConv W H F K y x.

(** The dense kernel the specification asks for: the weight of every
    sparse entry placed at its wrapped offset, zero elsewhere.  (Cyclic
    convolution reads the Field at [(y - ky, x - kx)], the direct sum at
    [(y + dy, x + dx)]: the entry of offset [(dx, dy)] goes to cell
    [(-dx mod W, -dy mod H)].) *)
Definition embedKernel (W H : nat) (entries : list Direct.KernelEntry)
  : Field :=
  tabulate W H (fun ky kx =>
    fold_right Rplus 0
      (map (fun e =>
              if (((- Direct.dy e) mod Z.of_nat H =? ky)
                  && ((- Direct.dx e) mod Z.of_nat W =? kx))%Z
              then Direct.w e else 0)
           entries)).

(** The Field with a single cell of value 1, at the origin. *)
Definition impulse (W H : nat) : Field :=
  tabulate W H (fun y x => if ((y =? 0) && (x =? 0))%Z then 1 else 0).

(** The direct engine as [NewGame] builds it, for radius [R'], on Field
    [F]. *)
Definition directEngine (W H : nat) (R' : R) (F : Field) : Direct.Game :=
  Direct.mkGame F (zeros W H) (fst (Direct.buildKernel R'))
                Direct.dtDefault Direct.muDefault Direct.sigDefault.

(** The FFT engine as [NewGame] builds it (its [kernelFFT] is the transform
    of the flattened dense kernel), for radius [R'], on Field [F]. *)
Definition transformEngine (W H : nat) (fft : Transform.FFT2) (R' : R)
    (F : Field) : Transform.Game :=
  Transform.mkGame F (zeros W H) (Transform.mkGenome 0.3 0.06 0.08 0) fft
    (Transform.Coefficients fft
       (Transform.flatten (Transform.buildKernel W H R')))
    Transform.NewLorenz.

(** [n] steps of the driver. *)
Fixpoint iterLorenz (n : nat) (l : Transform.Lorenz) : Transform.Lorenz :=
  match n with O => l | S n' => iterLorenz n' (Transform.Lorenz_Step l) end.

(** ** The two-dimensional discrete Fourier transform

    The library behind [fourier.NewFFT2] is not part of the repository; the
    engine takes it as a value of [FFT2].  The definitions below build the
    transform pair the specification describes, as an instance of that
    interface for every grid size. *)

Definition Cadd (p q : Transform.complex128) : Transform.complex128 :=
  (fst p + fst q, snd p + snd q).

Definition Csub (p q : Transform.complex128) : Transform.complex128 :=
  (fst p - fst q, snd p - snd q).

(** The point of the unit circle at angle [t]. *)
Definition cis (t : R) : Transform.complex128 := (cos t, sin t).

(** The sum of [f 0], ..., [f (n-1)]. *)
Fixpoint Csum (n : nat) (f : nat -> Transform.complex128)
  : Transform.complex128 :=
  match n with
  | O => (0, 0)
  | S n' => Cadd (Csum n' f) (f n')
  end.

(** The same, for reals. *)
Fixpoint Rsum (n : nat) (f : nat -> R) : R :=
  match n with
  | O => 0
  | S n' => Rsum n' f + f n'
  end.

(** Powers of a complex number. *)
Fixpoint Cpow (z : Transform.complex128) (n : nat) : Transform.complex128 :=
  match n with
  | O => (1, 0)
  | S n' => Transform.Cmul z (Cpow z n')
  end.

(** The character of frequency [(u, v)] at displacement [(dx, dy)] on an
    [H] x [W] torus. *)
Definition character (W H : nat) (v u : nat) (dy dx : Z)
  : Transform.complex128 :=
  cis (2 * PI * (INR v * IZR dy / INR H + INR u * IZR dx / INR W)).

(** The transform of a row-major [H] x [W] signal [a]; [sgn] is [-1] for
    the forward and [1] for the backward direction. *)
Definition transform2D (W H : nat) (sgn : Z)
    (a : nat -> Transform.complex128) (j : nat) : Transform.complex128 :=
  Csum (H * W) (fun i =>
    Transform.Cmul (a i)
      (character W H (j / W) (j mod W)
                 (sgn * Z.of_nat (i / W)) (sgn * Z.of_nat (i mod W)))).

(** Modelled from the spec: the transform library, absent from the
    repository.  "Compute the 2-D discrete Fourier transform of the current
    Field and of the dense kernel array, multiply elementwise in the
    frequency domain, inverse-transform": [Coefficients] is the forward
    transform of a row-major [H] x [W] array and [Sequence] the inverse
    transform without the [1/(W*H)] factor. *)
Definition fourier2D (W H : nat) : Transform.FFT2 :=
  Transform.mkFFT2
    (fun l => map (transform2D W H (-1) (fun i => nth i l (0, 0)))
                  (seq 0 (H * W)))
    (fun l => map (transform2D W H 1 (fun j => nth j l (0, 0)))
                  (seq 0 (H * W))).

(** The flattened index of the cell that lies [(x2, y2)] before [(x, y)] on
    the torus, for flattened indices [i] of [(x, y)] and [i2] of
    [(x2, y2)]. *)
Definition torusSub (W H : nat) (i i2 : nat) : nat :=
  Z.to_nat ((Z.of_nat (i / W) - Z.of_nat (i2 / W)) mod Z.of_nat H) * W
  + Z.to_nat ((Z.of_nat (i mod W) - Z.of_nat (i2 mod W)) mod Z.of_nat W).

(** ** Sample inputs *)

(** A generator whose draws depend on the seed: every draw is 0 under
    seed 0 and 0.001 under any other seed. *)
Definition clockDraws (seed : Z) (n : nat) : R :=
  if (seed =? 0)%Z then 0 else 0.001.

(** [fourier.NewFFT2(rows, cols)] with the transform pair above. *)
Definition newFourier (rows cols : nat) : Transform.FFT2 :=
  fourier2D cols rows.

(** The engines of the two programs as [NewGame] builds them on their own
    grids, construction taking place at clock reading 1. *)
Definition sampleDirect : Direct.Game :=
  Direct.NewGame Direct.Const.gridW Direct.Const.gridH (clockDraws 1).

Definition sampleTransform : Transform.Game :=
  Transform.NewGame Transform.Const.gridW Transform.Const.gridH
                    clockDraws newFourier 1.

(** ** Further functions of the programs *)

(** [math.Floor] *)
Definition floor (r : R) : Z := (up r - 1)%Z.

(** The conversion of a [float64] to an integer type drops the fraction. *)
Definition trunc (r : R) : Z := if Rle_dec 0 r then floor r else ceil r.

(** [uint8(f)].  Go leaves the result open when the truncated value is not
    a byte; the model wraps it, and the properties below show the programs
    never rely on that case. *)
Definition uint8 (r : R) : Z := (trunc r mod 256)%Z.

(** The driver mirrored through the z axis. *)
Definition mirror (l : Transform.Lorenz) : Transform.Lorenz :=
  Transform.mkLorenz (- Transform.x l) (- Transform.y l) (Transform.z l)
                     (Transform.sigma l) (Transform.rho l) (Transform.b l)
                     (Transform.dt l).

(** *** The colour ramp of the two ebiten programs

    [colorRamp] has the same text in the direct program and in
    [lenia_lorenz.go]. *)
Module Render.

(** [colorRamp(v)]: the red, green and blue bytes. *)
Definition colorRamp (v : R) : Z * Z * Z :=
  let v := Direct.clamp v 0 1 in
  if Rlt_dec v 0.5
  then let t := v / 0.5 in
       (uint8 (20 + 50 * t), uint8 (50 + 150 * t), uint8 (200 - 100 * t))
  else let t := (v - 0.5) / 0.5 in
       (uint8 (70 + 180 * t), uint8 (200 - 80 * t), uint8 (100 + 150 * t)).

End Render.

(** *** The camera of the direct program *)
Module Camera.

(** The camera fields of [Game]. *)
Record Cam := mkCam {
  camX : R; camY : R; camZoom : R;
  lastMx : Z; lastMy : Z;
  rightDragging : bool
}.

(** What [handleCamera] reads from ebiten in one frame: [ebiten.Wheel()]
    (its second result), [ebiten.CursorPosition()], the right mouse button
    and the four keys. *)
Record Input := mkInput {
  scrollY : R;
  mx : Z; my : Z;
  rightPressed : bool;
  keyW : bool; keyS : bool; keyA : bool; keyD : bool
}.

(** The zoom block of [handleCamera]. *)
Definition zoomStep (i : Input) (c : Cam) : Cam :=
  if Req_dec_T (scrollY i) 0 then c
  else
    let oldZoom := camZoom c in
    let z := camZoom c * Rpower 1.1 (scrollY i) in
    let z := if Rlt_dec z 1 then 1 else z in
    let dx := float64 (mx i) / oldZoom - (camX c + float64 (mx i) / z) in
    let dy := float64 (my i) / oldZoom - (camY c + float64 (my i) / z) in
    mkCam (camX c + dx) (camY c + dy) z (lastMx c) (lastMy c)
          (rightDragging c).

(** The right-drag block. *)
Definition dragStep (i : Input) (c : Cam) : Cam :=
  if rightPressed i then
    if negb (rightDragging c)
    then mkCam (camX c) (camY c) (camZoom c) (mx i) (my i) true
    else
      let dx := float64 (mx i - lastMx c) / camZoom c in
      let dy := float64 (my i - lastMy c) / camZoom c in
      mkCam (camX c - dx) (camY c - dy) (camZoom c) (mx i) (my i)
            (rightDragging c)
  else mkCam (camX c) (camY c) (camZoom c) (lastMx c) (lastMy c) false.

(** The keyboard block. *)
Definition keyStep (i : Input) (c : Cam) : Cam :=
  let speed := 5.0 / camZoom c in
  let y1 := if keyW i then camY c - speed else camY c in
  let y2 := if keyS i then y1 + speed else y1 in
  let x1 := if keyA i then camX c - speed else camX c in
  let x2 := if keyD i then x1 + speed else x1 in
  mkCam x2 y2 (camZoom c) (lastMx c) (lastMy c) (rightDragging c).

(** [(g *Game) handleCamera()] *)
Definition handleCamera (i : Input) (c : Cam) : Cam :=
  keyStep i (dragStep i (zoomStep i c)).

(** The camera [NewGame] sets up ([camZoom: 4], the rest zero). *)
Definition initial : Cam := mkCam 0 0 4 0 0 false.

(** The frames of a session, one input each. *)
Fixpoint frames (inputs : list Input) (c : Cam) : Cam :=
  match inputs with
  | [] => c
  | i :: rest => frames rest (handleCamera i c)
  end.



End Camera.

(** *** Seeding and drawing in [Lenia2.main.go] *)
Module Lenia2View.

(** [initializeBlob(cx, cy, radius, initialVal)]: the global [field]
    afterwards (every cell is overwritten). *)
Definition initializeBlob (width height : nat) (cx cy : Z)
    (radius initialVal : R) : Field :=
  let sigma := radius / 3.0 in
  tabulate width height (fun j i =>
    let dx := float64 (i - cx) in
    let dy := float64 (j - cy) in
    let r := sqrt (dx * dx + dy * dy) in
    let val := initialVal * exp (- r * r / (2 * sigma * sigma)) in
    if Rgt_dec val 1.0 then 1.0 else val).

(** The three bytes [drawField] computes for a cell of value [v];
    [math.Pow(v, 0.5)] is the square root ([v] is never negative). *)
Definition pixel (v : R) : list Z :=
  let intensity := sqrt v in
  let r := uint8 (255 * Rmin 1.0 (1.5 * intensity)) in
  let g := uint8 (255 * Rmin 1.0 (1.0 * intensity)) in
  let b := uint8 (255 * Rmax 0.0 (1.0 - intensity)) in
  [r; g; b].

(** The [pixels] array [drawField] fills: the bytes of cell [(i, j)] go to
    the indices [(j*width + i)*3 + 0, 1, 2], which the two loops visit in
    increasing order. *)
Definition drawField (width height : nat) (field : Field) : list Z :=
  flat_map (fun j => flat_map (fun i => pixel (get field j i)) (upto width))
           (upto height).

(** [n] calls of [updateField], as the main loop makes them. *)
Fixpoint updates (width height n : nat) (field : Field) : Field :=
  match n with
  | O => field
  | S n' => updates width height n' (Lenia2.updateField width height field)
  end.

End Lenia2View.

(** ** The particle programs *)

(** The in-place write [s[k] = v] on a slice, for [k] inside it. *)
Fixpoint update {T : Type} (k : nat) (v : T) (s : list T) : list T :=
  match s, k with
  | [], _ => []
  | _ :: t, O => v :: t
  | h :: t, S k' => h :: update k' v t
  end.

(** The sum of a quantity over a slice of particles. *)
Definition total {T : Type} (f : T -> R) (s : list T) : R :=
  fold_right (fun p acc => f p + acc) 0 s.

(** The "Yeast-like Simulation": coloured particles, a table of pairwise
    interactions and walls.  The generator is given by the values its
    calls return: [float k] when the [k]-th call is [rand.Float64()] and
    [intn k n] when it is [rand.Intn(n)]. *)
Module Yeast.

Record Particle : Type := mkParticle
  { x : R; y : R; vx : R; vy : R; col : Z }.

Record Interaction : Type := mkInteraction
  { a : Z; b : Z; g : R }.

Definition numParticles : nat := 600.

(** [rule(a, b, g)]: the global [interactions] afterwards. *)
Definition rule (a b : Z) (g : R) (interactions : list Interaction) :
    list Interaction :=
  interactions ++ [mkInteraction a b g].

(** The table [main] builds, in call order. *)
Definition mainRules : list Interaction :=
  rule 2 1 (-0.01618033)
    (rule 1 2 (-0.01618033)
      (rule 2 0 (-0.01618033)
        (rule 0 2 (-0.01618033)
          (rule 1 0 (-0.0618033)
            (rule 0 1 (-0.0618033)
              (rule 2 2 (-0.05)
                (rule 1 1 0.05
                  (rule 0 0 (-0.05) [])))))))).

(** The body of the innermost loop of [applyRules]: what [p2] adds to the
    force [(fx, fy)] on [p1]. *)
Definition pull (inter : Interaction) (p1 : Particle) (acc : R * R)
    (p2 : Particle) : R * R :=
  if negb (col p2 =? b inter)%Z then acc
  else
    let dx := x p1 - x p2 in
    let dy := y p1 - y p2 in
    let dist := sqrt (dx * dx * dy * dy / 2) in
    if Rlt_dec 0 dist then
      if Rlt_dec dist 180 then
        let f := g inter / dist in
        (fst acc + f * dx, snd acc + f * dy)
      else acc
    else acc.

(** The body of the loop over [p1]: the particle afterwards. *)
Definition accelerate (inter : Interaction) (particles : list Particle)
    (p1 : Particle) : Particle :=
  if negb (col p1 =? a inter)%Z then p1
  else
    let '(fx, fy) := fold_left (pull inter p1) particles (0.0, 0.0) in
    mkParticle (x p1) (y p1) ((vx p1 + fx) * 0.5) ((vy p1 + fy) * 0.5)
               (col p1).

(** One interaction applied to every particle.  The loop writes velocities
    and reads positions and colours only, so every [p1] sees the positions
    the loop started with. *)
Definition interact (particles : list Particle) (inter : Interaction) :
    list Particle :=
  map (accelerate inter particles) particles.

Section Window.

Variables width height : R.

(** The body of the last loop of [applyRules]: the four wall tests in the
    order of the source. *)
Definition move (p : Particle) : Particle :=
  let x1 := x p + vx p in
  let y1 := y p + vy p in
  let '(x2, vx2) := if Rlt_dec x1 0 then (0, vx p * -1) else (x1, vx p) in
  let '(y2, vy2) := if Rlt_dec y1 0 then (0, vy p * -1) else (y1, vy p) in
  let '(x3, vx3) :=
    if Rgt_dec x2 width then (width, vx2 * -1) else (x2, vx2) in
  let '(y3, vy3) :=
    if Rgt_dec y2 height then (height, vy2 * -1) else (y2, vy2) in
  mkParticle x3 y3 vx3 vy3 (col p).

Definition applyRules (interactions : list Interaction)
    (particles : list Particle) : list Particle :=
  map move (fold_left interact interactions particles).

(** [n] frames of the main loop. *)
Fixpoint frames (n : nat) (interactions : list Interaction)
    (particles : list Particle) : list Particle :=
  match n with
  | O => particles
  | S n' => frames n' interactions (applyRules interactions particles)
  end.

Variable float : nat -> R.
Variable intn : nat -> Z -> Z.

(** [initParticles]: particle [i] takes the generator's calls [3i], [3i+1]
    and [3i+2]. *)
Definition initParticles (numParticles : nat) : list Particle :=
  map (fun i => mkParticle (float (3 * i) * width)
                           (float (3 * i + 1) * height)
                           0 0
                           (intn (3 * i + 2) 3))
      (seq 0 numParticles).

End Window.

Module Const.
Definition width : R := 1000.
Definition height : R := 1000.
End Const.

End Yeast.

(** The "Artificial Life - MaCE" program.  Its groups are slices whose
    elements the global [particles] points to: the store is the list of all
    particles in creation order and a group is the range [(first, count)]
    of the store it occupies. *)
Module MaCE.

Record particle : Type := mkparticle
  { x : R; y : R; vx : R; vy : R; color : String.string }.

Definition padding : R := 67.
Definition particleSize : Z := 5.
Definition localRadius : R := 30.0.

Definition Group : Type := (nat * nat)%type.

(** The elements of a group, read through the store. *)
Definition members (grp : Group) (store : list particle) : list particle :=
  firstn (snd grp) (skipn (fst grp) store).

(** The body of the loop over [j] in a goroutine of [rule]. *)
Definition push (g : R) (a : particle) (acc : R * R) (b : particle) :
    R * R :=
  let dx := x a - x b in
  let dy := y a - y b in
  if (if Req_dec_T dx 0 then if Req_dec_T dy 0 then true else false
      else false)
  then acc
  else
    let d := sqrt (dx * dx + dy * dy) in
    if Rgt_dec d 80 then acc
    else let F := g / d in (fst acc + F * dx, snd acc + F * dy).

(** A goroutine of [rule]: particle [a] afterwards. *)
Definition accelerate (g : R) (particles2 : list particle) (a : particle) :
    particle :=
  let '(fx, fy) := fold_left (push g a) particles2 (0.0, 0.0) in
  mkparticle (x a) (y a) ((vx a + fx) * 0.5) ((vy a + fy) * 0.5) (color a).

(** The goroutines of [rule], one per element of [particles1], joined by
    [wg.Wait()].  Each writes the velocity of its own particle only and
    reads positions only, which none of them writes, so they commute; they
    are taken in index order. *)
Definition forces (particles1 particles2 : Group) (g : R)
    (store : list particle) : list particle :=
  fold_left
    (fun st i =>
       match nth_error st (fst particles1 + i) with
       | Some a =>
           update (fst particles1 + i)
                  (accelerate g (members particles2 st) a) st
       | None => st
       end)
    (seq 0 (snd particles1)) store.

(** The body of the loop over [j] of the redistribution, for the pair
    [(i, j)]. *)
Definition exchange (i : nat) (store : list particle) (j : nat) :
    list particle :=
  match nth_error store i, nth_error store j with
  | Some a, Some b =>
      let dx := x b - x a in
      let dy := y b - y a in
      let distSq := dx * dx + dy * dy in
      if Rlt_dec distSq (localRadius * localRadius) then
        if Rgt_dec distSq 0 then
          let fx := (vx a - vx b) * 0.5 in
          let fy := (vy a - vy b) * 0.5 in
          update j (mkparticle (x b) (y b) (vx b + fx) (vy b + fy) (color b))
            (update i
               (mkparticle (x a) (y a) (vx a - fx) (vy a - fy) (color a))
               store)
        else store
      else store
  | _, _ => store
  end.

(** The redistribution loops of [rule] over all pairs [i < j] of the
    global [particles]. *)
Definition redistribute (store : list particle) : list particle :=
  fold_left
    (fun st i => fold_left (exchange i) (seq (S i) (length st - S i)) st)
    (seq 0 (length store)) store.

Section Canvas.

(** [cv.Width()] and [cv.Height()]. *)
Variables cvWidth cvHeight : Z.

Definition randomX (r : R) : R :=
  r * (float64 cvWidth - padding * 2) + padding.

Definition randomY (r : R) : R :=
  r * (float64 cvHeight - padding * 2) + padding.

(** The body of the last loop of [rule]. *)
Definition move (p : particle) : particle :=
  let x1 := x p + vx p in
  let y1 := y p + vy p in
  let '(x2, vx2) :=
    if Rlt_dec x1 0 then (0, vx p * -1)
    else if Rgt_dec x1 (float64 (cvWidth - particleSize))
         then (float64 (cvWidth - particleSize), vx p * -1)
         else (x1, vx p) in
  let '(y2, vy2) :=
    if Rlt_dec y1 0 then (0, vy p * -1)
    else if Rgt_dec y1 (float64 (cvHeight - particleSize))
         then (float64 (cvHeight - particleSize), vy p * -1)
         else (y1, vy p) in
  mkparticle x2 y2 vx2 vy2 (color p).

Definition rule (particles1 particles2 : Group) (g : R)
    (store : list particle) : list particle :=
  map move (redistribute (forces particles1 particles2 g store)).

Variable float : nat -> R.

(** [create(number, color)] when the generator has been called [k] times:
    the group returned, the global [particles] and the call count
    afterwards. *)
Definition create (number : nat) (color : String.string)
    (store : list particle) (k : nat) : Group * list particle * nat :=
  let group :=
    map (fun i => mkparticle (randomX (float (k + 2 * i)))
                             (randomY (float (k + 2 * i + 1)))
                             0 0 color)
        (seq 0 number) in
  ((length store, number), store ++ group, (k + 2 * number)%nat).

End Canvas.

Module Const.
Definition width : Z := 1700.
Definition height : Z := 1000.
End Const.

End MaCE.

(** What the velocity phases of [rule] leave alone: the number of
    particles, their positions and their colours. *)
Definition maceKeeps (store st : list MaCE.particle) : Prop :=
  length st = length store /\
  map MaCE.x st = map MaCE.x store /\
  map MaCE.y st = map MaCE.y store /\
  map MaCE.color st = map MaCE.color store.

(** The same, with the total momentum in each axis. *)
Definition maceConserves (store st : list MaCE.particle) : Prop :=
  maceKeeps store st /\
  total MaCE.vx st = total MaCE.vx store /\
  total MaCE.vy st = total MaCE.vy store.

(** * Properties *)

(** ** Grids *)

Lemma upto_length (n : nat) : length (upto n) = n.
Proof. unfold upto. now rewrite length_map, length_seq. Qed.

Lemma upto_nth (n i : nat) (d : Z) :
  (i < n)%nat -> nth i (upto n) d = Z.of_nat i.
Proof.
  intros Hi. unfold upto.
  rewrite nth_indep with (d' := Z.of_nat 0) by now rewrite length_map, length_seq.
  rewrite map_nth, seq_nth by assumption. reflexivity.
Qed.

Lemma upto_In (n : nat) (i : Z) : In i (upto n) <-> (0 <= i < Z.of_nat n)%Z.
Proof.
  unfold upto. rewrite in_map_iff. split.
  - intros (k & <- & Hk). apply in_seq in Hk. lia.
  - intros Hi. exists (Z.to_nat i). split; [lia | apply in_seq; lia].
Qed.

Lemma get_tabulate (w h : nat) (f : Z -> Z -> R) (y x : Z) :
  (0 <= y < Z.of_nat h)%Z -> (0 <= x < Z.of_nat w)%Z ->
  get (tabulate w h f) y x = f y x.
Proof.
  intros Hy Hx. unfold get, tabulate.
  set (row := fun y0 : Z => map (fun x0 : Z => f y0 x0) (upto w)).
  rewrite nth_indep with (d' := row 0%Z)
    by (rewrite length_map, upto_length; lia).
  rewrite map_nth, upto_nth by lia. unfold row.
  rewrite nth_indep with (d' := f (Z.of_nat (Z.to_nat y)) 0%Z)
    by (rewrite length_map, upto_length; lia).
  rewrite (map_nth (fun x0 => f (Z.of_nat (Z.to_nat y)) x0)), upto_nth by lia.
  now rewrite !Z2Nat.id by lia.
Qed.

Lemma tabulate_wellFormed (w h : nat) (f : Z -> Z -> R) :
  wellFormed w h (tabulate w h f).
Proof.
  unfold wellFormed, tabulate. split.
  - now rewrite length_map, upto_length.
  - apply Forall_forall. intros row Hrow.
    apply in_map_iff in Hrow as (y & <- & _).
    now rewrite length_map, upto_length.
Qed.

Lemma tabulate_Forall (P : R -> Prop) (w h : nat) (f : Z -> Z -> R) :
  (forall y x, (0 <= y < Z.of_nat h)%Z -> (0 <= x < Z.of_nat w)%Z -> P (f y x)) ->
  Forall (Forall P) (tabulate w h f).
Proof.
  intros Hf. unfold tabulate. apply Forall_forall. intros row Hrow.
  apply in_map_iff in Hrow as (y & <- & Hy). apply upto_In in Hy.
  apply Forall_forall. intros v Hv.
  apply in_map_iff in Hv as (x & <- & Hx). apply upto_In in Hx. auto.
Qed.

Lemma tabulate_ext (w h : nat) (f f' : Z -> Z -> R) :
  (forall y x, (0 <= y < Z.of_nat h)%Z -> (0 <= x < Z.of_nat w)%Z -> f y x = f' y x) ->
  tabulate w h f = tabulate w h f'.
Proof.
  intros Hf. unfold tabulate. apply map_ext_in. intros y Hy.
  apply map_ext_in. intros x Hx. apply upto_In in Hy, Hx. auto.
Qed.

(** ** The clamp and the growth function *)

Lemma direct_clamp_bounds (v a b : R) :
  a <= b -> a <= Direct.clamp v a b <= b.
Proof.
  intros Hab. unfold Direct.clamp.
  destruct (Rlt_dec v a); [lra |]. destruct (Rgt_dec v b); lra.
Qed.

Lemma transform_clamp_eq (v lo hi : R) :
  Transform.clamp v lo hi = Direct.clamp v lo hi.
Proof. reflexivity. Qed.

Lemma transform_clamp_bounds (v lo hi : R) :
  lo <= hi -> lo <= Transform.clamp v lo hi <= hi.
Proof. rewrite transform_clamp_eq. apply direct_clamp_bounds. Qed.

Lemma transform_growth_eq (u mu sigma : R) :
  Transform.growth u mu sigma = Direct.growth u mu sigma.
Proof.
  unfold Transform.growth, Direct.growth.
  destruct (Rle_dec sigma 0); [reflexivity |].
  replace ((u - mu) ^ 2) with ((u - mu) * (u - mu)) by ring. reflexivity.
Qed.

(** The exponent of the Gaussian bump is never positive, and vanishes only
    at the centre. *)
Lemma bump_exponent_nonpos (u mu sigma : R) :
  0 < sigma -> - ((u - mu) * (u - mu)) / (2 * sigma * sigma) <= 0.
Proof.
  intros Hs.
  assert (Hd : 0 < 2 * sigma * sigma) by nra.
  pose proof (Rle_0_sqr (u - mu)) as Hn. unfold Rsqr in Hn.
  apply Rinv_0_lt_compat in Hd.
  pose proof (Rmult_le_pos _ _ Hn (Rlt_le _ _ Hd)).
  unfold Rdiv. lra.
Qed.

Lemma bump_exponent_zero (u mu sigma : R) :
  0 < sigma ->
  - ((u - mu) * (u - mu)) / (2 * sigma * sigma) = 0 -> u = mu.
Proof.
  intros Hs He.
  assert (Hd : 0 < 2 * sigma * sigma) by nra.
  unfold Rdiv in He. apply Rmult_integral in He as [He | He].
  - assert (Hsq : (u - mu) * (u - mu) = 0) by lra.
    apply Rmult_integral in Hsq as [Hsq | Hsq]; lra.
  - apply Rinv_0_lt_compat in Hd. lra.
Qed.

Lemma exp_le_1 (t : R) : t <= 0 -> exp t <= 1.
Proof.
  intros [Ht | ->].
  - rewrite <- exp_0. left. now apply exp_increasing.
  - rewrite exp_0. lra.
Qed.

Lemma direct_growth_pos_sigma (u mu sigma : R) :
  0 < sigma ->
  Direct.growth u mu sigma
  = 2 * exp (- ((u - mu) * (u - mu)) / (2 * sigma * sigma)) - 1.
Proof.
  intros Hs. unfold Direct.growth. destruct (Rle_dec sigma 0); [lra | reflexivity].
Qed.

Lemma direct_growth_range (u mu sigma : R) :
  -1 <= Direct.growth u mu sigma <= 1.
Proof.
  unfold Direct.growth. destruct (Rle_dec sigma 0) as [Hs | Hs]; [lra |].
  pose proof (exp_pos (- ((u - mu) * (u - mu)) / (2 * sigma * sigma))).
  pose proof (exp_le_1 _ (bump_exponent_nonpos u mu sigma ltac:(lra))).
  lra.
Qed.

(** C5.  For all real [u], [mu], [sigma]: [growth] is
    [2*exp(-(u-mu)^2/(2*sigma^2)) - 1] when [sigma > 0] and [0] when
    [sigma <= 0]; for [sigma > 0] its value lies in [[-1,1]] and equals the
    maximum [1] exactly when [u = mu].  Both [growth] functions (the one
    written with [math.Pow] and the one written with a product) are covered. *)
Theorem growth_contract (u mu sigma : R) :
  Transform.growth u mu sigma = Direct.growth u mu sigma /\
  (sigma <= 0 -> Direct.growth u mu sigma = 0) /\
  (0 < sigma ->
     Direct.growth u mu sigma
     = 2 * exp (- (u - mu) ^ 2 / (2 * sigma ^ 2)) - 1 /\
     -1 <= Direct.growth u mu sigma <= 1 /\
     (forall v, Direct.growth v mu sigma <= Direct.growth mu mu sigma) /\
     (Direct.growth u mu sigma = 1 <-> u = mu)).
Proof.
  split; [apply transform_growth_eq |]. split.
  - intros Hs. unfold Direct.growth. destruct (Rle_dec sigma 0); [reflexivity | lra].
  - intros Hs. split; [| split; [| split]].
    + rewrite direct_growth_pos_sigma by assumption.
      replace ((u - mu) ^ 2) with ((u - mu) * (u - mu)) by ring.
      replace (2 * sigma ^ 2) with (2 * sigma * sigma) by ring. reflexivity.
    + apply direct_growth_range.
    + intros v. rewrite (direct_growth_pos_sigma mu mu) by assumption.
      replace (- ((mu - mu) * (mu - mu)) / (2 * sigma * sigma)) with 0
        by (unfold Rdiv; ring).
      rewrite exp_0. pose proof (direct_growth_range v mu sigma). lra.
    + rewrite direct_growth_pos_sigma by assumption. split.
      * intros Hg.
        assert (He : exp (- ((u - mu) * (u - mu)) / (2 * sigma * sigma)) = exp 0)
          by (rewrite exp_0; lra).
        apply exp_inv in He. now apply bump_exponent_zero in He.
      * intros ->.
        replace (- ((mu - mu) * (mu - mu)) / (2 * sigma * sigma)) with 0
          by (unfold Rdiv; ring).
        rewrite exp_0. lra.
Qed.

Lemma growth_contract_witness :
  Direct.growth 0.3 0.3 0.06 = 1.
Proof.
  destruct (growth_contract 0.3 0.3 0.06) as (_ & _ & H).
  destruct (H ltac:(lra)) as (_ & _ & _ & [_ Hmax]).
  apply Hmax. reflexivity.
Defined.


(** ** The initial state *)

Lemma direct_seedCell_inUnit (gridW gridH : nat) (draws : nat -> R)
    (y x : Z) (cur : nat) :
  (forall n, 0 <= draws n < 1) ->
  0 <= fst (Direct.seedCell gridW gridH draws y x cur) <= 1.
Proof.
  intros Hd. unfold Direct.seedCell. cbv zeta.
  destruct (Rlt_dec (draws cur) 0.001); cbn [fst].
  - pose proof (Hd (S cur)). lra.
  - destruct (Rlt_dec _ 16); [| lra].
    set (d := hypot _ _).
    assert (He : exp (- d * d / (2 * 8 * 8)) <= 1).
    { apply exp_le_1. pose proof (Rle_0_sqr d) as Hsq. unfold Rsqr in Hsq.
      unfold Rdiv. lra. }
    pose proof (exp_pos (- d * d / (2 * 8 * 8))). lra.
Qed.

Lemma transform_seedCell_inUnit (gridW gridH : nat) (draws : nat -> R)
    (y x : Z) (cur : nat) :
  (forall n, 0 <= draws n < 1) ->
  0 <= fst (Transform.seedCell gridW gridH draws y x cur) <= 1.
Proof.
  intros Hd. unfold Transform.seedCell. cbv zeta.
  destruct (Rlt_dec (draws cur) 0.002); cbn [fst].
  - pose proof (Hd (S cur)). lra.
  - destruct (Rlt_dec _ 12); [| lra].
    set (d := hypot _ _).
    assert (He : exp (- d * d / (2 * 6 * 6)) <= 1).
    { apply exp_le_1. pose proof (Rle_0_sqr d) as Hsq. unfold Rsqr in Hsq.
      unfold Rdiv. lra. }
    pose proof (exp_pos (- d * d / (2 * 6 * 6))). lra.
Qed.

Lemma direct_seedRow_spec (gridW gridH : nat) (draws : nat -> R) (y : Z)
    (P : R -> Prop) :
  (forall x cur, P (fst (Direct.seedCell gridW gridH draws y x cur))) ->
  forall xs cur,
    length (fst (Direct.seedRow gridW gridH draws y xs cur)) = length xs /\
    Forall P (fst (Direct.seedRow gridW gridH draws y xs cur)).
Proof.
  intros HP. induction xs as [| x xs IH]; intros cur; cbn [Direct.seedRow].
  - split; [reflexivity | constructor].
  - pose proof (HP x cur) as Hc.
    destruct (Direct.seedCell gridW gridH draws y x cur) as [v cur1].
    specialize (IH cur1).
    destruct (Direct.seedRow gridW gridH draws y xs cur1) as [row cur2].
    cbn [fst length] in *. destruct IH as [Hl Hf].
    split; [now rewrite Hl | now constructor].
Qed.

Lemma direct_seedRows_spec (gridW gridH : nat) (draws : nat -> R)
    (P : R -> Prop) :
  (forall y x cur, P (fst (Direct.seedCell gridW gridH draws y x cur))) ->
  forall ys cur,
    wellFormed gridW (length ys)
      (fst (Direct.seedRows gridW gridH draws ys cur)) /\
    Forall (Forall P) (fst (Direct.seedRows gridW gridH draws ys cur)).
Proof.
  intros HP. induction ys as [| y ys IH]; intros cur; cbn [Direct.seedRows].
  - repeat split; constructor.
  - destruct (direct_seedRow_spec gridW gridH draws y P (HP y) (upto gridW) cur)
      as [Hl Hf].
    destruct (Direct.seedRow gridW gridH draws y (upto gridW) cur) as [row cur1].
    specialize (IH cur1).
    destruct (Direct.seedRows gridW gridH draws ys cur1) as [rows cur2].
    unfold wellFormed in *. cbn [fst length] in *.
    destruct IH as [[Hlen Hrows] Hall]. rewrite upto_length in Hl.
    repeat split; [now rewrite Hlen | now constructor | now constructor].
Qed.

Lemma transform_seedRow_spec (gridW gridH : nat) (draws : nat -> R) (y : Z)
    (P : R -> Prop) :
  (forall x cur, P (fst (Transform.seedCell gridW gridH draws y x cur))) ->
  forall xs cur,
    length (fst (Transform.seedRow gridW gridH draws y xs cur)) = length xs /\
    Forall P (fst (Transform.seedRow gridW gridH draws y xs cur)).
Proof.
  intros HP. induction xs as [| x xs IH]; intros cur; cbn [Transform.seedRow].
  - split; [reflexivity | constructor].
  - pose proof (HP x cur) as Hc.
    destruct (Transform.seedCell gridW gridH draws y x cur) as [v cur1].
    specialize (IH cur1).
    destruct (Transform.seedRow gridW gridH draws y xs cur1) as [row cur2].
    cbn [fst length] in *. destruct IH as [Hl Hf].
    split; [now rewrite Hl | now constructor].
Qed.

Lemma transform_seedRows_spec (gridW gridH : nat) (draws : nat -> R)
    (P : R -> Prop) :
  (forall y x cur, P (fst (Transform.seedCell gridW gridH draws y x cur))) ->
  forall ys cur,
    wellFormed gridW (length ys)
      (fst (Transform.seedRows gridW gridH draws ys cur)) /\
    Forall (Forall P) (fst (Transform.seedRows gridW gridH draws ys cur)).
Proof.
  intros HP. induction ys as [| y ys IH]; intros cur; cbn [Transform.seedRows].
  - repeat split; constructor.
  - destruct (transform_seedRow_spec gridW gridH draws y P (HP y)
                (upto gridW) cur) as [Hl Hf].
    destruct (Transform.seedRow gridW gridH draws y (upto gridW) cur)
      as [row cur1].
    specialize (IH cur1).
    destruct (Transform.seedRows gridW gridH draws ys cur1) as [rows cur2].
    unfold wellFormed in *. cbn [fst length] in *.
    destruct IH as [[Hlen Hrows] Hall]. rewrite upto_length in Hl.
    repeat split; [now rewrite Hlen | now constructor | now constructor].
Qed.

(** The Field [NewGame] seeds has the dimensions of the grid and, the
    generator returning values of [[0,1)], all its cells in [[0,1]]. *)
Lemma direct_NewGame_wellFormed (gridW gridH : nat) (draws : nat -> R) :
  wellFormed gridW gridH (Direct.A (Direct.NewGame gridW gridH draws)).
Proof.
  unfold Direct.NewGame. cbv zeta. cbn [Direct.A].
  destruct (direct_seedRows_spec gridW gridH draws (fun _ => True)
              (fun _ _ _ => I) (upto gridH) 0%nat) as [Hwf _].
  now rewrite upto_length in Hwf.
Qed.

Lemma direct_NewGame_inUnit (gridW gridH : nat) (draws : nat -> R) :
  (forall n, 0 <= draws n < 1) ->
  inUnit (Direct.A (Direct.NewGame gridW gridH draws)).
Proof.
  intros Hd. unfold Direct.NewGame. cbv zeta. cbn [Direct.A].
  apply (direct_seedRows_spec gridW gridH draws (fun v => 0 <= v <= 1)).
  intros. now apply direct_seedCell_inUnit.
Qed.

Lemma transform_NewGame_wellFormed (gridW gridH : nat)
    (randSeed : Z -> nat -> R) (NewFFT2 : nat -> nat -> Transform.FFT2)
    (now : Z) :
  wellFormed gridW gridH
    (Transform.A (Transform.NewGame gridW gridH randSeed NewFFT2 now)).
Proof.
  unfold Transform.NewGame. cbv zeta. cbn [Transform.A].
  destruct (transform_seedRows_spec gridW gridH (randSeed now) (fun _ => True)
              (fun _ _ _ => I) (upto gridH) 0%nat) as [Hwf _].
  now rewrite upto_length in Hwf.
Qed.

Lemma transform_NewGame_inUnit (gridW gridH : nat)
    (randSeed : Z -> nat -> R) (NewFFT2 : nat -> nat -> Transform.FFT2)
    (now : Z) :
  (forall n, 0 <= randSeed now n < 1) ->
  inUnit (Transform.A (Transform.NewGame gridW gridH randSeed NewFFT2 now)).
Proof.
  intros Hd. unfold Transform.NewGame. cbv zeta. cbn [Transform.A].
  apply (transform_seedRows_spec gridW gridH (randSeed now)
           (fun v => 0 <= v <= 1)).
  intros. now apply transform_seedCell_inUnit.
Qed.

(** ** The clamp invariant *)

Lemma direct_step_inUnit (gridW gridH : nat) (g : Direct.Game) :
  inUnit (Direct.A (Direct.step gridW gridH g)).
Proof.
  unfold Direct.step. cbn [Direct.A].
  apply tabulate_Forall. intros. apply direct_clamp_bounds. lra.
Qed.

Lemma direct_run_inUnit (gridW gridH n : nat) :
  forall g, inUnit (Direct.A g) ->
            inUnit (Direct.A (Direct.run gridW gridH n g)).
Proof.
  induction n as [| n IH]; intros g Hg; cbn [Direct.run]; [assumption |].
  apply IH, direct_step_inUnit.
Qed.

Lemma transform_step_inUnit (gridW gridH : nat) (g : Transform.Game) :
  inUnit (Transform.A (Transform.step gridW gridH g)).
Proof.
  unfold Transform.step. cbn [Transform.A].
  apply tabulate_Forall. intros. apply transform_clamp_bounds. lra.
Qed.

Lemma transform_run_inUnit (gridW gridH n : nat) :
  forall g, inUnit (Transform.A g) ->
            inUnit (Transform.A (Transform.run gridW gridH n g)).
Proof.
  induction n as [| n IH]; intros g Hg; cbn [Transform.run]; [assumption |].
  apply IH, transform_step_inUnit.
Qed.

(** Every tick publishes a Field of the grid's dimensions. *)
Lemma direct_run_wellFormed (gridW gridH n : nat) :
  forall g, wellFormed gridW gridH (Direct.A g) ->
            wellFormed gridW gridH (Direct.A (Direct.run gridW gridH n g)).
Proof.
  induction n as [| n IH]; intros g Hg; cbn [Direct.run]; [assumption |].
  apply IH. unfold Direct.step. cbn [Direct.A]. apply tabulate_wellFormed.
Qed.

Lemma transform_run_wellFormed (gridW gridH n : nat) :
  forall g, wellFormed gridW gridH (Transform.A g) ->
            wellFormed gridW gridH (Transform.A (Transform.run gridW gridH n g)).
Proof.
  induction n as [| n IH]; intros g Hg; cbn [Transform.run]; [assumption |].
  apply IH. unfold Transform.step. cbn [Transform.A]. apply tabulate_wellFormed.
Qed.

Lemma lenia2_update_inUnit (width height : nat) (field : Field) :
  inUnit (Lenia2.updateField width height field).
Proof.
  unfold Lenia2.updateField. apply tabulate_Forall. intros y x _ _.
  set (val := get field y x + _).
  destruct (Rlt_dec val 0); destruct (Rgt_dec _ 1); lra.
Qed.

Lemma zeros_inUnit (w h : nat) : inUnit (zeros w h).
Proof.
  unfold inUnit, zeros. apply Forall_forall. intros row Hrow.
  apply repeat_spec in Hrow. subst row.
  apply Forall_forall. intros v Hv. apply repeat_spec in Hv. lra.
Qed.

(** C3.  Starting from a Field all of whose cells lie in [[0,1]], after any
    number [n] of ticks every cell of the current Field lies in [[0,1]];
    this holds for the direct engine and for the FFT engine (whatever its
    transform returns). *)
Theorem field_stays_in_unit (gridW gridH gridW' gridH' n : nat)
    (g : Direct.Game) (t : Transform.Game) :
  inUnit (Direct.A g) -> inUnit (Transform.A t) ->
  inUnit (Direct.A (Direct.run gridW gridH n g)) /\
  inUnit (Transform.A (Transform.run gridW' gridH' n t)).
Proof.
  intros Hg Ht. split.
  - now apply direct_run_inUnit.
  - now apply transform_run_inUnit.
Qed.

Lemma field_stays_in_unit_witness :
  inUnit (Direct.A (Direct.run Direct.Const.gridW Direct.Const.gridH 1000
                      sampleDirect)) /\
  inUnit (Transform.A
            (Transform.run Transform.Const.gridW Transform.Const.gridH 1000
               sampleTransform)).
Proof.
  apply field_stays_in_unit.
  - apply direct_NewGame_inUnit. intros n. unfold clockDraws. cbn. lra.
  - apply transform_NewGame_inUnit. intros n. unfold clockDraws. cbn. lra.
Defined.

(** ** Toroidal indexing *)

(** On a positive modulus [wrap] is the mathematical remainder. *)
Lemma wrap_mod (x m : Z) : (0 < m)%Z -> Direct.wrap x m = (x mod m)%Z.
Proof.
  intros Hm. unfold Direct.wrap. destruct (Z.geb_spec x 0) as [Hx | Hx].
  - apply Z.rem_mod_nonneg; lia.
  - pose proof (Z.rem_bound_pos_neg x m Hm ltac:(lia)) as Hr.
    rewrite Z.rem_mod_nonneg by lia.
    replace (Z.rem x m + m)%Z with (Z.rem x m + 1 * m)%Z by ring.
    rewrite Z_mod_plus_full.
    rewrite (Z.quot_rem' x m) at 2.
    rewrite Z.add_comm, Z.mul_comm, Z_mod_plus_full. reflexivity.
Qed.

Lemma wrap_range (x : Z) (n : nat) :
  (0 < n)%nat -> (0 <= Direct.wrap x (Z.of_nat n) < Z.of_nat n)%Z.
Proof. intros Hn. rewrite wrap_mod by lia. apply Z.mod_pos_bound. lia. Qed.

(** The accumulation [u += t] over a list is the sum of the terms. *)
Lemma fold_left_sum {T : Type} (f : T -> R) (l : list T) (a : R) :
  fold_left (fun u k => u + f k) l a = a + fold_right Rplus 0 (map f l).
Proof.
  revert a. induction l as [| k l IH]; intros a; cbn.
  - lra.
  - rewrite IH. lra.
Qed.

Lemma direct_activity_sum (gridW gridH : nat) (g : Direct.Game) (y x : Z) :
  (0 < gridW)%nat -> (0 < gridH)%nat ->
  Direct.activity gridW gridH g y x
  = toroidalSum gridW gridH (Direct.kernel g) (Direct.A g) y x.
Proof.
  intros HW HH. unfold Direct.activity, toroidalSum. cbv zeta.
  rewrite (fold_left_sum (fun k => Direct.w k * get (Direct.A g)
             (Direct.wrap (y + Direct.dy k) (Z.of_nat gridH))
             (Direct.wrap (x + Direct.dx k) (Z.of_nat gridW)))).
  rewrite Rplus_0_l. f_equal. apply map_ext. intros k.
  now rewrite !wrap_mod by lia.
Qed.

(** ** One tick of the direct engine *)

Lemma direct_step_cell (gridW gridH : nat) (g : Direct.Game) (y x : Z) :
  (0 <= y < Z.of_nat gridH)%Z -> (0 <= x < Z.of_nat gridW)%Z ->
  get (Direct.A (Direct.step gridW gridH g)) y x
  = Direct.clamp
      (get (Direct.A g) y x
       + Direct.dt g * Direct.growth (Direct.activity gridW gridH g y x)
                                     (Direct.mu g) (Direct.sigma g)) 0 1.
Proof.
  intros Hy Hx. unfold Direct.step. cbn [Direct.A].
  now rewrite get_tabulate.
Qed.





(** ** Translation invariance *)

Lemma wrap_shift_commute (a d s : Z) (n : nat) :
  (0 < n)%nat ->
  ((Direct.wrap (a + d) (Z.of_nat n) - s) mod Z.of_nat n)%Z
  = Direct.wrap ((a - s) mod Z.of_nat n + d) (Z.of_nat n).
Proof.
  intros Hn. rewrite !wrap_mod by lia.
  rewrite Zminus_mod_idemp_l, Zplus_mod_idemp_l. f_equal. ring.
Qed.

Lemma get_shiftField (W H : nat) (sx sy : Z) (F : Field) (y x : Z) :
  (0 <= y < Z.of_nat H)%Z -> (0 <= x < Z.of_nat W)%Z ->
  get (shiftField W H sx sy F) y x
  = get F ((y - sy) mod Z.of_nat H) ((x - sx) mod Z.of_nat W).
Proof. intros Hy Hx. unfold shiftField. now rewrite get_tabulate. Qed.

Lemma shift_back (a s : Z) (n : nat) :
  (0 <= a < Z.of_nat n)%Z ->
  (((a + s) mod Z.of_nat n - s) mod Z.of_nat n)%Z = a.
Proof.
  intros Ha. rewrite Zminus_mod_idemp_l.
  replace (a + s - s)%Z with a by ring. now apply Z.mod_small.
Qed.

Lemma fold_left_pointwise {T : Type} (f f' : R -> T -> R) (l : list T) (a : R) :
  (forall acc k, f acc k = f' acc k) -> fold_left f l a = fold_left f' l a.
Proof.
  intros Hf. revert a. induction l as [| k l IH]; intros a; cbn;
    [reflexivity | now rewrite Hf, IH].
Qed.

Lemma activity_shift (gridW gridH : nat) (sx sy : Z) (g : Direct.Game) (y x : Z) :
  (0 < gridW)%nat -> (0 < gridH)%nat ->
  Direct.activity gridW gridH
    (withField g (shiftField gridW gridH sx sy (Direct.A g))) y x
  = Direct.activity gridW gridH g
      ((y - sy) mod Z.of_nat gridH) ((x - sx) mod Z.of_nat gridW).
Proof.
  intros HW HH. unfold Direct.activity, withField.
  cbn [Direct.A Direct.kernel]. cbv zeta.
  apply fold_left_pointwise. intros acc k. do 2 f_equal.
  rewrite get_shiftField by (apply wrap_range; lia).
  now rewrite !wrap_shift_commute by assumption.
Qed.

(** C6.  Shifting the Field cyclically by [(sx, sy)] and then running one
    tick gives exactly the Field obtained by running the tick first and
    shifting afterwards, for every Field, every offset (of either sign) and
    every kernel and growth parameters.  The shift is the cyclic shift of
    the torus, independently of the code: it carries the cell at [(x, y)] to
    [((x + sx) mod gridW, (y + sy) mod gridH)]. *)
Theorem step_commutes_with_shift (gridW gridH : nat) (sx sy : Z)
    (g : Direct.Game) :
  Direct.A (Direct.step gridW gridH
              (withField g (shiftField gridW gridH sx sy (Direct.A g))))
  = shiftField gridW gridH sx sy (Direct.A (Direct.step gridW gridH g)) /\
  (forall (F : Field) (y x : Z),
      (0 <= y < Z.of_nat gridH)%Z -> (0 <= x < Z.of_nat gridW)%Z ->
      get (shiftField gridW gridH sx sy F)
          ((y + sy) mod Z.of_nat gridH) ((x + sx) mod Z.of_nat gridW)
      = get F y x).
Proof.
  split.
  - unfold Direct.step at 1. cbn [Direct.A]. unfold shiftField at 2.
    apply tabulate_ext. intros y x Hy Hx.
    assert (HW : (0 < gridW)%nat) by lia.
    assert (HH : (0 < gridH)%nat) by lia.
    rewrite direct_step_cell by (apply Z.mod_pos_bound; lia).
    rewrite activity_shift by assumption.
    unfold withField at 1 2 3 4.
    cbn [Direct.A Direct.dt Direct.mu Direct.sigma].
    now rewrite get_shiftField by assumption.
  - intros F y x Hy Hx.
    rewrite get_shiftField by (apply Z.mod_pos_bound; lia).
    now rewrite !shift_back by assumption.
Qed.

(** ** The Lorenz driver and the modulated parameters *)

Lemma transform_run_lorenz (gridW gridH n : nat) :
  forall g, Transform.lorenz (Transform.run gridW gridH n g)
            = iterLorenz n (Transform.lorenz g).
Proof.
  induction n as [| n IH]; intros g; cbn [Transform.run iterLorenz];
    [reflexivity |].
  now rewrite IH.
Qed.

(** C9.  A tick advances the driver by exactly one explicit Euler step of
    the Lorenz system, with the driver's own step size [dt] (the Field's
    [Dt] does not enter, and neither changes); the growth parameters it
    then publishes are [Mu] nudged by [0.002*tanh(x/20)] and clamped to
    [[0.01,1]], [Sigma] scaled by [1 + 0.001*y] and clamped to [[0.001,1]],
    computed from the advanced driver state.  [n] ticks make [n] driver
    steps. *)
Theorem tick_advances_driver (gridW gridH n : nat) (g : Transform.Game) :
  let l := Transform.lorenz g in
  let l' := Transform.lorenz (Transform.step gridW gridH g) in
  let gn' := Transform.genome (Transform.step gridW gridH g) in
  (Transform.x l' = Transform.x l
      + Transform.dt l * Transform.sigma l * (Transform.y l - Transform.x l) /\
   Transform.y l' = Transform.y l
      + Transform.dt l
        * (Transform.x l * (Transform.rho l - Transform.z l) - Transform.y l) /\
   Transform.z l' = Transform.z l
      + Transform.dt l
        * (Transform.x l * Transform.y l - Transform.b l * Transform.z l)) /\
  (Transform.sigma l' = Transform.sigma l /\ Transform.rho l' = Transform.rho l /\
   Transform.b l' = Transform.b l /\ Transform.dt l' = Transform.dt l) /\
  (Transform.Mu gn'
   = Transform.clamp
       (Transform.Mu (Transform.genome g) + 0.002 * tanh (Transform.x l' / 20))
       0.01 1 /\
   Transform.Sigma gn'
   = Transform.clamp
       (Transform.Sigma (Transform.genome g) * (1 + 0.001 * Transform.y l'))
       0.001 1 /\
   Transform.Dt gn' = Transform.Dt (Transform.genome g)) /\
  Transform.lorenz (Transform.run gridW gridH n g) = iterLorenz n l.
Proof.
  cbv zeta. unfold Transform.step, Transform.modulate, Transform.Lorenz_Step.
  cbn [Transform.lorenz Transform.genome Transform.x Transform.y Transform.z
       Transform.sigma Transform.rho Transform.b Transform.dt
       Transform.Mu Transform.Sigma Transform.Dt].
  repeat split; try ring; try (f_equal; lra).
  apply transform_run_lorenz.
Qed.

(** ** The safe range of the modulated parameters *)

Lemma modulate_safe (gn : Transform.Genome) (l : Transform.Lorenz) :
  genomeSafe (Transform.modulate gn l).
Proof.
  unfold genomeSafe, Transform.modulate. cbn [Transform.Mu Transform.Sigma].
  split.
  - pose proof (transform_clamp_bounds
                  (Transform.Mu gn + 0.002 * tanh (Transform.x l / 20))
                  0.01 1.0 ltac:(lra)). lra.
  - pose proof (transform_clamp_bounds
                  (Transform.Sigma gn * (1 + 0.001 * Transform.y l))
                  0.001 1.0 ltac:(lra)). lra.
Qed.

Lemma transform_step_safe (gridW gridH : nat) (g : Transform.Game) :
  genomeSafe (Transform.genome (Transform.step gridW gridH g)).
Proof. unfold Transform.step. cbn [Transform.genome]. apply modulate_safe. Qed.

Lemma transform_step_cell (gridW gridH : nat) (g : Transform.Game) (y x : Z) :
  (0 <= y < Z.of_nat gridH)%Z -> (0 <= x < Z.of_nat gridW)%Z ->
  get (Transform.A (Transform.step gridW gridH g)) y x
  = Transform.clamp
      (get (Transform.A g) y x
       + Transform.Dt (Transform.genome (Transform.step gridW gridH g))
         * Transform.growth
             (get (Transform.convolve gridW gridH g) y x)
             (Transform.Mu (Transform.genome (Transform.step gridW gridH g)))
             (Transform.Sigma (Transform.genome (Transform.step gridW gridH g))))
      0 1.
Proof.
  intros Hy Hx. unfold Transform.step. cbn [Transform.A Transform.genome].
  now rewrite get_tabulate.
Qed.

(** C10.  After every tick of the modulated engine the growth parameters
    satisfy [0.01 <= Mu <= 1] and [0.001 <= Sigma <= 1], whatever they were
    before; [Sigma] is positive, so the growth rate a tick integrates into a
    cell is the Gaussian bump [2*exp(..) - 1], never the [sigma <= 0]
    value. *)
Theorem modulated_params_safe (gridW gridH n : nat) (g : Transform.Game)
    (y x : Z) :
  (0 <= y < Z.of_nat gridH)%Z -> (0 <= x < Z.of_nat gridW)%Z ->
  genomeSafe (Transform.genome (Transform.run gridW gridH (S n) g)) /\
  0 < Transform.Sigma (Transform.genome (Transform.step gridW gridH g)) /\
  get (Transform.A (Transform.step gridW gridH g)) y x
  = Transform.clamp
      (get (Transform.A g) y x
       + Transform.Dt (Transform.genome (Transform.step gridW gridH g))
         * (2 * exp (- (get (Transform.convolve gridW gridH g) y x
                        - Transform.Mu
                            (Transform.genome (Transform.step gridW gridH g))) ^ 2
                     / (2 * Transform.Sigma
                              (Transform.genome (Transform.step gridW gridH g))
                          * Transform.Sigma
                              (Transform.genome (Transform.step gridW gridH g))))
            - 1))
      0 1.
Proof.
  intros Hy Hx.
  pose proof (transform_step_safe gridW gridH g) as [_ [Hs _]].
  split; [| split].
  - clear Hs. revert g. induction n as [| n IH]; intros g.
    + cbn [Transform.run]. apply transform_step_safe.
    + change (Transform.run gridW gridH (S (S n)) g)
        with (Transform.run gridW gridH (S n) (Transform.step gridW gridH g)).
      apply IH.
  - lra.
  - rewrite transform_step_cell by assumption.
    unfold Transform.growth at 1.
    destruct (Rle_dec _ 0); [lra | reflexivity].
Qed.

Lemma modulated_params_safe_witness :
  genomeSafe
    (Transform.genome
       (Transform.run Transform.Const.gridW Transform.Const.gridH 1000
          sampleTransform)).
Proof.
  refine (proj1 (modulated_params_safe
                   Transform.Const.gridW Transform.Const.gridH 999
                   sampleTransform 64 64 _ _));
    unfold Transform.Const.gridW, Transform.Const.gridH; lia.
Defined.

(** ** The sparse kernel builder *)

Lemma fromTo_In (lo hi d : Z) : In d (fromTo lo hi) <-> (lo <= d <= hi)%Z.
Proof.
  unfold fromTo. rewrite in_map_iff. split.
  - intros (k & <- & Hk). apply in_seq in Hk. lia.
  - intros Hd. exists (Z.to_nat (d - lo)). split; [lia | apply in_seq; lia].
Qed.

Lemma ceil_spec (r : R) : IZR (ceil r) - 1 < r <= IZR (ceil r).
Proof.
  unfold ceil. destruct (archimed (- r)) as [Hlo Hhi].
  rewrite minus_IZR. lra.
Qed.

Lemma ceil_pos (r : R) : 0 < r -> (1 <= ceil r)%Z.
Proof.
  intros Hr. destruct (ceil_spec r) as [_ Hc].
  assert (H0 : 0 < IZR (ceil r)) by lra.
  apply lt_IZR in H0. lia.
Qed.

Lemma hypot_nonneg (p q : R) : 0 <= hypot p q.
Proof. apply sqrt_pos. Qed.

Lemma hypot_0_0 : hypot (float64 0) (float64 0) = 0.
Proof.
  unfold hypot, float64. replace (0 * 0 + 0 * 0) with 0 by ring. apply sqrt_0.
Qed.

Lemma rawEntries_In (shellSigma R' : R) (e : Direct.KernelEntry) :
  In e (Direct.rawEntries shellSigma R') <->
  (- ceil R' <= Direct.dx e <= ceil R')%Z /\
  (- ceil R' <= Direct.dy e <= ceil R')%Z /\
  hypot (float64 (Direct.dx e)) (float64 (Direct.dy e)) <= R' /\
  Direct.w e
  = Direct.Kc shellSigma
      (hypot (float64 (Direct.dx e)) (float64 (Direct.dy e)) / R').
Proof.
  unfold Direct.rawEntries. cbv zeta. rewrite in_flat_map. split.
  - intros (dy & Hdy & He). apply in_flat_map in He as (dx & Hdx & He).
    apply fromTo_In in Hdy, Hdx.
    destruct (Rle_dec _ R') as [Hd | Hd]; [| contradiction].
    destruct He as [<- | []]. cbn. auto.
  - intros (Hdx & Hdy & Hd & Hw).
    exists (Direct.dy e). split; [now apply fromTo_In |].
    apply in_flat_map. exists (Direct.dx e). split; [now apply fromTo_In |].
    destruct (Rle_dec _ R') as [_ | Hn]; [| contradiction].
    left. destruct e as [ex ey ew]. cbn in *. now rewrite Hw.
Qed.

Lemma rawEntries_weight_pos (shellSigma R' : R) (e : Direct.KernelEntry) :
  In e (Direct.rawEntries shellSigma R') -> 0 < Direct.w e.
Proof.
  intros He. apply rawEntries_In in He as (_ & _ & _ & ->).
  unfold Direct.Kc. apply exp_pos.
Qed.

Lemma rawEntries_centre (shellSigma R' : R) :
  0 < R' ->
  In (Direct.mkEntry 0 0 (Direct.Kc shellSigma (0 / R')))
     (Direct.rawEntries shellSigma R').
Proof.
  intros HR. apply rawEntries_In. cbn [Direct.dx Direct.dy Direct.w].
  pose proof (ceil_pos R' HR). rewrite hypot_0_0.
  repeat split; try lia; lra.
Qed.

Lemma weightSum_fold (es : list Direct.KernelEntry) :
  Direct.weightSum es = fold_right Rplus 0 (map Direct.w es).
Proof. unfold Direct.weightSum. rewrite fold_left_sum. lra. Qed.

Lemma sum_nonneg (l : list R) :
  Forall (fun v => 0 <= v) l -> 0 <= fold_right Rplus 0 l.
Proof. induction 1; cbn; lra. Qed.

Lemma sum_pos_member (l : list R) (v : R) :
  Forall (fun t => 0 <= t) l -> In v l -> v <= fold_right Rplus 0 l.
Proof.
  induction 1 as [| t l Ht Hl IH]; intros Hv; [contradiction |].
  cbn. pose proof (sum_nonneg l Hl). destruct Hv as [-> | Hv].
  - lra.
  - specialize (IH Hv). lra.
Qed.

Lemma rawEntries_sum_pos (shellSigma R' : R) :
  0 < R' -> 0 < Direct.weightSum (Direct.rawEntries shellSigma R').
Proof.
  intros HR. rewrite weightSum_fold.
  apply Rlt_le_trans with (Direct.Kc shellSigma (0 / R')).
  - unfold Direct.Kc. apply exp_pos.
  - apply sum_pos_member.
    + apply Forall_forall. intros v Hv. apply in_map_iff in Hv as (e & <- & He).
      left. eapply rawEntries_weight_pos; eassumption.
    + apply in_map_iff. eexists. split; [| apply rawEntries_centre; assumption].
      reflexivity.
Qed.

Lemma sum_scaled (l : list R) (s : R) :
  fold_right Rplus 0 (map (fun v => v / s) l) = fold_right Rplus 0 l / s.
Proof.
  induction l as [| v l IH]; cbn; [unfold Rdiv; ring |].
  rewrite IH. unfold Rdiv. ring.
Qed.

(** The sparse builder divides by the total: its weights sum to exactly 1
    for every positive radius (and every shell width). *)
Lemma direct_kernel_normalised (shellSigma R' : R) :
  0 < R' ->
  Direct.weightSum (fst (Direct.buildKernelWith shellSigma R')) = 1.
Proof.
  intros HR. unfold Direct.buildKernelWith. cbv zeta. cbn [fst].
  pose proof (rawEntries_sum_pos shellSigma R' HR) as Hpos.
  rewrite weightSum_fold, map_map. cbn [Direct.w].
  rewrite <- (map_map Direct.w (fun v => v / _)), sum_scaled.
  rewrite <- weightSum_fold. field. lra.
Qed.

Lemma direct_kernel_shape (shellSigma R' : R) (e : Direct.KernelEntry) :
  0 < R' ->
  In e (fst (Direct.buildKernelWith shellSigma R')) ->
  hypot (float64 (Direct.dx e)) (float64 (Direct.dy e)) <= R' /\
  Direct.w e
  = exp (- 0.5 * ((hypot (float64 (Direct.dx e)) (float64 (Direct.dy e)) / R'
                   - 0.5) / shellSigma) ^ 2)
    / Direct.weightSum (Direct.rawEntries shellSigma R').
Proof.
  intros HR He. unfold Direct.buildKernelWith in He. cbv zeta in He.
  cbn [fst] in He. apply in_map_iff in He as (e0 & <- & He0).
  apply rawEntries_In in He0 as (_ & _ & Hd & Hw). cbn [Direct.dx Direct.dy Direct.w].
  split; [assumption |]. rewrite Hw. unfold Direct.Kc. cbv zeta.
  f_equal. f_equal. ring.
Qed.

(** ** The dense kernel builder of the FFT program *)

Lemma sum_two_members (l : list R) (i j : nat) :
  Forall (fun t => 0 <= t) l -> (i < j < length l)%nat ->
  nth i l 0 + nth j l 0 <= fold_right Rplus 0 l.
Proof.
  intros Hl. revert i j. induction Hl as [| t l Ht Hl IH]; intros i j Hij.
  - cbn in Hij. lia.
  - destruct j as [| j]; [lia |]. destruct i as [| i]; cbn [nth fold_right].
    + assert (Hin : In (nth j l 0) l) by (apply nth_In; cbn in Hij; lia).
      pose proof (sum_pos_member l _ Hl Hin). lra.
    + specialize (IH i j ltac:(cbn in Hij; lia)). lra.
Qed.

Lemma gridSum_row (F : Field) (y : nat) :
  Forall (Forall (fun t => 0 <= t)) F -> (y < length F)%nat ->
  fold_right Rplus 0 (nth y F []) <= gridSum F.
Proof.
  intros HF Hy. unfold gridSum. apply sum_pos_member.
  - apply Forall_forall. intros v Hv. apply in_map_iff in Hv as (row & <- & Hrow).
    apply sum_nonneg. rewrite Forall_forall in HF. now apply HF.
  - apply in_map. now apply nth_In.
Qed.

Lemma gridSum_two_cells (F : Field) (y x1 x2 : Z) (w h : nat) :
  wellFormed w h F -> Forall (Forall (fun t => 0 <= t)) F ->
  (0 <= y < Z.of_nat h)%Z -> (0 <= x1 < x2)%Z -> (x2 < Z.of_nat w)%Z ->
  get F y x1 + get F y x2 <= gridSum F.
Proof.
  intros [Hh Hw] HF Hy Hx1 Hx2.
  assert (Hyn : (Z.to_nat y < length F)%nat) by lia.
  assert (Hrow : In (nth (Z.to_nat y) F []) F) by now apply nth_In.
  apply Rle_trans with (fold_right Rplus 0 (nth (Z.to_nat y) F [])).
  - unfold get. apply sum_two_members.
    + rewrite Forall_forall in HF. now apply HF.
    + rewrite Forall_forall in Hw. rewrite (Hw _ Hrow). lia.
  - now apply gridSum_row.
Qed.

Lemma dense_kernel_cell (gridW gridH : nat) (R' : R) (y x : Z) :
  (0 <= y < Z.of_nat gridH)%Z -> (0 <= x < Z.of_nat gridW)%Z ->
  get (Transform.buildKernel gridW gridH R') y x
  = let dist := hypot (float64 (x - Z.quot (Z.of_nat gridW) 2))
                      (float64 (y - Z.quot (Z.of_nat gridH) 2)) in
    if Rle_dec dist R'
    then exp (- 0.5 * ((dist / R' - 0.5) / 0.15) ^ 2)
    else 0.
Proof.
  intros Hy Hx. unfold Transform.buildKernel. cbv zeta.
  now rewrite get_tabulate.
Qed.

Lemma dense_kernel_nonneg (gridW gridH : nat) (R' : R) :
  Forall (Forall (fun t => 0 <= t)) (Transform.buildKernel gridW gridH R').
Proof.
  unfold Transform.buildKernel. cbv zeta. apply tabulate_Forall.
  intros y x _ _. destruct (Rle_dec _ R'); [left; apply exp_pos | lra].
Qed.

(** A cell three columns away from the centre of the radius-6 kernel carries
    the peak raw weight [exp 0 = 1]. *)
Lemma dense_kernel_peak (gridW gridH : nat) (y x : Z) :
  (0 <= y < Z.of_nat gridH)%Z -> (0 <= x < Z.of_nat gridW)%Z ->
  y = Z.quot (Z.of_nat gridH) 2 ->
  (x = Z.quot (Z.of_nat gridW) 2 - 3 \/ x = Z.quot (Z.of_nat gridW) 2 + 3)%Z ->
  get (Transform.buildKernel gridW gridH 6) y x = 1.
Proof.
  intros Hy Hx -> Hx3. rewrite dense_kernel_cell by assumption. cbv zeta.
  assert (Hd : hypot (float64 (x - Z.quot (Z.of_nat gridW) 2))
                     (float64 (Z.quot (Z.of_nat gridH) 2
                               - Z.quot (Z.of_nat gridH) 2)) = 3).
  { unfold hypot, float64. rewrite Z.sub_diag.
    destruct Hx3 as [-> | ->].
    - replace (_ - 3 - _)%Z with (-3)%Z by ring.
      replace (-3 * -3 + 0 * 0) with (3 * 3) by ring. apply sqrt_square. lra.
    - replace (_ + 3 - _)%Z with 3%Z by ring.
      replace (3 * 3 + 0 * 0) with (3 * 3) by ring. apply sqrt_square. lra. }
  rewrite Hd. destruct (Rle_dec 3 6); [| lra].
  replace (3 / 6 - 0.5) with 0 by lra.
  replace (- 0.5 * (0 / 0.15) ^ 2) with 0 by (unfold Rdiv; ring).
  apply exp_0.
Qed.

(** C2.  The sparse builder (direct program) is normalised: for every
    radius [R' > 0] and every shell width its weights sum to exactly 1.
    The dense builder of [lenia_lorenz.go] is not: in [buildKernel(6)] on
    the 128 x 128 grid the two cells of the centre row at distance 3 from
    the centre each hold the raw weight 1, so the weights sum to at least
    2, and the sum is not within 1e-9 of 1. *)
Theorem dense_kernel_not_normalised :
  (forall shellSigma R' : R,
      0 < R' ->
      Direct.weightSum (fst (Direct.buildKernelWith shellSigma R')) = 1) /\
  2 <= gridSum (Transform.buildKernel Transform.Const.gridW
                                      Transform.Const.gridH 6) /\
  ~ Rabs (gridSum (Transform.buildKernel Transform.Const.gridW
                                         Transform.Const.gridH 6) - 1) <= 1e-9.
Proof.
  split; [exact direct_kernel_normalised |].
  assert (H2 : 2 <= gridSum (Transform.buildKernel Transform.Const.gridW
                                                   Transform.Const.gridH 6)).
  { pose proof (gridSum_two_cells
                  (Transform.buildKernel Transform.Const.gridW
                                         Transform.Const.gridH 6)
                  64 61 67 Transform.Const.gridW Transform.Const.gridH
                  (tabulate_wellFormed _ _ _)
                  (dense_kernel_nonneg _ _ _)) as Hsum.
    unfold Transform.Const.gridW, Transform.Const.gridH in *.
    rewrite !dense_kernel_peak in Hsum
      by (try (left; reflexivity); try (right; reflexivity);
          try reflexivity; lia).
    apply Rle_trans with (1 + 1); [lra | apply Hsum; lia]. }
  split; [exact H2 |].
  intros Habs. revert Habs. unfold Rabs. destruct (Rcase_abs _); lra.
Qed.

Lemma dense_kernel_not_normalised_witness :
  Direct.weightSum (fst (Direct.buildKernel 6)) = 1.
Proof.
  apply (proj1 dense_kernel_not_normalised 0.15 6). lra.
Defined.

(** ** Construction with a non-positive radius *)

Lemma rawEntries_negative_radius (shellSigma R' : R) :
  R' < 0 -> Direct.rawEntries shellSigma R' = [].
Proof.
  intros HR. destruct (Direct.rawEntries shellSigma R') as [| e es] eqn:He;
    [reflexivity |].
  assert (Hin : In e (Direct.rawEntries shellSigma R'))
    by (rewrite He; now left).
  apply rawEntries_In in Hin as (_ & _ & Hd & _).
  pose proof (hypot_nonneg (float64 (Direct.dx e)) (float64 (Direct.dy e))).
  lra.
Qed.

(** C7, counterexample.  [buildKernel(-1)] does not fail: it returns the
    empty kernel together with 1.0. *)
Lemma buildKernel_minus_one_returns :
  Direct.buildKernel (-1) = ([], 1).
Proof.
  unfold Direct.buildKernel, Direct.buildKernelWith. cbv zeta.
  rewrite rawEntries_negative_radius by lra. reflexivity.
Qed.

(** C7, as the code has it.  Kernel construction has no failure path.  For
    every negative radius the sparse builder returns the empty kernel (and
    1.0) and the dense builder an all-zero array; a tick with the empty
    kernel computes the activity 0 at every cell. *)
Theorem negative_radius_gives_empty_kernel (R' : R) (gridW gridH : nat)
    (g : Direct.Game) (y x : Z) :
  R' < 0 ->
  Direct.buildKernel R' = ([], 1) /\
  Transform.buildKernel gridW gridH R'
  = tabulate gridW gridH (fun _ _ => 0) /\
  (Direct.kernel g = fst (Direct.buildKernel R') ->
   Direct.activity gridW gridH g y x = 0).
Proof.
  intros HR.
  assert (Hk : Direct.buildKernel R' = ([], 1)).
  { unfold Direct.buildKernel, Direct.buildKernelWith. cbv zeta.
    now rewrite rawEntries_negative_radius. }
  split; [exact Hk | split].
  - unfold Transform.buildKernel. cbv zeta. apply tabulate_ext.
    intros y0 x0 _ _. destruct (Rle_dec _ R') as [Hd | _]; [| reflexivity].
    pose proof (hypot_nonneg
                  (float64 (x0 - Z.quot (Z.of_nat gridW) 2))
                  (float64 (y0 - Z.quot (Z.of_nat gridH) 2))).
    lra.
  - intros Hg. unfold Direct.activity. rewrite Hg, Hk. reflexivity.
Qed.

Lemma negative_radius_gives_empty_kernel_witness :
  Direct.buildKernel (-2) = ([], 1).
Proof.
  apply (negative_radius_gives_empty_kernel
           (-2) Direct.Const.gridW Direct.Const.gridH sampleDirect 0 0).
  lra.
Defined.

(** ** Seeding and reproducibility *)

Lemma transform_seedCell_ext (gridW gridH : nat) (d1 d2 : nat -> R) (y x : Z)
    (cur : nat) :
  (forall n, d1 n = d2 n) ->
  Transform.seedCell gridW gridH d1 y x cur
  = Transform.seedCell gridW gridH d2 y x cur.
Proof. intros Hd. unfold Transform.seedCell. now rewrite !Hd. Qed.

Lemma transform_seedRow_ext (gridW gridH : nat) (d1 d2 : nat -> R) (y : Z)
    (xs : list Z) :
  (forall n, d1 n = d2 n) ->
  forall cur, Transform.seedRow gridW gridH d1 y xs cur
              = Transform.seedRow gridW gridH d2 y xs cur.
Proof.
  intros Hd. induction xs as [| x xs IH]; intros cur; cbn; [reflexivity |].
  rewrite (transform_seedCell_ext gridW gridH d1 d2) by assumption.
  destruct (Transform.seedCell gridW gridH d2 y x cur) as [v cur1].
  now rewrite IH.
Qed.

Lemma transform_seedRows_ext (gridW gridH : nat) (d1 d2 : nat -> R)
    (ys : list Z) :
  (forall n, d1 n = d2 n) ->
  forall cur, Transform.seedRows gridW gridH d1 ys cur
              = Transform.seedRows gridW gridH d2 ys cur.
Proof.
  intros Hd. induction ys as [| y ys IH]; intros cur; cbn; [reflexivity |].
  rewrite (transform_seedRow_ext gridW gridH d1 d2) by assumption.
  destruct (Transform.seedRow gridW gridH d2 y (upto gridW) cur) as [row cur1].
  now rewrite IH.
Qed.

Lemma direct_seedRows_ext (gridW gridH : nat) (d1 d2 : nat -> R) :
  (forall n, d1 n = d2 n) ->
  forall ys cur, Direct.seedRows gridW gridH d1 ys cur
                 = Direct.seedRows gridW gridH d2 ys cur.
Proof.
  intros Hd.
  assert (Hcell : forall y x cur,
             Direct.seedCell gridW gridH d1 y x cur
             = Direct.seedCell gridW gridH d2 y x cur).
  { intros. unfold Direct.seedCell. now rewrite !Hd. }
  assert (Hrow : forall y xs cur,
             Direct.seedRow gridW gridH d1 y xs cur
             = Direct.seedRow gridW gridH d2 y xs cur).
  { intros y xs. induction xs as [| x xs IH]; intros cur; cbn; [reflexivity |].
    rewrite Hcell. destruct (Direct.seedCell gridW gridH d2 y x cur).
    now rewrite IH. }
  induction ys as [| y ys IH]; intros cur; cbn; [reflexivity |].
  rewrite Hrow. destruct (Direct.seedRow gridW gridH d2 y (upto gridW) cur).
  now rewrite IH.
Qed.

(** The published parameters depend on the driver and on the previous
    parameters only: not on the Field, the kernel or the transform. *)
Lemma genomes_determined (gridW gridH n : nat) :
  forall g1 g2,
    Transform.lorenz g1 = Transform.lorenz g2 ->
    Transform.genome g1 = Transform.genome g2 ->
    Transform.genomes gridW gridH n g1 = Transform.genomes gridW gridH n g2.
Proof.
  induction n as [| n IH]; intros g1 g2 Hl Hg; cbn [Transform.genomes];
    [reflexivity |].
  assert (Hg' : Transform.genome (Transform.step gridW gridH g1)
                = Transform.genome (Transform.step gridW gridH g2))
    by (unfold Transform.step; cbn [Transform.genome]; now rewrite Hl, Hg).
  assert (Hl' : Transform.lorenz (Transform.step gridW gridH g1)
                = Transform.lorenz (Transform.step gridW gridH g2))
    by (unfold Transform.step; cbn [Transform.lorenz]; now rewrite Hl).
  rewrite Hg'. f_equal. now apply IH.
Qed.

Lemma transform_first_cell (w h : nat) (draws : nat -> R) :
  get (fst (Transform.seedRows (S w) (S h) draws (upto (S h)) 0)) 0 0
  = fst (Transform.seedCell (S w) (S h) draws 0 0 0).
Proof.
  unfold upto. cbn [seq map Transform.seedRows].
  unfold upto. cbn [seq map Transform.seedRow].
  change (Z.of_nat 0) with 0%Z.
  destruct (Transform.seedCell (S w) (S h) draws 0 0 0) as [v cur1].
  destruct (Transform.seedRow _ _ _ _ _ cur1) as [row cur2].
  destruct (Transform.seedRows _ _ _ _ cur2) as [rows cur3].
  reflexivity.
Qed.

(** C8, counterexample.  [NewGame] of [lenia_lorenz.go] seeds the global
    generator from the clock: with a generator whose draws depend on the
    seed, two constructions at different clock readings give different
    initial Fields (cell (0,0) holds 0 in one and 0.001 in the other). *)
Lemma initial_field_depends_on_clock :
  Transform.A (Transform.NewGame Transform.Const.gridW Transform.Const.gridH
                                 clockDraws newFourier 0)
  <> Transform.A (Transform.NewGame Transform.Const.gridW Transform.Const.gridH
                                    clockDraws newFourier 1).
Proof.
  intros Heq. apply (f_equal (fun F => get F 0 0)) in Heq.
  unfold Transform.NewGame in Heq. cbv zeta in Heq. cbn [Transform.A] in Heq.
  unfold Transform.Const.gridW, Transform.Const.gridH in Heq.
  rewrite !(transform_first_cell 127 127) in Heq.
  unfold Transform.seedCell, clockDraws in Heq. cbv zeta in Heq.
  cbn [Z.eqb] in Heq.
  destruct (Rlt_dec 0 0.002); [| lra]. destruct (Rlt_dec 0.001 0.002); [| lra].
  cbn [fst] in Heq. lra.
Qed.

(** C8, as the code has it.  The initial Field is a function of the draws of
    the process-global generator (which [lenia_lorenz.go] reseeds from the
    clock): two constructions whose generators return the same draws build
    the same engine.  Two engines with the same driver state and growth
    parameters publish the same parameter sequence over [N] ticks, whatever
    their Fields; engines built by [NewGame] do so whatever the clock. *)
Theorem reproducible_runs (gridW gridH N : nat)
    (randSeed : Z -> nat -> R) (NewFFT2 : nat -> nat -> Transform.FFT2)
    (now1 now2 : Z) (draws1 draws2 : nat -> R) (g1 g2 : Transform.Game) :
  (forall n, randSeed now1 n = randSeed now2 n) ->
  (forall n, draws1 n = draws2 n) ->
  Transform.lorenz g1 = Transform.lorenz g2 ->
  Transform.genome g1 = Transform.genome g2 ->
  Transform.NewGame gridW gridH randSeed NewFFT2 now1
  = Transform.NewGame gridW gridH randSeed NewFFT2 now2 /\
  Direct.NewGame gridW gridH draws1 = Direct.NewGame gridW gridH draws2 /\
  Transform.genomes gridW gridH N g1 = Transform.genomes gridW gridH N g2 /\
  (forall t1 t2,
     Transform.genomes gridW gridH N
       (Transform.NewGame gridW gridH randSeed NewFFT2 t1)
     = Transform.genomes gridW gridH N
         (Transform.NewGame gridW gridH randSeed NewFFT2 t2)).
Proof.
  intros Hseed Hdraws Hl Hg. split; [| split; [| split]].
  - unfold Transform.NewGame. cbv zeta.
    now rewrite (transform_seedRows_ext gridW gridH _ _ _ Hseed).
  - unfold Direct.NewGame. cbv zeta.
    now rewrite (direct_seedRows_ext gridW gridH _ _ Hdraws).
  - now apply genomes_determined.
  - intros t1 t2. apply genomes_determined; reflexivity.
Qed.

Lemma reproducible_runs_witness :
  Transform.genomes Transform.Const.gridW Transform.Const.gridH 100
    sampleTransform
  = Transform.genomes Transform.Const.gridW Transform.Const.gridH 100
      (Transform.NewGame Transform.Const.gridW Transform.Const.gridH
                         clockDraws newFourier 0).
Proof.
  assert (Hseed : forall n, clockDraws 5 n = clockDraws 7 n)
    by (intros n; reflexivity).
  assert (Hdraws : forall n, clockDraws 0 n = clockDraws 0 n)
    by (intros n; reflexivity).
  assert (Hl : Transform.lorenz sampleTransform
               = Transform.lorenz
                   (Transform.NewGame Transform.Const.gridW
                      Transform.Const.gridH clockDraws newFourier 0))
    by (unfold sampleTransform, Transform.NewGame; cbv zeta;
        cbn [Transform.lorenz]; reflexivity).
  assert (Hg : Transform.genome sampleTransform
               = Transform.genome
                   (Transform.NewGame Transform.Const.gridW
                      Transform.Const.gridH clockDraws newFourier 0))
    by (unfold sampleTransform, Transform.NewGame; cbv zeta;
        cbn [Transform.genome]; reflexivity).
  exact (proj1 (proj2 (proj2
           (reproducible_runs
              Transform.Const.gridW Transform.Const.gridH 100
              clockDraws newFourier 5 7 (clockDraws 0) (clockDraws 0)
              sampleTransform
              (Transform.NewGame Transform.Const.gridW Transform.Const.gridH
                                 clockDraws newFourier 0)
              Hseed Hdraws Hl Hg)))).
Defined.

(** ** The FFT convolution against the direct convolution *)

Lemma sum_all_zero (l : list R) :
  Forall (fun v => v = 0) l -> fold_right Rplus 0 l = 0.
Proof. induction 1 as [| v l Hv _ IH]; cbn; [reflexivity | lra]. Qed.

Lemma get_impulse (W H : nat) (y x : Z) :
  (0 <= y < Z.of_nat H)%Z -> (0 <= x < Z.of_nat W)%Z ->
  get (impulse W H) y x = if ((y =? 0) && (x =? 0))%Z then 1 else 0.
Proof. intros Hy Hx. unfold impulse. now rewrite get_tabulate. Qed.

Lemma impulse_wellFormed (W H : nat) : wellFormed W H (impulse W H).
Proof. apply tabulate_wellFormed. Qed.

Lemma neg_mod_zero (k n : Z) :
  (0 <= k < n)%Z -> ((0 - k) mod n = 0)%Z -> k = 0%Z.
Proof.
  intros Hk Hm. apply Z.mod_divide in Hm; [| lia].
  destruct Hm as [q Hq].
  destruct (Z_lt_le_dec q 0) as [Hneg | Hnn].
  - assert (q * n <= - n)%Z by nia. lia.
  - assert (0 <= q * n)%Z by nia. lia.
Qed.

(** The cyclic convolution of the impulse with a kernel whose origin cell
    is empty vanishes at the origin. *)
Lemma cyclicConv_impulse_origin (W H : nat) (K : Field) :
  get K 0 0 = 0 -> cyclicConv W H (impulse W H) K 0 0 = 0.
Proof.
  intros HK. unfold cyclicConv. apply sum_all_zero.
  apply Forall_forall. intros v Hv.
  apply in_flat_map in Hv as (ky & Hky & Hv).
  apply in_map_iff in Hv as (kx & <- & Hkx).
  apply upto_In in Hky, Hkx.
  rewrite get_impulse by (apply Z.mod_pos_bound; lia).
  destruct (Z.eqb_spec ((0 - ky) mod Z.of_nat H) 0) as [Hy0 | Hy0];
    [| cbn; ring].
  destruct (Z.eqb_spec ((0 - kx) mod Z.of_nat W) 0) as [Hx0 | Hx0];
    [| cbn; ring].
  assert (ky = 0%Z) by (apply (neg_mod_zero ky (Z.of_nat H)); assumption).
  assert (kx = 0%Z) by (apply (neg_mod_zero kx (Z.of_nat W)); assumption).
  subst. rewrite HK. ring.
Qed.

(** The dense kernel leaves the origin cell empty when the centre of the
    grid is farther than the radius. *)
Lemma dense_kernel_origin (gridW gridH : nat) (R' : R) :
  (0 < gridW)%nat -> (0 < gridH)%nat ->
  R' < hypot (float64 (0 - Z.quot (Z.of_nat gridW) 2))
             (float64 (0 - Z.quot (Z.of_nat gridH) 2)) ->
  get (Transform.buildKernel gridW gridH R') 0 0 = 0.
Proof.
  intros HW HH Hfar. rewrite dense_kernel_cell by lia. cbv zeta.
  destruct (Rle_dec _ R'); [lra | reflexivity].
Qed.

(** The direct engine sees the impulse at the origin through the kernel
    entry of offset (0,0). *)
Lemma direct_activity_impulse_pos (gridW gridH : nat) (R' : R) :
  (0 < gridW)%nat -> (0 < gridH)%nat -> 0 < R' ->
  0 < Direct.activity gridW gridH
        (directEngine gridW gridH R' (impulse gridW gridH)) 0 0.
Proof.
  intros HW HH HR. rewrite direct_activity_sum by assumption.
  unfold toroidalSum, directEngine. cbn [Direct.kernel Direct.A].
  unfold Direct.buildKernel, Direct.buildKernelWith. cbv zeta. cbn [fst].
  pose proof (rawEntries_sum_pos 0.15 R' HR) as Hpos.
  set (S0 := Direct.weightSum (Direct.rawEntries 0.15 R')) in *.
  apply Rlt_le_trans with (Direct.Kc 0.15 (0 / R') / S0 * 1).
  - rewrite Rmult_1_r. apply Rdiv_lt_0_compat; [apply exp_pos | assumption].
  - apply sum_pos_member.
    + apply Forall_forall. intros v Hv.
      apply in_map_iff in Hv as (k & <- & Hk).
      apply in_map_iff in Hk as (e & <- & He). cbn [Direct.w Direct.dx Direct.dy].
      apply Rmult_le_pos.
      * left. apply Rdiv_lt_0_compat; [| assumption].
        eapply rawEntries_weight_pos; eassumption.
      * rewrite get_impulse by (apply Z.mod_pos_bound; lia).
        destruct (_ && _)%bool; lra.
    + apply in_map_iff.
      exists (Direct.mkEntry 0 0 (Direct.Kc 0.15 (0 / R') / S0)). split.
      * cbn [Direct.w Direct.dx Direct.dy]. rewrite !Z.add_0_l.
        rewrite !Z.mod_0_l by lia. rewrite get_impulse by lia. reflexivity.
      * apply in_map_iff.
        exists (Direct.mkEntry 0 0 (Direct.Kc 0.15 (0 / R'))). split;
          [reflexivity | now apply rawEntries_centre].
Qed.

Lemma transform_convolve_impulse_origin (gridW gridH : nat)
    (fft : Transform.FFT2) (c R' : R) :
  (0 < gridW)%nat -> (0 < gridH)%nat ->
  R' < hypot (float64 (0 - Z.quot (Z.of_nat gridW) 2))
             (float64 (0 - Z.quot (Z.of_nat gridH) 2)) ->
  realisesCyclicConvolution gridW gridH fft c ->
  get (Transform.convolve gridW gridH
         (transformEngine gridW gridH fft R' (impulse gridW gridH))) 0 0 = 0.
Proof.
  intros HW HH Hfar Hfft. unfold Transform.convolve, transformEngine.
  cbv zeta. cbn [Transform.fft2d Transform.A Transform.kernelFFT].
  rewrite Hfft; try lia;
    [| apply impulse_wellFormed | apply tabulate_wellFormed].
  rewrite cyclicConv_impulse_origin; [ring |].
  now apply dense_kernel_origin.
Qed.

(** C1.  On a grid whose centre is farther than the kernel radius from the
    origin (as 128 x 128 is for radius 6), take the Field with a single
    cell of value 1 at the origin.  With any transform that realises cyclic
    convolution, the FFT engine computes the activity 0 at the origin,
    while the direct engine computes a positive activity there: the two
    strategies differ by the whole value, not by 1e-6 of it. *)
Theorem fft_activity_differs_from_direct (gridW gridH : nat)
    (fft : Transform.FFT2) (c R' : R) :
  (0 < gridW)%nat -> (0 < gridH)%nat -> 0 < R' ->
  R' < hypot (float64 (0 - Z.quot (Z.of_nat gridW) 2))
             (float64 (0 - Z.quot (Z.of_nat gridH) 2)) ->
  realisesCyclicConvolution gridW gridH fft c ->
  get (Transform.convolve gridW gridH
         (transformEngine gridW gridH fft R' (impulse gridW gridH))) 0 0 = 0 /\
  0 < Direct.activity gridW gridH
        (directEngine gridW gridH R' (impulse gridW gridH)) 0 0 /\
  ~ Rabs (get (Transform.convolve gridW gridH
                 (transformEngine gridW gridH fft R' (impulse gridW gridH))) 0 0
          - Direct.activity gridW gridH
              (directEngine gridW gridH R' (impulse gridW gridH)) 0 0)
    <= 1e-6 * Rabs (Direct.activity gridW gridH
                      (directEngine gridW gridH R' (impulse gridW gridH)) 0 0).
Proof.
  intros HW HH HR Hfar Hfft.
  pose proof (transform_convolve_impulse_origin gridW gridH fft c R'
                HW HH Hfar Hfft) as HT.
  pose proof (direct_activity_impulse_pos gridW gridH R' HW HH HR) as HD.
  split; [exact HT | split; [exact HD |]].
  rewrite HT. intros Hrel. revert Hrel. unfold Rabs.
  destruct (Rcase_abs _); destruct (Rcase_abs _); lra.
Qed.

(** ** Complex arithmetic and finite sums *)

Ltac csimp :=
  unfold Cadd, Csub, Transform.Cmul, Transform.complex, Transform.real;
  cbn [fst snd].

Ltac cring :=
  repeat match goal with
         | p : Transform.complex128 |- _ => destruct p
         end;
  csimp; f_equal; ring.

Lemma Cmul_comm (p q : Transform.complex128) :
  Transform.Cmul p q = Transform.Cmul q p.
Proof. cring. Qed.

Lemma Cmul_assoc (p q r : Transform.complex128) :
  Transform.Cmul p (Transform.Cmul q r) = Transform.Cmul (Transform.Cmul p q) r.
Proof. cring. Qed.

Lemma Cmul_0_r (p : Transform.complex128) : Transform.Cmul p (0, 0) = (0, 0).
Proof. cring. Qed.

Lemma Cmul_1_r (p : Transform.complex128) : Transform.Cmul p (1, 0) = p.
Proof. cring. Qed.

Lemma Cadd_0_l (p : Transform.complex128) : Cadd (0, 0) p = p.
Proof. cring. Qed.

Lemma Cmul_add_r (p q r : Transform.complex128) :
  Transform.Cmul p (Cadd q r)
  = Cadd (Transform.Cmul p q) (Transform.Cmul p r).
Proof. cring. Qed.

Lemma Cmul_add_l (p q r : Transform.complex128) :
  Transform.Cmul (Cadd q r) p
  = Cadd (Transform.Cmul q p) (Transform.Cmul r p).
Proof. cring. Qed.

(** A product of complex numbers vanishes only if a factor does. *)
Lemma Cmul_integral (p q : Transform.complex128) :
  Transform.Cmul p q = (0, 0) -> p = (0, 0) \/ q = (0, 0).
Proof.
  destruct p as [a b], q as [c d]. csimp. intros Heq.
  injection Heq as Hre Him.
  assert (Hnorm : (a * a + b * b) * (c * c + d * d) = 0).
  { replace ((a * a + b * b) * (c * c + d * d))
      with ((a * c - b * d) * (a * c - b * d) + (a * d + b * c) * (a * d + b * c))
      by ring.
    rewrite Hre, Him. ring. }
  apply Rmult_integral in Hnorm as [Hp | Hq].
  - left. assert (a = 0 /\ b = 0) as [-> ->]; [| reflexivity].
    pose proof (Rle_0_sqr a) as Ha. pose proof (Rle_0_sqr b) as Hb.
    unfold Rsqr in *. split.
    + apply Rsqr_0_uniq. unfold Rsqr. lra.
    + apply Rsqr_0_uniq. unfold Rsqr. lra.
  - right. assert (c = 0 /\ d = 0) as [-> ->]; [| reflexivity].
    pose proof (Rle_0_sqr c) as Hc. pose proof (Rle_0_sqr d) as Hd.
    unfold Rsqr in *. split.
    + apply Rsqr_0_uniq. unfold Rsqr. lra.
    + apply Rsqr_0_uniq. unfold Rsqr. lra.
Qed.

Lemma Csum_ext (n : nat) (f g : nat -> Transform.complex128) :
  (forall i, (i < n)%nat -> f i = g i) -> Csum n f = Csum n g.
Proof.
  induction n as [| n IH]; intros Hfg; cbn; [reflexivity |].
  rewrite IH, Hfg by auto. reflexivity.
Qed.

Lemma Csum_zero (n : nat) (f : nat -> Transform.complex128) :
  (forall i, (i < n)%nat -> f i = (0, 0)) -> Csum n f = (0, 0).
Proof.
  induction n as [| n IH]; intros Hf; cbn; [reflexivity |].
  rewrite IH, Hf by auto. cring.
Qed.

Lemma Csum_add (n : nat) (f g : nat -> Transform.complex128) :
  Csum n (fun i => Cadd (f i) (g i)) = Cadd (Csum n f) (Csum n g).
Proof.
  induction n as [| n IH]; cbn; [cring |]. rewrite IH.
  generalize (Csum n f) (Csum n g) (f n) (g n). intros. cring.
Qed.

Lemma Csum_mul_l (n : nat) (c : Transform.complex128)
    (f : nat -> Transform.complex128) :
  Transform.Cmul c (Csum n f) = Csum n (fun i => Transform.Cmul c (f i)).
Proof.
  induction n as [| n IH]; cbn; [cring |].
  now rewrite Cmul_add_r, IH.
Qed.

Lemma Csum_mul_r (n : nat) (c : Transform.complex128)
    (f : nat -> Transform.complex128) :
  Transform.Cmul (Csum n f) c = Csum n (fun i => Transform.Cmul (f i) c).
Proof.
  induction n as [| n IH]; cbn; [cring |].
  now rewrite Cmul_add_l, IH.
Qed.

Lemma Csum_swap (n m : nat) (f : nat -> nat -> Transform.complex128) :
  Csum n (fun i => Csum m (fun j => f i j))
  = Csum m (fun j => Csum n (fun i => f i j)).
Proof.
  induction n as [| n IH]; cbn.
  - symmetry. now apply Csum_zero.
  - now rewrite IH, Csum_add.
Qed.

(** A sum with a single non-zero term. *)
Lemma Csum_single (n k : nat) (f : nat -> Transform.complex128) :
  (k < n)%nat -> (forall i, (i < n)%nat -> i <> k -> f i = (0, 0)) ->
  Csum n f = f k.
Proof.
  induction n as [| n IH]; intros Hk Hf; [lia |]. cbn.
  destruct (Nat.eq_dec k n) as [-> | Hne].
  - rewrite Csum_zero by (intros i Hi; apply Hf; lia). apply Cadd_0_l.
  - rewrite IH by (try lia; intros i Hi Hik; apply Hf; lia).
    rewrite (Hf n) by lia. generalize (f k). intros. cring.
Qed.

(** A sum over a flattened index is the sum over rows of the row sums. *)
Lemma Csum_rows (h w : nat) (f : nat -> nat -> Transform.complex128) :
  (0 < w)%nat ->
  Csum (h * w) (fun i => f (i / w)%nat (i mod w)%nat)
  = Csum h (fun y => Csum w (fun x => f y x)).
Proof.
  intros Hw. induction h as [| h IH]; [reflexivity |].
  cbn [Csum]. rewrite <- IH.
  replace (S h * w)%nat with (h * w + w)%nat by lia.
  remember (h * w)%nat as base eqn:Hbase.
  assert (Hgen : forall m, (m <= w)%nat ->
             Csum (base + m) (fun i => f (i / w)%nat (i mod w)%nat)
             = Cadd (Csum base (fun i => f (i / w)%nat (i mod w)%nat))
                    (Csum m (fun x => f h x))).
  { induction m as [| m IHm]; intros Hm.
    - rewrite Nat.add_0_r. cbn. generalize (Csum base (fun i => f (i / w)%nat (i mod w)%nat)).
      intros. cring.
    - replace (base + S m)%nat with (S (base + m)) by lia. cbn [Csum].
      rewrite IHm by lia.
      assert (Hq : ((base + m) / w = h)%nat).
      { subst base. rewrite Nat.add_comm, Nat.div_add by lia.
        rewrite Nat.div_small by lia. reflexivity. }
      assert (Hr : ((base + m) mod w = m)%nat).
      { subst base. rewrite Nat.add_comm, Nat.Div0.mod_add.
        apply Nat.mod_small. lia. }
      rewrite Hq, Hr.
      generalize (Csum base (fun i => f (i / w)%nat (i mod w)%nat))
                 (Csum m (fun x => f h x)) (f h m).
      intros. cring. }
  apply Hgen. lia.
Qed.

(** ** Roots of unity *)

Lemma cis_add (a b : R) : cis (a + b) = Transform.Cmul (cis a) (cis b).
Proof. unfold cis. csimp. rewrite cos_plus, sin_plus. f_equal; ring. Qed.

Lemma cis_0 : cis 0 = (1, 0).
Proof. unfold cis. now rewrite cos_0, sin_0. Qed.

Lemma cis_turns_nat (k : nat) : cis (2 * INR k * PI) = (1, 0).
Proof.
  unfold cis.
  pose proof (cos_period 0 k) as Hc. pose proof (sin_period 0 k) as Hs.
  rewrite Rplus_0_l in Hc, Hs. now rewrite Hc, Hs, cos_0, sin_0.
Qed.

(** A whole number of turns is the identity. *)
Lemma cis_turns (k : Z) : cis (2 * IZR k * PI) = (1, 0).
Proof.
  destruct (Z_le_gt_dec 0 k) as [Hk | Hk].
  - rewrite <- (Z2Nat.id k) by assumption. rewrite <- INR_IZR_INZ.
    apply cis_turns_nat.
  - replace (2 * IZR k * PI) with (- (2 * INR (Z.to_nat (- k)) * PI)).
    + pose proof (cis_turns_nat (Z.to_nat (- k))) as Hn. unfold cis in *.
      rewrite cos_neg, sin_neg. injection Hn as -> ->. f_equal. ring.
    + rewrite INR_IZR_INZ, Z2Nat.id by lia. rewrite opp_IZR. ring.
Qed.

(** Only whole numbers of turns are. *)
Lemma cis_one_turns (t : R) :
  cis t = (1, 0) -> exists k : Z, t = 2 * IZR k * PI.
Proof.
  unfold cis. intros Heq. injection Heq as Hc Hs.
  apply sin_eq_0_0 in Hs as [m Hm].
  destruct (Z.Even_or_Odd m) as [[q Hq] | [q Hq]].
  - exists q. subst m t. rewrite mult_IZR. ring.
  - exfalso. subst m.
    assert (Ht : t = 2 * IZR q * PI + PI)
      by (rewrite Hm, plus_IZR, mult_IZR; ring).
    rewrite Ht, neg_cos in Hc.
    pose proof (cis_turns q) as Hq. unfold cis in Hq. injection Hq as Hq _.
    lra.
Qed.

Lemma cis_pow (t : R) (n : nat) : cis (INR n * t) = Cpow (cis t) n.
Proof.
  induction n as [| n IH].
  - cbn. rewrite Rmult_0_l. apply cis_0.
  - rewrite S_INR. replace ((INR n + 1) * t) with (t + INR n * t) by ring.
    rewrite cis_add, IH. reflexivity.
Qed.

Lemma Cpow_one (n : nat) : Cpow (1, 0) n = (1, 0).
Proof. induction n as [| n IH]; cbn [Cpow]; [reflexivity |]. rewrite IH. cring. Qed.

Lemma Csum_const_one (n : nat) : Csum n (fun _ => (1, 0)) = (INR n, 0).
Proof.
  induction n as [| n IH]; [reflexivity |].
  cbn [Csum]. rewrite IH, S_INR. csimp. f_equal; ring.
Qed.

Lemma geometric_sum (z : Transform.complex128) (n : nat) :
  Transform.Cmul (Csub (1, 0) z) (Csum n (Cpow z)) = Csub (1, 0) (Cpow z n).
Proof.
  induction n as [| n IH]; cbn [Csum Cpow]; [cring |].
  rewrite Cmul_add_r, IH.
  generalize (Cpow z n). intros. cring.
Qed.

(** The [n] powers of an [n]-th root of unity sum to [n] when the root is
    1 and cancel otherwise. *)
Lemma roots_of_unity_sum (n : nat) (d : Z) :
  (0 < n)%nat ->
  Csum n (fun v => cis (2 * PI * (INR v * IZR d / INR n)))
  = if (d mod Z.of_nat n =? 0)%Z then (INR n, 0) else (0, 0).
Proof.
  intros Hn.
  assert (HnR : 0 < INR n) by (apply lt_0_INR; assumption).
  set (t := 2 * PI * (IZR d / INR n)).
  rewrite (Csum_ext n _ (Cpow (cis t))).
  2:{ intros v _. rewrite <- cis_pow. f_equal. unfold t, Rdiv. ring. }
  destruct (Z.eqb_spec (d mod Z.of_nat n) 0) as [Hdiv | Hndiv].
  - apply Z.mod_divide in Hdiv; [| lia]. destruct Hdiv as [q Hq].
    assert (Hz : cis t = (1, 0)).
    { replace t with (2 * IZR q * PI); [apply cis_turns |].
      unfold t. rewrite Hq, mult_IZR, <- INR_IZR_INZ. field. lra. }
    rewrite Hz. rewrite (Csum_ext n _ (fun _ => (1, 0)))
      by (intros; apply Cpow_one).
    apply Csum_const_one.
  - pose proof (geometric_sum (cis t) n) as Hgeo.
    assert (Hzn : Cpow (cis t) n = (1, 0)).
    { rewrite <- cis_pow. replace (INR n * t) with (2 * IZR d * PI);
        [apply cis_turns |]. unfold t. field. lra. }
    rewrite Hzn in Hgeo.
    replace (Csub (1, 0) (1, 0)) with ((0, 0) : Transform.complex128) in Hgeo
      by (csimp; f_equal; ring).
    apply Cmul_integral in Hgeo as [Hone | Hsum]; [| exact Hsum].
    exfalso. apply Hndiv.
    assert (Hz : cis t = (1, 0)).
    { destruct (cis t) as [a b]. revert Hone. csimp. intros Heq.
      injection Heq as Ha Hb. f_equal; lra. }
    apply cis_one_turns in Hz as [k Hk].
    assert (Hd : IZR d = IZR (k * Z.of_nat n)).
    { rewrite mult_IZR, <- INR_IZR_INZ.
      assert (Hpi : PI <> 0) by (pose proof PI_RGT_0; lra).
      unfold t in Hk.
      assert (Hq : IZR d / INR n = IZR k).
      { apply Rmult_eq_reg_l with (2 * PI); [| lra]. rewrite Hk. ring. }
      rewrite <- Hq. field. lra. }
    apply eq_IZR in Hd. rewrite Hd. apply Z_mod_mult.
Qed.

(** ** Characters of the torus *)

Lemma character_add (W H v u : nat) (dy1 dx1 dy2 dx2 : Z) :
  character W H v u (dy1 + dy2) (dx1 + dx2)
  = Transform.Cmul (character W H v u dy1 dx1) (character W H v u dy2 dx2).
Proof.
  unfold character. rewrite <- cis_add. f_equal.
  rewrite !plus_IZR. unfold Rdiv. ring.
Qed.

Lemma character_split (W H v u : nat) (dy dx : Z) :
  character W H v u dy dx
  = Transform.Cmul (cis (2 * PI * (INR v * IZR dy / INR H)))
                   (cis (2 * PI * (INR u * IZR dx / INR W))).
Proof. unfold character. rewrite <- cis_add. f_equal. unfold Rdiv. ring. Qed.

(** Orthogonality: the characters of all frequencies at a displacement sum
    to the number of cells when the displacement is a multiple of the grid
    and cancel otherwise. *)
Lemma characters_sum (W H : nat) (dy dx : Z) :
  (0 < W)%nat -> (0 < H)%nat ->
  Csum (H * W) (fun j => character W H (j / W) (j mod W) dy dx)
  = if ((dy mod Z.of_nat H =? 0) && (dx mod Z.of_nat W =? 0))%Z
    then (INR (H * W), 0) else (0, 0).
Proof.
  intros HW HH.
  rewrite (Csum_rows H W (fun v u => character W H v u dy dx)) by assumption.
  rewrite (Csum_ext H _
             (fun v => Transform.Cmul
                         (cis (2 * PI * (INR v * IZR dy / INR H)))
                         (Csum W (fun u => cis (2 * PI * (INR u * IZR dx / INR W)))))).
  2:{ intros v _. rewrite Csum_mul_l. apply Csum_ext. intros u _.
      apply character_split. }
  rewrite <- Csum_mul_r. rewrite !roots_of_unity_sum by assumption.
  destruct (dy mod Z.of_nat H =? 0)%Z; destruct (dx mod Z.of_nat W =? 0)%Z;
    cbn [andb]; csimp; rewrite ?mult_INR; f_equal; ring.
Qed.

Lemma residue_unique (a1 b : Z) (n : nat) :
  (0 <= a1 < Z.of_nat n)%Z ->
  ((b - a1) mod Z.of_nat n = 0)%Z <-> a1 = (b mod Z.of_nat n)%Z.
Proof.
  intros Ha. split.
  - intros Hm. apply Z.mod_divide in Hm; [| lia]. destruct Hm as [q Hq].
    replace b with (a1 + q * Z.of_nat n)%Z by lia.
    rewrite Z_mod_plus_full. symmetry. now apply Z.mod_small.
  - intros ->. rewrite Zminus_mod_idemp_r, Z.sub_diag. apply Z.mod_0_l. lia.
Qed.

Lemma torusSub_lt (W H i i2 : nat) :
  (0 < W)%nat -> (0 < H)%nat -> (torusSub W H i i2 < H * W)%nat.
Proof.
  intros HW HH. unfold torusSub.
  pose proof (Z.mod_pos_bound (Z.of_nat (i / W) - Z.of_nat (i2 / W))
                (Z.of_nat H) ltac:(lia)) as Hy.
  pose proof (Z.mod_pos_bound (Z.of_nat (i mod W) - Z.of_nat (i2 mod W))
                (Z.of_nat W) ltac:(lia)) as Hx.
  set (ry := ((Z.of_nat (i / W) - Z.of_nat (i2 / W)) mod Z.of_nat H)%Z) in *.
  set (rx := ((Z.of_nat (i mod W) - Z.of_nat (i2 mod W)) mod Z.of_nat W)%Z) in *.
  clearbody ry rx.
  assert (Hry : (Z.to_nat ry < H)%nat) by lia.
  assert (Hrx : (Z.to_nat rx < W)%nat) by lia. nia.
Qed.

(** The displacement from [i1] and [i2] to [i] is a multiple of the grid
    exactly when [i1] is the cell that lies [i2] before [i]. *)
Lemma displacement_zero (W H i i1 i2 : nat) :
  (0 < W)%nat -> (0 < H)%nat -> (i1 < H * W)%nat ->
  (((-1 * Z.of_nat (i1 / W) + (-1 * Z.of_nat (i2 / W) + 1 * Z.of_nat (i / W)))
      mod Z.of_nat H =? 0)
   && ((-1 * Z.of_nat (i1 mod W)
        + (-1 * Z.of_nat (i2 mod W) + 1 * Z.of_nat (i mod W)))
       mod Z.of_nat W =? 0))%Z = true
  <-> i1 = torusSub W H i i2.
Proof.
  intros HW HH Hi1.
  assert (Hy1 : (i1 / W < H)%nat) by (apply Nat.Div0.div_lt_upper_bound; lia).
  assert (Hx1 : (i1 mod W < W)%nat) by (apply Nat.mod_upper_bound; lia).
  rewrite andb_true_iff, !Z.eqb_eq.
  replace (-1 * Z.of_nat (i1 / W)
           + (-1 * Z.of_nat (i2 / W) + 1 * Z.of_nat (i / W)))%Z
    with ((Z.of_nat (i / W) - Z.of_nat (i2 / W)) - Z.of_nat (i1 / W))%Z by ring.
  replace (-1 * Z.of_nat (i1 mod W)
           + (-1 * Z.of_nat (i2 mod W) + 1 * Z.of_nat (i mod W)))%Z
    with ((Z.of_nat (i mod W) - Z.of_nat (i2 mod W)) - Z.of_nat (i1 mod W))%Z
    by ring.
  rewrite !residue_unique by lia. unfold torusSub.
  pose proof (Z.mod_pos_bound (Z.of_nat (i / W) - Z.of_nat (i2 / W))
                (Z.of_nat H) ltac:(lia)) as Hy.
  pose proof (Z.mod_pos_bound (Z.of_nat (i mod W) - Z.of_nat (i2 mod W))
                (Z.of_nat W) ltac:(lia)) as Hx.
  set (ry := ((Z.of_nat (i / W) - Z.of_nat (i2 / W)) mod Z.of_nat H)%Z) in *.
  set (rx := ((Z.of_nat (i mod W) - Z.of_nat (i2 mod W)) mod Z.of_nat W)%Z) in *.
  split.
  - intros [Hqy Hqx]. rewrite <- Hqy, <- Hqx, !Nat2Z.id.
    rewrite Nat.mul_comm. apply Nat.div_mod_eq.
  - intros ->.
    assert (Hrx : (Z.to_nat rx < W)%nat) by lia.
    rewrite Nat.div_add_l, Nat.div_small, Nat.add_0_r by lia.
    rewrite Nat.add_comm, Nat.Div0.mod_add, Nat.mod_small by lia.
    split; lia.
Qed.

(** ** The convolution theorem *)

Lemma character_sym (W H v u y x : nat) :
  character W H v u (1 * Z.of_nat y) (1 * Z.of_nat x)
  = character W H y x (1 * Z.of_nat v) (1 * Z.of_nat u).
Proof.
  unfold character. f_equal. rewrite !Z.mul_1_l, <- !INR_IZR_INZ.
  unfold Rdiv. ring.
Qed.

Lemma Csum_product (n m : nat) (f g : nat -> Transform.complex128)
    (c : Transform.complex128) :
  Transform.Cmul (Transform.Cmul (Csum n f) (Csum m g)) c
  = Csum m (fun i2 => Csum n (fun i1 =>
      Transform.Cmul (Transform.Cmul (f i1) (g i2)) c)).
Proof.
  replace (Transform.Cmul (Transform.Cmul (Csum n f) (Csum m g)) c)
    with (Transform.Cmul (Csum m g) (Transform.Cmul (Csum n f) c))
    by (generalize (Csum n f) (Csum m g); intros; cring).
  rewrite Csum_mul_r. apply Csum_ext. intros i2 _.
  replace (Transform.Cmul (g i2) (Transform.Cmul (Csum n f) c))
    with (Transform.Cmul (Csum n f) (Transform.Cmul (g i2) c))
    by (generalize (Csum n f) (g i2); intros; cring).
  rewrite Csum_mul_r. apply Csum_ext. intros i1 _.
  apply Cmul_assoc.
Qed.

(** Transforming two signals, multiplying the spectra and transforming back
    gives the cyclic convolution of the signals, times the number of
    cells. *)
Theorem transform2D_convolution (W H : nat)
    (a k : nat -> Transform.complex128) (i : nat) :
  (0 < W)%nat -> (0 < H)%nat ->
  transform2D W H 1
    (fun j => Transform.Cmul (transform2D W H (-1) a j)
                             (transform2D W H (-1) k j)) i
  = Transform.Cmul (INR (H * W), 0)
      (Csum (H * W) (fun i2 =>
         Transform.Cmul (k i2) (a (torusSub W H i i2)))).
Proof.
  intros HW HH. unfold transform2D.
  set (L := (H * W)%nat).
  set (py := fun n : nat => Z.of_nat (n / W)).
  set (px := fun n : nat => Z.of_nat (n mod W)).
  set (e := fun (j : nat) (dy dx : Z) =>
              character W H (j / W) (j mod W) dy dx).
  (* one triple sum over frequencies and the two cells *)
  rewrite (Csum_ext L _
    (fun j => Csum L (fun i2 => Csum L (fun i1 =>
       Transform.Cmul (Transform.Cmul (k i2) (a i1))
         (e j (-1 * py i1 + (-1 * py i2 + 1 * py i))%Z
              (-1 * px i1 + (-1 * px i2 + 1 * px i))%Z))))).
  2:{ intros j _. rewrite character_sym, Csum_product.
      apply Csum_ext. intros i2 _. apply Csum_ext.
      intros i1 _. unfold e. rewrite !character_add. unfold py, px.
      generalize (character W H (j / W) (j mod W)
                    (-1 * Z.of_nat (i1 / W)) (-1 * Z.of_nat (i1 mod W)))
                 (character W H (j / W) (j mod W)
                    (-1 * Z.of_nat (i2 / W)) (-1 * Z.of_nat (i2 mod W)))
                 (character W H (j / W) (j mod W)
                    (1 * Z.of_nat (i / W)) (1 * Z.of_nat (i mod W)))
                 (k i2) (a i1).
      intros. cring. }
  (* the frequency sum moves inside and is evaluated *)
  rewrite Csum_swap.
  rewrite (Csum_ext L _
    (fun i2 => Transform.Cmul
                 (Transform.Cmul (k i2) (a (torusSub W H i i2)))
                 (INR L, 0))).
  2:{ intros i2 _.
      rewrite Csum_swap.
      rewrite (Csum_ext L _
        (fun i1 => Transform.Cmul (Transform.Cmul (k i2) (a i1))
           (if Nat.eq_dec i1 (torusSub W H i i2)
            then (INR L, 0) else (0, 0)))).
      2:{ intros i1 Hi1. rewrite <- Csum_mul_l. f_equal.
          unfold e, L. rewrite characters_sum by assumption.
          pose proof (displacement_zero W H i i1 i2 HW HH Hi1) as Hd.
          unfold py, px.
          destruct (Nat.eq_dec i1 (torusSub W H i i2)) as [Heq | Hne].
          - apply Hd in Heq. now rewrite Heq.
          - destruct (_ && _)%bool eqn:Hb; [| reflexivity].
            exfalso. apply Hne, Hd. reflexivity. }
      rewrite (Csum_single L (torusSub W H i i2)).
      - destruct (Nat.eq_dec _ _) as [_ | Hne]; [reflexivity | contradiction].
      - apply torusSub_lt; assumption.
      - intros i1 _ Hne. destruct (Nat.eq_dec _ _) as [Heq | _];
          [contradiction | apply Cmul_0_r]. }
  rewrite <- Csum_mul_r. apply Cmul_comm.
Qed.

(** ** The transform pair as an instance of the library interface *)

Lemma nth_flat_map_uniform {T U : Type} (g : T -> list U) (w : nat)
    (rs : list T) (d : U) (dr : T) :
  (0 < w)%nat -> (forall r, length (g r) = w) ->
  forall i, (i < length rs * w)%nat ->
  nth i (flat_map g rs) d = nth (i mod w) (g (nth (i / w) rs dr)) d.
Proof.
  intros Hw Hg. induction rs as [| r rs IH]; intros i Hi; [cbn in Hi; lia |].
  cbn [flat_map]. destruct (Nat.lt_ge_cases i w) as [Hlt | Hge].
  - rewrite app_nth1 by (rewrite Hg; assumption).
    now rewrite Nat.div_small, Nat.mod_small by assumption.
  - rewrite app_nth2 by (rewrite Hg; assumption). rewrite Hg.
    rewrite IH by (cbn in Hi; lia).
    replace i with ((i - w) + 1 * w)%nat at 3 4 by lia.
    rewrite Nat.div_add, Nat.Div0.mod_add by lia.
    replace ((i - w) / w + 1)%nat with (S ((i - w) / w)) by lia.
    reflexivity.
Qed.

Lemma nth_flatten (W H : nat) (F : Field) (i : nat) :
  (0 < W)%nat -> wellFormed W H F -> (i < H * W)%nat ->
  nth i (Transform.flatten F) (0, 0)
  = (get F (Z.of_nat (i / W)) (Z.of_nat (i mod W)), 0).
Proof.
  intros HW [Hlen Hrows] Hi.
  assert (Hhd : length (hd [] F) = W).
  { destruct F as [| r F]; [cbn in Hlen; subst H; cbn in Hi; lia |].
    cbn. rewrite Forall_forall in Hrows. apply Hrows. now left. }
  unfold Transform.flatten. rewrite Hhd.
  rewrite (nth_flat_map_uniform _ W F (0, 0) [])
    by (try assumption; try (intros; now rewrite length_map, length_seq); lia).
  assert (Hx : (i mod W < W)%nat) by (apply Nat.mod_upper_bound; lia).
  rewrite nth_indep with (d' := Transform.complex (nth 0%nat (nth (i / W) F []) 0) 0)
    by (rewrite length_map, length_seq; assumption).
  rewrite (map_nth (fun x => Transform.complex (nth x (nth (i / W) F []) 0) 0)).
  rewrite seq_nth by assumption. unfold get, Transform.complex.
  now rewrite !Nat2Z.id.
Qed.

Lemma nth_tabulated_list {T : Type} (f : nat -> T) (n i : nat) (d : T) :
  (i < n)%nat -> nth i (map f (seq 0 n)) d = f i.
Proof.
  intros Hi. rewrite nth_indep with (d' := f 0%nat)
    by (rewrite length_map, length_seq; assumption).
  now rewrite map_nth, seq_nth.
Qed.

Lemma Rsum_ext (n : nat) (f g : nat -> R) :
  (forall i, (i < n)%nat -> f i = g i) -> Rsum n f = Rsum n g.
Proof.
  induction n as [| n IH]; intros Hfg; cbn; [reflexivity |].
  rewrite IH, Hfg by auto. reflexivity.
Qed.

Lemma Csum_of_reals (n : nat) (f : nat -> R) :
  Csum n (fun i => (f i, 0)) = (Rsum n f, 0).
Proof.
  induction n as [| n IH]; cbn [Csum Rsum]; [reflexivity |].
  rewrite IH. csimp. f_equal. ring.
Qed.

Lemma sum_acc (l : list R) (c : R) :
  fold_right Rplus c l = fold_right Rplus 0 l + c.
Proof. induction l as [| v l IH]; cbn; [ring | rewrite IH; ring]. Qed.

Lemma sum_upto (n : nat) (f : Z -> R) :
  fold_right Rplus 0 (map f (upto n)) = Rsum n (fun i => f (Z.of_nat i)).
Proof.
  induction n as [| n IH]; [reflexivity |].
  unfold upto in *. rewrite seq_S, !map_app, fold_right_app. cbn [map fold_right Rsum].
  rewrite <- IH, sum_acc, Nat.add_0_l. ring.
Qed.

Lemma sum_upto_rows (W H : nat) (f : Z -> Z -> R) :
  fold_right Rplus 0
    (flat_map (fun ky => map (fun kx => f ky kx) (upto W)) (upto H))
  = Rsum H (fun ky => Rsum W (fun kx => f (Z.of_nat ky) (Z.of_nat kx))).
Proof.
  rewrite <- (sum_upto H (fun ky => Rsum W (fun kx => f ky (Z.of_nat kx)))).
  induction (upto H) as [| ky l IH]; [reflexivity |].
  cbn [flat_map map fold_right]. rewrite fold_right_app, sum_acc, IH.
  rewrite (sum_upto W (fun kx => f ky kx)). ring.
Qed.

Lemma torusSub_parts (W H i i2 : nat) :
  (0 < W)%nat -> (0 < H)%nat ->
  (torusSub W H i i2 / W
   = Z.to_nat ((Z.of_nat (i / W) - Z.of_nat (i2 / W)) mod Z.of_nat H))%nat /\
  (torusSub W H i i2 mod W
   = Z.to_nat ((Z.of_nat (i mod W) - Z.of_nat (i2 mod W)) mod Z.of_nat W))%nat /\
  (0 <= (Z.of_nat (i / W) - Z.of_nat (i2 / W)) mod Z.of_nat H)%Z /\
  (0 <= (Z.of_nat (i mod W) - Z.of_nat (i2 mod W)) mod Z.of_nat W)%Z.
Proof.
  intros HW HH. unfold torusSub.
  pose proof (Z.mod_pos_bound (Z.of_nat (i / W) - Z.of_nat (i2 / W))
                (Z.of_nat H) ltac:(lia)) as Hry.
  pose proof (Z.mod_pos_bound (Z.of_nat (i mod W) - Z.of_nat (i2 mod W))
                (Z.of_nat W) ltac:(lia)) as Hrx.
  set (ry := ((Z.of_nat (i / W) - Z.of_nat (i2 / W)) mod Z.of_nat H)%Z) in *.
  set (rx := ((Z.of_nat (i mod W) - Z.of_nat (i2 mod W)) mod Z.of_nat W)%Z) in *.
  clearbody ry rx.
  assert (Hx : (Z.to_nat rx < W)%nat) by lia.
  repeat split; try lia.
  - rewrite Nat.div_add_l, Nat.div_small by lia. lia.
  - rewrite Nat.add_comm, Nat.Div0.mod_add. apply Nat.mod_small. lia.
Qed.

(** The transform pair realises cyclic convolution on every grid, with the
    number of cells as scale. *)
Theorem fourier2D_realises (W H : nat) :
  (0 < W)%nat -> (0 < H)%nat ->
  realisesCyclicConvolution W H (fourier2D W H) (INR (H * W)).
Proof.
  intros HW HH F K y x HF HK Hy Hx.
  unfold Transform.reshape. rewrite get_tabulate by assumption.
  set (i := (Z.to_nat y * W + Z.to_nat x)%nat).
  assert (Hi : (i < H * W)%nat) by (unfold i; nia).
  assert (Hiy : (i / W = Z.to_nat y)%nat).
  { unfold i. rewrite Nat.div_add_l, Nat.div_small by lia. lia. }
  assert (Hix : (i mod W = Z.to_nat x)%nat).
  { unfold i. rewrite Nat.add_comm, Nat.Div0.mod_add.
    apply Nat.mod_small. lia. }
  cbn [fourier2D Transform.Coefficients Transform.Sequence].
  rewrite nth_tabulated_list by assumption.
  unfold Transform.mulSpectrum. rewrite length_map, length_seq.
  set (a := fun n => nth n (Transform.flatten F) (0, 0)).
  set (k := fun n => nth n (Transform.flatten K) (0, 0)).
  assert (Hspec : forall j, (j < H * W)%nat ->
            nth j (map (fun n =>
                          Transform.Cmul
                            (nth n (map (transform2D W H (-1) a)
                                        (seq 0 (H * W))) (0, 0))
                            (nth n (map (transform2D W H (-1) k)
                                        (seq 0 (H * W))) (0, 0)))
                       (seq 0 (H * W))) (0, 0)
            = Transform.Cmul (transform2D W H (-1) a j)
                             (transform2D W H (-1) k j)).
  { intros j Hj. rewrite nth_tabulated_list by assumption.
    now rewrite !nth_tabulated_list by assumption. }
  unfold transform2D at 1.
  rewrite (Csum_ext (H * W) _
    (fun j => Transform.Cmul
                (Transform.Cmul (transform2D W H (-1) a j)
                                (transform2D W H (-1) k j))
                (character W H (i / W) (i mod W)
                   (1 * Z.of_nat (j / W)) (1 * Z.of_nat (j mod W)))))
    by (intros j Hj; now rewrite Hspec).
  pose proof (transform2D_convolution W H a k i HW HH) as Hconv.
  unfold transform2D at 1 in Hconv. rewrite Hconv. clear Hconv Hspec.
  rewrite (Csum_ext (H * W) _
    (fun i2 => (get K (Z.of_nat (i2 / W)) (Z.of_nat (i2 mod W))
                * get F ((y - Z.of_nat (i2 / W)) mod Z.of_nat H)
                        ((x - Z.of_nat (i2 mod W)) mod Z.of_nat W), 0))).
  2:{ intros i2 Hi2. unfold a, k.
      rewrite (nth_flatten W H K) by assumption.
      rewrite (nth_flatten W H F)
        by (try assumption; apply torusSub_lt; assumption).
      destruct (torusSub_parts W H i i2 HW HH) as (Hq & Hr & Hqb & Hrb).
      rewrite Hq, Hr, !Z2Nat.id, Hiy, Hix, !Z2Nat.id by lia.
      csimp. f_equal; ring. }
  rewrite (Csum_rows H W
             (fun y2 x2 => (get K (Z.of_nat y2) (Z.of_nat x2)
                            * get F ((y - Z.of_nat y2) mod Z.of_nat H)
                                    ((x - Z.of_nat x2) mod Z.of_nat W), 0)))
    by assumption.
  rewrite (Csum_ext H _
             (fun y2 => (Rsum W (fun x2 =>
                           get K (Z.of_nat y2) (Z.of_nat x2)
                           * get F ((y - Z.of_nat y2) mod Z.of_nat H)
                                   ((x - Z.of_nat x2) mod Z.of_nat W)), 0)))
    by (intros; apply Csum_of_reals).
  rewrite Csum_of_reals. unfold cyclicConv.
  rewrite (sum_upto_rows W H
             (fun ky kx => get K ky kx
                           * get F ((y - ky) mod Z.of_nat H)
                                   ((x - kx) mod Z.of_nat W))).
  csimp. ring.
Qed.

(** ** The two strategies on the grid of the FFT program *)

(** The engine of [transformEngine] carries the transform and the kernel
    spectrum that [NewGame] computes. *)
Lemma transformEngine_as_NewGame (gridW gridH : nat)
    (randSeed : Z -> nat -> R) (fft : Transform.FFT2) (now : Z) (F : Field) :
  Transform.kernelFFT (transformEngine gridW gridH fft 6 F)
  = Transform.kernelFFT
      (Transform.NewGame gridW gridH randSeed (fun _ _ => fft) now) /\
  Transform.fft2d (transformEngine gridW gridH fft 6 F)
  = Transform.fft2d
      (Transform.NewGame gridW gridH randSeed (fun _ _ => fft) now).
Proof. split; reflexivity. Qed.

Lemma centre_beyond_radius :
  6 < hypot (float64 (0 - Z.quot (Z.of_nat Transform.Const.gridW) 2))
            (float64 (0 - Z.quot (Z.of_nat Transform.Const.gridH) 2)).
Proof.
  replace (0 - Z.quot (Z.of_nat Transform.Const.gridW) 2)%Z with (-64)%Z
    by reflexivity.
  replace (0 - Z.quot (Z.of_nat Transform.Const.gridH) 2)%Z with (-64)%Z
    by reflexivity.
  unfold hypot, float64.
  replace 6 with (sqrt (6 * 6)) at 1 by (apply sqrt_square; lra).
  apply sqrt_lt_1; lra.
Qed.

Lemma fft_activity_differs_from_direct_witness :
  get (Transform.convolve Transform.Const.gridW Transform.Const.gridH
         (transformEngine Transform.Const.gridW Transform.Const.gridH
            (fourier2D Transform.Const.gridW Transform.Const.gridH) 6
            (impulse Transform.Const.gridW Transform.Const.gridH))) 0 0 = 0 /\
  0 < Direct.activity Transform.Const.gridW Transform.Const.gridH
        (directEngine Transform.Const.gridW Transform.Const.gridH 6
           (impulse Transform.Const.gridW Transform.Const.gridH)) 0 0.
Proof.
  assert (HW : (0 < Transform.Const.gridW)%nat)
    by (unfold Transform.Const.gridW; lia).
  assert (HH : (0 < Transform.Const.gridH)%nat)
    by (unfold Transform.Const.gridH; lia).
  destruct (fft_activity_differs_from_direct
              Transform.Const.gridW Transform.Const.gridH
              (fourier2D Transform.Const.gridW Transform.Const.gridH)
              (INR (Transform.Const.gridH * Transform.Const.gridW)) 6
              HW HH ltac:(lra) centre_beyond_radius
              (fourier2D_realises _ _ HW HH)) as (HT & HD & _).
  split; assumption.
Defined.

(** ** The two strategies with the kernel at wrapped offsets *)

Lemma Rsum_zero (n : nat) (f : nat -> R) :
  (forall i, (i < n)%nat -> f i = 0) -> Rsum n f = 0.
Proof.
  induction n as [| n IH]; intros Hf; cbn; [reflexivity |].
  rewrite IH, Hf by auto. ring.
Qed.

Lemma Rsum_add (n : nat) (f g : nat -> R) :
  Rsum n (fun i => f i + g i) = Rsum n f + Rsum n g.
Proof. induction n as [| n IH]; cbn; [ring | rewrite IH; ring]. Qed.

Lemma Rsum_single (n k : nat) (f : nat -> R) :
  (k < n)%nat -> (forall i, (i < n)%nat -> i <> k -> f i = 0) ->
  Rsum n f = f k.
Proof.
  induction n as [| n IH]; intros Hk Hf; [lia |]. cbn.
  destruct (Nat.eq_dec k n) as [-> | Hne].
  - rewrite Rsum_zero by (intros i Hi; apply Hf; lia). ring.
  - rewrite IH by (try lia; intros i Hi Hik; apply Hf; lia).
    rewrite (Hf n) by lia. ring.
Qed.

Lemma cyclicConv_Rsum (W H : nat) (F K : Field) (y x : Z) :
  cyclicConv W H F K y x
  = Rsum H (fun ky => Rsum W (fun kx =>
      get K (Z.of_nat ky) (Z.of_nat kx)
      * get F ((y - Z.of_nat ky) mod Z.of_nat H)
              ((x - Z.of_nat kx) mod Z.of_nat W))).
Proof.
  unfold cyclicConv.
  apply (sum_upto_rows W H
           (fun ky kx => get K ky kx
                         * get F ((y - ky) mod Z.of_nat H)
                                 ((x - kx) mod Z.of_nat W))).
Qed.

(** A kernel with the mass [v] in the single cell [(qx, qy)] picks the
    Field value [(qx, qy)] before the cell. *)
Lemma single_cell_sum (W H : nat) (qy qx : Z) (v : R) (G : Z -> Z -> R) :
  (0 <= qy < Z.of_nat H)%Z -> (0 <= qx < Z.of_nat W)%Z ->
  Rsum H (fun ky => Rsum W (fun kx =>
    (if ((qy =? Z.of_nat ky) && (qx =? Z.of_nat kx))%Z then v else 0)
    * G (Z.of_nat ky) (Z.of_nat kx)))
  = v * G qy qx.
Proof.
  intros Hqy Hqx.
  rewrite (Rsum_single H (Z.to_nat qy)); try lia.
  - rewrite (Rsum_single W (Z.to_nat qx)); try lia.
    + rewrite !Z2Nat.id, !Z.eqb_refl by lia. reflexivity.
    + intros kx _ Hne. destruct (Z.eqb_spec qx (Z.of_nat kx)) as [Heq | _];
        [lia |]. rewrite andb_false_r. ring.
  - intros ky _ Hne. apply Rsum_zero. intros kx _.
    destruct (Z.eqb_spec qy (Z.of_nat ky)) as [Heq | _]; [lia |].
    cbn [andb]. ring.
Qed.

(** Cyclic convolution with the embedded kernel is the toroidal kernel sum
    of the direct strategy. *)
Lemma cyclicConv_embedKernel (W H : nat) (entries : list Direct.KernelEntry)
    (F : Field) (y x : Z) :
  (0 < W)%nat -> (0 < H)%nat ->
  cyclicConv W H F (embedKernel W H entries) y x
  = toroidalSum W H entries F y x.
Proof.
  intros HW HH. rewrite cyclicConv_Rsum. unfold toroidalSum.
  induction entries as [| e es IH].
  - cbn [map fold_right]. apply Rsum_zero. intros ky Hky.
    apply Rsum_zero. intros kx Hkx.
    unfold embedKernel. rewrite get_tabulate by lia. cbn. ring.
  - cbn [map fold_right]. rewrite <- IH. clear IH.
    set (G := fun ky kx => get F ((y - ky) mod Z.of_nat H)
                                 ((x - kx) mod Z.of_nat W)).
    rewrite (Rsum_ext H _
      (fun ky =>
         Rsum W (fun kx =>
           (if (((- Direct.dy e) mod Z.of_nat H =? Z.of_nat ky)
                && ((- Direct.dx e) mod Z.of_nat W =? Z.of_nat kx))%Z
            then Direct.w e else 0) * G (Z.of_nat ky) (Z.of_nat kx))
         + Rsum W (fun kx =>
             get (embedKernel W H es) (Z.of_nat ky) (Z.of_nat kx)
             * G (Z.of_nat ky) (Z.of_nat kx)))).
    2:{ intros ky Hky. rewrite <- Rsum_add. apply Rsum_ext. intros kx Hkx.
        unfold embedKernel. rewrite !get_tabulate by lia.
        cbn [map fold_right]. unfold G. ring. }
    rewrite Rsum_add. f_equal.
    rewrite (single_cell_sum W H _ _ (Direct.w e) G)
      by (apply Z.mod_pos_bound; lia).
    unfold G. f_equal. f_equal.
    + rewrite Zminus_mod_idemp_r. f_equal. ring.
    + rewrite Zminus_mod_idemp_r. f_equal. ring.
Qed.

(** With the kernel embedded at wrapped offsets, and a transform that
    realises cyclic convolution with scale [c], the activity of the FFT step
    is [c] times the activity of the direct step, at every cell, for every
    Field and kernel: with a normalised inverse transform ([c = 1]) the two
    strategies compute the same operator. *)
Theorem wrapped_kernel_strategies_agree (gridW gridH : nat)
    (fft : Transform.FFT2) (c : R) (g : Direct.Game) (t : Transform.Game)
    (y x : Z) :
  (0 <= y < Z.of_nat gridH)%Z -> (0 <= x < Z.of_nat gridW)%Z ->
  realisesCyclicConvolution gridW gridH fft c ->
  wellFormed gridW gridH (Direct.A g) ->
  Transform.A t = Direct.A g ->
  Transform.fft2d t = fft ->
  Transform.kernelFFT t
  = Transform.Coefficients fft
      (Transform.flatten (embedKernel gridW gridH (Direct.kernel g))) ->
  get (Transform.convolve gridW gridH t) y x
  = c * Direct.activity gridW gridH g y x.
Proof.
  intros Hy Hx Hfft HF HA Hf Hk. unfold Transform.convolve. cbv zeta.
  rewrite HA, Hf, Hk.
  rewrite Hfft by (try assumption; apply tabulate_wellFormed).
  rewrite cyclicConv_embedKernel by lia.
  now rewrite direct_activity_sum by lia.
Qed.

Lemma wrapped_kernel_strategies_agree_witness :
  get (Transform.convolve Transform.Const.gridW Transform.Const.gridH
         (Transform.mkGame
            (impulse Transform.Const.gridW Transform.Const.gridH)
            (zeros Transform.Const.gridW Transform.Const.gridH)
            (Transform.mkGenome 0.3 0.06 0.08 0)
            (fourier2D Transform.Const.gridW Transform.Const.gridH)
            (Transform.Coefficients
               (fourier2D Transform.Const.gridW Transform.Const.gridH)
               (Transform.flatten
                  (embedKernel Transform.Const.gridW Transform.Const.gridH
                     (fst (Direct.buildKernel 6)))))
            Transform.NewLorenz)) 0 0
  = INR (Transform.Const.gridH * Transform.Const.gridW)
    * Direct.activity Transform.Const.gridW Transform.Const.gridH
        (directEngine Transform.Const.gridW Transform.Const.gridH 6
           (impulse Transform.Const.gridW Transform.Const.gridH)) 0 0.
Proof.
  assert (HW : (0 < Transform.Const.gridW)%nat)
    by (unfold Transform.Const.gridW; lia).
  assert (HH : (0 < Transform.Const.gridH)%nat)
    by (unfold Transform.Const.gridH; lia).
  apply (wrapped_kernel_strategies_agree
           Transform.Const.gridW Transform.Const.gridH
           (fourier2D Transform.Const.gridW Transform.Const.gridH)).
  - lia.
  - lia.
  - apply fourier2D_realises; assumption.
  - apply impulse_wellFormed.
  - reflexivity.
  - reflexivity.
  - reflexivity.
Defined.

(** * Further properties of the programs *)

(** ** Grids, cell by cell *)

(** Two grids of the same dimensions with the same cells are equal. *)
Lemma field_ext (w h : nat) (F G : Field) :
  wellFormed w h F -> wellFormed w h G ->
  (forall y x, (0 <= y < Z.of_nat h)%Z -> (0 <= x < Z.of_nat w)%Z ->
               get F y x = get G y x) ->
  F = G.
Proof.
  intros [HlF HrF] [HlG HrG] Hcells.
  apply nth_ext with (d := []) (d' := []); [congruence |].
  intros y Hy.
  assert (HF : length (nth y F []) = w)
    by (rewrite Forall_forall in HrF; apply HrF, nth_In; lia).
  assert (HG : length (nth y G []) = w)
    by (rewrite Forall_forall in HrG; apply HrG, nth_In; lia).
  apply nth_ext with (d := 0) (d' := 0); [congruence |].
  intros x Hx. specialize (Hcells (Z.of_nat y) (Z.of_nat x)).
  unfold get in Hcells. rewrite !Nat2Z.id in Hcells. apply Hcells; lia.
Qed.

(** A property of all cells holds of the cell read at an index inside the
    grid. *)
Lemma get_in_cells (P : R -> Prop) (w h : nat) (F : Field) (y x : Z) :
  wellFormed w h F -> Forall (Forall P) F ->
  (0 <= y < Z.of_nat h)%Z -> (0 <= x < Z.of_nat w)%Z ->
  P (get F y x).
Proof.
  intros [Hl Hr] HP Hy Hx. unfold get.
  assert (Hrow : In (nth (Z.to_nat y) F []) F) by (apply nth_In; lia).
  rewrite Forall_forall in HP, Hr. specialize (HP _ Hrow).
  rewrite Forall_forall in HP. apply HP, nth_In. rewrite (Hr _ Hrow). lia.
Qed.

Lemma tabulate_zeros (w h : nat) : tabulate w h (fun _ _ => 0) = zeros w h.
Proof.
  unfold tabulate, zeros.
  assert (Hconst : forall (T U : Type) (c : U) (l : list T),
             map (fun _ => c) l = repeat c (length l)).
  { intros T U c l. induction l as [| a l IH]; cbn; [reflexivity | now rewrite IH]. }
  rewrite (Hconst Z R 0 (upto w)), upto_length.
  rewrite (Hconst Z (list R) (repeat 0 w) (upto h)), upto_length. reflexivity.
Qed.

Lemma zeros_wellFormed (w h : nat) : wellFormed w h (zeros w h).
Proof. rewrite <- tabulate_zeros. apply tabulate_wellFormed. Qed.

Lemma get_zeros (w h : nat) (y x : Z) : get (zeros w h) y x = 0.
Proof.
  unfold get, zeros.
  destruct (Nat.lt_ge_cases (Z.to_nat y) h) as [Hy | Hy].
  - rewrite nth_repeat_lt by assumption.
    destruct (Nat.lt_ge_cases (Z.to_nat x) w) as [Hx | Hx].
    + now rewrite nth_repeat_lt.
    + apply nth_overflow. now rewrite repeat_length.
  - rewrite (nth_overflow (repeat _ h)) by now rewrite repeat_length.
    now destruct (Z.to_nat x).
Qed.

(** ** [wrap] *)

(** X1.  On a positive modulus [wrap] returns the representative of [x] in
    [[0, m)]: it is the mathematical remainder, also for negative [x]; it
    leaves indices inside the range alone, is unchanged by adding any
    multiple of [m], and applying it twice changes nothing. *)
Theorem wrap_contract (x k m : Z) :
  (0 < m)%Z ->
  (0 <= Direct.wrap x m < m)%Z /\
  Direct.wrap x m = (x mod m)%Z /\
  Direct.wrap (x + k * m) m = Direct.wrap x m /\
  ((0 <= x < m)%Z -> Direct.wrap x m = x) /\
  Direct.wrap (Direct.wrap x m) m = Direct.wrap x m.
Proof.
  intros Hm. rewrite !wrap_mod by assumption.
  pose proof (Z.mod_pos_bound x m Hm) as Hb.
  repeat split; try lia.
  - apply Z_mod_plus_full.
  - intros Hx. now apply Z.mod_small.
  - apply Z.mod_mod. lia.
Qed.

Lemma wrap_contract_witness :
  Direct.wrap (-1) 240 = 239%Z /\ Direct.wrap (-1 + 2 * 240) 240 = 239%Z.
Proof.
  destruct (wrap_contract (-1) 2 240 ltac:(lia)) as (_ & Hmod & Hper & _).
  split.
  - exact Hmod.
  - rewrite Hper. exact Hmod.
Defined.

(** ** The support of the sparse kernel *)

Lemma abs_le_hypot (p q : R) : Rabs p <= hypot p q /\ Rabs q <= hypot p q.
Proof.
  unfold hypot.
  pose proof (Rle_0_sqr p) as Hp. pose proof (Rle_0_sqr q) as Hq.
  unfold Rsqr in Hp, Hq. split.
  - rewrite <- (sqrt_Rsqr_abs p). apply sqrt_le_1; unfold Rsqr; lra.
  - rewrite <- (sqrt_Rsqr_abs q). apply sqrt_le_1; unfold Rsqr; lra.
Qed.

Lemma hypot_bounds_offset (d e : Z) (R' : R) :
  hypot (float64 d) (float64 e) <= R' ->
  (- ceil R' <= d <= ceil R')%Z /\ (- ceil R' <= e <= ceil R')%Z.
Proof.
  intros Hh. destruct (abs_le_hypot (float64 d) (float64 e)) as [Hd He].
  destruct (ceil_spec R') as [_ Hc]. unfold float64 in *.
  assert (Hd' : Rabs (IZR d) <= IZR (ceil R')) by lra.
  assert (He' : Rabs (IZR e) <= IZR (ceil R')) by lra.
  rewrite <- abs_IZR in Hd', He'. apply le_IZR in Hd', He'. lia.
Qed.

Lemma NoDup_map_injective {T U : Type} (f : T -> U) (l : list T) :
  (forall a b, f a = f b -> a = b) -> NoDup l -> NoDup (map f l).
Proof.
  intros Hf. induction 1 as [| a l Ha Hl IH]; cbn; constructor; [| exact IH].
  intros Hin. apply in_map_iff in Hin as (b & Hb & Hbl).
  apply Hf in Hb. subst b. contradiction.
Qed.

Lemma fromTo_NoDup (lo hi : Z) : NoDup (fromTo lo hi).
Proof.
  unfold fromTo. apply NoDup_map_injective; [| apply seq_NoDup].
  intros i j Hij. lia.
Qed.

Lemma NoDup_flat_map {T U : Type} (f : T -> list U) (l : list T) :
  NoDup l -> (forall a, In a l -> NoDup (f a)) ->
  (forall a b u, In a l -> In b l -> In u (f a) -> In u (f b) -> a = b) ->
  NoDup (flat_map f l).
Proof.
  induction 1 as [| a l Ha Hl IH]; intros Hf Hdisj; cbn; [constructor |].
  apply NoDup_app.
  - apply Hf. now left.
  - apply IH.
    + intros b Hb. apply Hf. now right.
    + intros b c u Hb Hc. apply Hdisj; now right.
  - intros u Hu Hu'. apply in_flat_map in Hu' as (b & Hb & Hub).
    assert (a = b) by (apply (Hdisj a b u); auto; [now left | now right]).
    subst b. contradiction.
Qed.

(** The offsets of the entries the double loop appends are pairwise
    different. *)
Lemma rawEntries_offsets_NoDup (shellSigma R' : R) :
  NoDup (map (fun e => (Direct.dx e, Direct.dy e))
             (Direct.rawEntries shellSigma R')).
Proof.
  unfold Direct.rawEntries. cbv zeta.
  rewrite flat_map_concat_map, concat_map, map_map, <- flat_map_concat_map.
  apply NoDup_flat_map.
  - apply fromTo_NoDup.
  - intros dy _.
    rewrite flat_map_concat_map, concat_map, map_map, <- flat_map_concat_map.
    apply NoDup_flat_map.
    + apply fromTo_NoDup.
    + intros dx _. destruct (Rle_dec _ R'); cbn; repeat constructor. intros [].
    + intros dx dx' u _ _ Hu Hu'.
      destruct (Rle_dec _ R'); cbn in Hu; [| contradiction].
      destruct (Rle_dec _ R'); cbn in Hu'; [| contradiction].
      destruct Hu as [<- | []]. destruct Hu' as [Heq | []]. congruence.
  - intros dy dy' u _ _ Hu Hu'.
    apply in_map_iff in Hu as (e & <- & He).
    apply in_map_iff in Hu' as (e' & Heq & He').
    apply in_flat_map in He as (dx & _ & He).
    apply in_flat_map in He' as (dx' & _ & He').
    destruct (Rle_dec _ R'); cbn in He; [| contradiction].
    destruct (Rle_dec _ R'); cbn in He'; [| contradiction].
    destruct He as [<- | []]. destruct He' as [<- | []]. cbn in Heq. congruence.
Qed.

(** X2.  For every radius [R' > 0] (and every shell width) the kernel
    [buildKernel] returns covers exactly the integer offsets within distance
    [R'] of the origin, each of them once; every weight is positive and at
    most 1, and two entries at the same distance carry the same weight, so
    the kernel is symmetric under reflections and under exchanging the two
    axes. *)
Theorem sparse_kernel_is_disc (shellSigma R' : R) :
  0 < R' ->
  (forall dx dy : Z,
      hypot (float64 dx) (float64 dy) <= R' <->
      exists w, In (Direct.mkEntry dx dy w)
                   (fst (Direct.buildKernelWith shellSigma R'))) /\
  NoDup (map (fun e => (Direct.dx e, Direct.dy e))
             (fst (Direct.buildKernelWith shellSigma R'))) /\
  (forall e, In e (fst (Direct.buildKernelWith shellSigma R')) ->
             0 < Direct.w e <= 1) /\
  (forall e1 e2,
      In e1 (fst (Direct.buildKernelWith shellSigma R')) ->
      In e2 (fst (Direct.buildKernelWith shellSigma R')) ->
      hypot (float64 (Direct.dx e1)) (float64 (Direct.dy e1))
      = hypot (float64 (Direct.dx e2)) (float64 (Direct.dy e2)) ->
      Direct.w e1 = Direct.w e2).
Proof.
  intros HR.
  pose proof (rawEntries_sum_pos shellSigma R' HR) as Hpos.
  unfold Direct.buildKernelWith. cbv zeta. cbn [fst].
  set (S0 := Direct.weightSum (Direct.rawEntries shellSigma R')) in *.
  split; [| split; [| split]].
  - intros dx dy. split.
    + intros Hd. destruct (hypot_bounds_offset dx dy R' Hd) as [Hdx Hdy].
      exists (Direct.Kc shellSigma (hypot (float64 dx) (float64 dy) / R') / S0).
      apply in_map_iff.
      exists (Direct.mkEntry dx dy
                (Direct.Kc shellSigma (hypot (float64 dx) (float64 dy) / R'))).
      split; [reflexivity |]. apply rawEntries_In. cbn. auto.
    + intros [w Hin]. apply in_map_iff in Hin as (e & Heq & He).
      apply rawEntries_In in He as (_ & _ & Hd & _).
      injection Heq as <- <- _. exact Hd.
  - rewrite map_map. cbn [Direct.dx Direct.dy]. apply rawEntries_offsets_NoDup.
  - intros e He. apply in_map_iff in He as (e0 & <- & He0). cbn [Direct.w].
    pose proof (rawEntries_weight_pos _ _ _ He0) as Hw.
    assert (Hle : Direct.w e0 <= S0).
    { unfold S0. rewrite weightSum_fold. apply sum_pos_member.
      - apply Forall_forall. intros v Hv.
        apply in_map_iff in Hv as (e1 & <- & He1).
        left. eapply rawEntries_weight_pos; eassumption.
      - now apply in_map. }
    split.
    + now apply Rdiv_lt_0_compat.
    + apply Rmult_le_reg_r with S0; [assumption |].
      unfold Rdiv. rewrite Rmult_assoc, Rinv_l by lra. lra.
  - intros e1 e2 He1 He2 Hd.
    apply in_map_iff in He1 as (a & <- & Ha).
    apply in_map_iff in He2 as (b & <- & Hb). cbn [Direct.w Direct.dx Direct.dy] in *.
    apply rawEntries_In in Ha as (_ & _ & _ & ->).
    apply rawEntries_In in Hb as (_ & _ & _ & ->).
    now rewrite Hd.
Qed.

Lemma sparse_kernel_is_disc_witness :
  exists w, In (Direct.mkEntry 0 0 w) (fst (Direct.buildKernel Direct.radius)).
Proof.
  destruct (sparse_kernel_is_disc 0.15 Direct.radius
              ltac:(unfold Direct.radius; lra)) as (Hdisc & _).
  apply Hdisc. rewrite hypot_0_0. unfold Direct.radius. lra.
Defined.

(** ** The activity as a weighted average *)

Lemma weighted_sum_bounds {T : Type} (wt val : T -> R) (lo hi : R)
    (l : list T) :
  (forall k, In k l -> 0 <= wt k) ->
  (forall k, In k l -> lo <= val k <= hi) ->
  lo * fold_right Rplus 0 (map wt l)
  <= fold_right Rplus 0 (map (fun k => wt k * val k) l)
  <= hi * fold_right Rplus 0 (map wt l).
Proof.
  induction l as [| k l IH]; intros Hw Hv; cbn; [lra |].
  assert (0 <= wt k) by (apply Hw; now left).
  assert (lo <= val k <= hi) by (apply Hv; now left).
  destruct IH as [IHlo IHhi];
    [intros; apply Hw; now right | intros; apply Hv; now right |].
  split; nra.
Qed.

(** X3.  With the kernel [buildKernel] returns for a radius [R' > 0], the
    activity of a cell is a weighted average of Field cells: it lies between
    any two bounds that hold for every cell of the Field.  In particular the
    activity of a constant Field is that constant, and the activity of a
    Field in [[0,1]] lies in [[0,1]]. *)
Theorem activity_is_average (gridW gridH : nat) (shellSigma R' lo hi : R)
    (g : Direct.Game) (y x : Z) :
  0 < R' -> (0 < gridW)%nat -> (0 < gridH)%nat ->
  Direct.kernel g = fst (Direct.buildKernelWith shellSigma R') ->
  wellFormed gridW gridH (Direct.A g) ->
  Forall (Forall (fun v => lo <= v <= hi)) (Direct.A g) ->
  lo <= Direct.activity gridW gridH g y x <= hi.
Proof.
  intros HR HW HH Hk Hwf Hcells.
  rewrite direct_activity_sum by assumption. unfold toroidalSum.
  pose proof (direct_kernel_normalised shellSigma R' HR) as Hsum.
  rewrite weightSum_fold, <- Hk in Hsum.
  pose proof (weighted_sum_bounds Direct.w
                (fun k => get (Direct.A g)
                            ((y + Direct.dy k) mod Z.of_nat gridH)
                            ((x + Direct.dx k) mod Z.of_nat gridW))
                lo hi (Direct.kernel g)) as Hb.
  rewrite Hsum, !Rmult_1_r in Hb. apply Hb.
  - intros k Hin. rewrite Hk in Hin.
    apply in_map_iff in Hin as (e & <- & He). cbn [Direct.w].
    pose proof (rawEntries_weight_pos _ _ _ He).
    pose proof (rawEntries_sum_pos shellSigma R' HR).
    left. now apply Rdiv_lt_0_compat.
  - intros k _.
    apply (get_in_cells (fun v => lo <= v <= hi) gridW gridH);
      try assumption; apply Z.mod_pos_bound; lia.
Qed.

Lemma activity_is_average_witness :
  0 <= Direct.activity Direct.Const.gridW Direct.Const.gridH sampleDirect 0 0
  <= 1.
Proof.
  apply (activity_is_average Direct.Const.gridW Direct.Const.gridH
           0.15 Direct.radius 0 1 sampleDirect 0 0).
  - unfold Direct.radius. lra.
  - unfold Direct.Const.gridW. lia.
  - unfold Direct.Const.gridH. lia.
  - reflexivity.
  - apply direct_NewGame_wellFormed.
  - apply direct_NewGame_inUnit. intros n. unfold clockDraws. cbn. lra.
Defined.

(** ** The empty Field *)

Lemma growth_at_zero_nonpos (mu sigma : R) :
  0 < sigma -> 2 * sigma * sigma * ln 2 <= mu * mu ->
  Direct.growth 0 mu sigma <= 0.
Proof.
  intros Hs Hmu. rewrite direct_growth_pos_sigma by assumption.
  assert (Hd : 0 < 2 * sigma * sigma) by nra.
  assert (He : - ((0 - mu) * (0 - mu)) / (2 * sigma * sigma) <= - ln 2).
  { apply Rmult_le_reg_r with (2 * sigma * sigma); [assumption |].
    unfold Rdiv. rewrite Rmult_assoc, Rinv_l by lra. lra. }
  assert (Hexp : exp (- ((0 - mu) * (0 - mu)) / (2 * sigma * sigma))
                 <= exp (- ln 2)).
  { destruct He as [He | ->]; [left; now apply exp_increasing | lra]. }
  rewrite exp_Ropp, exp_ln in Hexp by lra. lra.
Qed.

Lemma direct_activity_zeros (gridW gridH : nat) (g : Direct.Game) (y x : Z) :
  Direct.A g = zeros gridW gridH -> Direct.activity gridW gridH g y x = 0.
Proof.
  intros HA. unfold Direct.activity. cbv zeta. rewrite HA.
  rewrite (fold_left_sum (fun k => Direct.w k * get (zeros gridW gridH)
             (Direct.wrap (y + Direct.dy k) (Z.of_nat gridH))
             (Direct.wrap (x + Direct.dx k) (Z.of_nat gridW)))).
  rewrite Rplus_0_l. apply sum_all_zero. apply Forall_forall.
  intros v Hv. apply in_map_iff in Hv as (k & <- & _).
  rewrite get_zeros. ring.
Qed.

(** X4.  The empty Field is a fixed point of the direct engine whenever the
    growth rate at activity 0 is not positive, that is when
    [mu^2 >= 2*sigma^2*ln 2] (and [dt >= 0]): for every kernel, a Field that
    is 0 everywhere is still 0 everywhere after any number of ticks. *)
Theorem empty_field_stays_empty (gridW gridH n : nat) (g : Direct.Game) :
  Direct.A g = zeros gridW gridH ->
  0 <= Direct.dt g -> 0 < Direct.sigma g ->
  2 * Direct.sigma g * Direct.sigma g * ln 2 <= Direct.mu g * Direct.mu g ->
  Direct.A (Direct.run gridW gridH n g) = zeros gridW gridH.
Proof.
  revert g. induction n as [| n IH]; intros g HA Hdt Hs Hmu;
    cbn [Direct.run]; [assumption |].
  apply IH; try assumption.
  unfold Direct.step. cbn [Direct.A]. rewrite <- tabulate_zeros.
  apply tabulate_ext. intros y x _ _. cbv zeta.
  rewrite direct_activity_zeros by assumption. rewrite HA, get_zeros.
  pose proof (growth_at_zero_nonpos _ _ Hs Hmu) as Hg.
  unfold Direct.clamp.
  destruct (Rlt_dec _ 0); [reflexivity |].
  destruct (Rgt_dec _ 1); nra.
Qed.

Lemma ln_2_below_1 : ln 2 < 1.
Proof.
  pose proof (exp_ineq1 1 ltac:(lra)) as He.
  rewrite <- (ln_exp 1). apply ln_increasing; lra.
Qed.

Lemma empty_field_stays_empty_witness :
  Direct.A (Direct.run Direct.Const.gridW Direct.Const.gridH 1000
              (directEngine Direct.Const.gridW Direct.Const.gridH
                 Direct.radius
                 (zeros Direct.Const.gridW Direct.Const.gridH)))
  = zeros Direct.Const.gridW Direct.Const.gridH.
Proof.
  apply empty_field_stays_empty.
  - reflexivity.
  - cbn. unfold Direct.dtDefault. lra.
  - cbn. unfold Direct.sigDefault. lra.
  - cbn. unfold Direct.sigDefault, Direct.muDefault.
    pose proof ln_2_below_1. nra.
Defined.

(** ** [flatten] and [reshape] *)

Lemma flatten_length (W H : nat) (F : Field) :
  wellFormed W H F -> length (Transform.flatten F) = (H * W)%nat.
Proof.
  intros [Hlen Hrows]. unfold Transform.flatten.
  destruct F as [| r F].
  - cbn in *. now subst H.
  - assert (Hr : length r = W)
      by (rewrite Forall_forall in Hrows; apply Hrows; now left).
    cbn [hd]. rewrite Hr. subst H.
    generalize (r :: F). intros l. induction l as [| a l IH]; cbn; [reflexivity |].
    rewrite length_app, length_map, length_seq, IH. reflexivity.
Qed.

(** X5.  [reshape] undoes [flatten]: for every Field of the grid's dimensions,
    flattening it row by row into complex numbers and reshaping the result
    gives the Field back; the flat array has one entry per cell, with zero
    imaginary part, cell [(x, y)] at index [y*gridW + x]. *)
Theorem reshape_flatten (gridW gridH : nat) (F : Field) :
  wellFormed gridW gridH F ->
  Transform.reshape gridW gridH (Transform.flatten F) = F /\
  length (Transform.flatten F) = (gridH * gridW)%nat /\
  (forall y x : nat,
      (y < gridH)%nat -> (x < gridW)%nat ->
      nth (y * gridW + x) (Transform.flatten F) (0, 0)
      = (get F (Z.of_nat y) (Z.of_nat x), 0)).
Proof.
  intros HF.
  assert (Hcell : forall y x : nat,
             (y < gridH)%nat -> (x < gridW)%nat ->
             nth (y * gridW + x) (Transform.flatten F) (0, 0)
             = (get F (Z.of_nat y) (Z.of_nat x), 0)).
  { intros y x Hy Hx.
    rewrite (nth_flatten gridW gridH) by (try assumption; nia).
    rewrite Nat.div_add_l, Nat.div_small, Nat.add_0_r by lia.
    rewrite Nat.add_comm, Nat.Div0.mod_add, Nat.mod_small by lia.
    reflexivity. }
  split; [| split; [now apply flatten_length | exact Hcell]].
  apply (field_ext gridW gridH); [apply tabulate_wellFormed | assumption |].
  intros y x Hy Hx. unfold Transform.reshape.
  rewrite get_tabulate by assumption.
  rewrite Hcell by lia. unfold Transform.real. cbn [fst].
  now rewrite !Z2Nat.id by lia.
Qed.

Lemma reshape_flatten_witness :
  Transform.reshape Transform.Const.gridW Transform.Const.gridH
    (Transform.flatten (Transform.A sampleTransform))
  = Transform.A sampleTransform.
Proof.
  apply (reshape_flatten Transform.Const.gridW Transform.Const.gridH).
  apply transform_NewGame_wellFormed.
Defined.

(** ** The Lorenz driver as a map *)

Lemma lorenz_step_mirror (l : Transform.Lorenz) :
  Transform.Lorenz_Step (mirror l) = mirror (Transform.Lorenz_Step l).
Proof.
  unfold Transform.Lorenz_Step, mirror. cbn. f_equal; ring.
Qed.

(** X6.  [Step] commutes with the mirror symmetry [(x, y, z) -> (-x, -y, z)] of
    the Lorenz equations, over any number of steps; on the z axis
    ([x = y = 0]) it stays on the axis and scales [z] by [1 - b*dt]; and for
    a non-zero step size and coefficient [sigma] its fixed points are exactly
    the equilibria of the equations: [x = y], [x*(rho - 1 - z) = 0],
    [x^2 = b*z]. *)
Theorem lorenz_step_structure (n : nat) (l : Transform.Lorenz) :
  iterLorenz n (mirror l) = mirror (iterLorenz n l) /\
  (Transform.x l = 0 -> Transform.y l = 0 ->
   Transform.x (Transform.Lorenz_Step l) = 0 /\
   Transform.y (Transform.Lorenz_Step l) = 0 /\
   Transform.z (Transform.Lorenz_Step l)
   = Transform.z l * (1 - Transform.b l * Transform.dt l)) /\
  (Transform.dt l <> 0 -> Transform.sigma l <> 0 ->
   (Transform.Lorenz_Step l = l <->
    Transform.x l = Transform.y l /\
    Transform.x l * (Transform.rho l - 1 - Transform.z l) = 0 /\
    Transform.x l * Transform.x l = Transform.b l * Transform.z l)).
Proof.
  split; [| split].
  - revert l. induction n as [| n IH]; intros l; cbn [iterLorenz];
      [reflexivity |].
    now rewrite lorenz_step_mirror, IH.
  - intros Hx Hy. unfold Transform.Lorenz_Step. cbn. rewrite Hx, Hy.
    repeat split; ring.
  - intros Hdt Hs. destruct l as [x y z s r b dt]. cbn in *.
    unfold Transform.Lorenz_Step. cbn. split.
    + intros Heq. injection Heq as Hx Hy Hz.
      assert (Hd1 : s * (y - x) * dt = 0) by lra.
      assert (Hd2 : (x * (r - z) - y) * dt = 0) by lra.
      assert (Hd3 : (x * y - b * z) * dt = 0) by lra.
      apply Rmult_integral in Hd1 as [Hd1 | ?]; [| contradiction].
      apply Rmult_integral in Hd1 as [? | Hd1]; [contradiction |].
      apply Rmult_integral in Hd2 as [Hd2 | ?]; [| contradiction].
      apply Rmult_integral in Hd3 as [Hd3 | ?]; [| contradiction].
      assert (x = y) by lra. subst y. repeat split; lra.
    + intros (Hxy & Hrho & Hz). subst y. f_equal; nra.
Qed.

Lemma lorenz_step_structure_witness :
  Transform.Lorenz_Step
    (Transform.mkLorenz 0 0 0 10 28 (8 / 3) 0.01)
  = Transform.mkLorenz 0 0 0 10 28 (8 / 3) 0.01.
Proof.
  destruct (lorenz_step_structure 0
              (Transform.mkLorenz 0 0 0 10 28 (8 / 3) 0.01))
    as (_ & _ & Hfix).
  apply Hfix; cbn; repeat split; lra.
Defined.

(** ** How far a tick moves the growth parameters *)

Lemma tanh_bounds (t : R) : -1 < tanh t < 1.
Proof.
  unfold tanh, sinh, cosh.
  pose proof (exp_pos t) as Hp. pose proof (exp_pos (- t)) as Hn.
  assert (Hc : 0 < (exp t + exp (- t)) / 2) by lra.
  split.
  - apply Rmult_lt_reg_r with ((exp t + exp (- t)) / 2); [assumption |].
    unfold Rdiv at 2. rewrite Rmult_assoc, Rinv_l by lra. lra.
  - apply Rmult_lt_reg_r with ((exp t + exp (- t)) / 2); [assumption |].
    unfold Rdiv at 1. rewrite Rmult_assoc, Rinv_l by lra. lra.
Qed.

(** Clamping never moves a value away from a point of the range. *)
Lemma clamp_nonexpansive (v v0 lo hi : R) :
  lo <= v0 <= hi -> Rabs (Transform.clamp v lo hi - v0) <= Rabs (v - v0).
Proof.
  intros Hv0. unfold Transform.clamp.
  destruct (Rlt_dec v lo); [| destruct (Rgt_dec v hi)];
    unfold Rabs; repeat destruct (Rcase_abs _); lra.
Qed.

Lemma transform_run_Dt (gridW gridH n : nat) :
  forall g, Transform.Dt (Transform.genome (Transform.run gridW gridH n g))
            = Transform.Dt (Transform.genome g).
Proof.
  induction n as [| n IH]; intros g; cbn [Transform.run]; [reflexivity |].
  now rewrite IH.
Qed.

(** X7.  Starting from parameters inside their range, one tick moves [Mu] by
    less than 0.002 and [Sigma] by at most the fraction [0.001*|y|] of its
    value ([y] the driver's coordinate after its step); the colour bias it
    publishes lies strictly between -1 and 1; and no number of ticks ever
    changes the integration step [Dt]. *)
Theorem modulation_is_gentle (gridW gridH n : nat) (g : Transform.Game) :
  genomeSafe (Transform.genome g) ->
  Rabs (Transform.Mu (Transform.genome (Transform.step gridW gridH g))
        - Transform.Mu (Transform.genome g)) < 0.002 /\
  Rabs (Transform.Sigma (Transform.genome (Transform.step gridW gridH g))
        - Transform.Sigma (Transform.genome g))
  <= 0.001
     * Rabs (Transform.y (Transform.lorenz (Transform.step gridW gridH g)))
     * Transform.Sigma (Transform.genome g) /\
  -1 < Transform.ColorBias (Transform.genome (Transform.step gridW gridH g))
     < 1 /\
  Transform.Dt (Transform.genome (Transform.run gridW gridH n g))
  = Transform.Dt (Transform.genome g).
Proof.
  intros [HMu HSigma]. unfold Transform.step, Transform.modulate.
  cbn [Transform.genome Transform.lorenz Transform.Mu Transform.Sigma
       Transform.ColorBias].
  set (l := Transform.Lorenz_Step (Transform.lorenz g)).
  split; [| split; [| split]].
  - pose proof (tanh_bounds (Transform.x l / 20)) as Ht.
    eapply Rle_lt_trans; [apply clamp_nonexpansive; lra |].
    unfold Rabs. destruct (Rcase_abs _); lra.
  - eapply Rle_trans; [apply clamp_nonexpansive; lra |].
    replace (Transform.Sigma (Transform.genome g) * (1 + 0.001 * Transform.y l)
             - Transform.Sigma (Transform.genome g))
      with (0.001 * Transform.y l * Transform.Sigma (Transform.genome g))
      by ring.
    rewrite !Rabs_mult.
    rewrite (Rabs_pos_eq 0.001) by lra.
    rewrite (Rabs_pos_eq (Transform.Sigma (Transform.genome g))) by lra.
    lra.
  - apply tanh_bounds.
  - apply transform_run_Dt.
Qed.

Lemma modulation_is_gentle_witness :
  Transform.Dt
    (Transform.genome
       (Transform.run Transform.Const.gridW Transform.Const.gridH 1000
          sampleTransform))
  = Transform.Dt (Transform.genome sampleTransform).
Proof.
  refine (proj2 (proj2 (proj2
            (modulation_is_gentle Transform.Const.gridW Transform.Const.gridH
               1000 sampleTransform _)))).
  unfold sampleTransform, Transform.NewGame, genomeSafe. cbv zeta.
  cbn [Transform.genome Transform.Mu Transform.Sigma]. lra.
Defined.

(** ** Bytes *)

Lemma floor_spec (r : R) : IZR (floor r) <= r < IZR (floor r) + 1.
Proof.
  unfold floor. destruct (archimed r) as [Hlo Hhi]. rewrite minus_IZR. lra.
Qed.

Lemma floor_between (lo hi : Z) (r : R) :
  IZR lo <= r <= IZR hi -> (lo <= floor r <= hi)%Z.
Proof.
  intros [Hlo Hhi]. destruct (floor_spec r) as [Hf Hf'].
  split.
  - assert (H : IZR lo < IZR (floor r) + 1) by lra.
    rewrite <- plus_IZR in H. apply lt_IZR in H. lia.
  - apply le_IZR. lra.
Qed.

Lemma floor_IZR (n : Z) : floor (IZR n) = n.
Proof.
  pose proof (floor_between n n (IZR n) ltac:(lra)). lia.
Qed.

Lemma floor_monotone (r s : R) : r <= s -> (floor r <= floor s)%Z.
Proof.
  intros Hrs. destruct (floor_spec r) as [Hr _]. destruct (floor_spec s) as [_ Hs].
  assert (H : IZR (floor r) < IZR (floor s) + 1) by lra.
  rewrite <- plus_IZR in H. apply lt_IZR in H. lia.
Qed.

(** Inside the byte range [uint8] is the floor. *)
Lemma uint8_floor (r : R) : 0 <= r <= 255 -> uint8 r = floor r.
Proof.
  intros Hr. unfold uint8, trunc. destruct (Rle_dec 0 r); [| lra].
  pose proof (floor_between 0 255 r Hr). apply Z.mod_small. lia.
Qed.

Lemma uint8_between (lo hi : Z) (r : R) :
  (0 <= lo)%Z -> (hi <= 255)%Z -> IZR lo <= r <= IZR hi ->
  (lo <= uint8 r <= hi)%Z.
Proof.
  intros Hlo Hhi Hr.
  assert (H0 : IZR 0 <= IZR lo) by (apply IZR_le; assumption).
  assert (H255 : IZR hi <= IZR 255) by (apply IZR_le; assumption).
  rewrite uint8_floor by lra. now apply floor_between.
Qed.

(** ** The colour ramp *)

(** X8.  For every input [colorRamp] converts values inside the byte range only
    (red in 20..250, green in 50..200, blue in 100..250), so no conversion
    wraps; inputs below 0 give the colour of 0, (20, 50, 200), inputs above
    1 the colour of 1, (250, 120, 250); and red never decreases when the
    cell value grows. *)
Theorem colorRamp_contract (v v' : R) :
  (20 <= fst (fst (Render.colorRamp v)) <= 250)%Z /\
  (50 <= snd (fst (Render.colorRamp v)) <= 200)%Z /\
  (100 <= snd (Render.colorRamp v) <= 250)%Z /\
  (v <= 0 -> Render.colorRamp v = (20, 50, 200)%Z) /\
  (1 <= v -> Render.colorRamp v = (250, 120, 250)%Z) /\
  (v <= v' ->
   (fst (fst (Render.colorRamp v)) <= fst (fst (Render.colorRamp v')))%Z).
Proof.
  assert (Hrange : forall u,
             let c := Direct.clamp u 0 1 in 0 <= c <= 1)
    by (intros u; apply direct_clamp_bounds; lra).
  assert (Hred : forall u,
             fst (fst (Render.colorRamp u))
             = floor (if Rlt_dec (Direct.clamp u 0 1) 0.5
                      then 20 + 50 * (Direct.clamp u 0 1 / 0.5)
                      else 70 + 180 * ((Direct.clamp u 0 1 - 0.5) / 0.5))).
  { intros u. unfold Render.colorRamp. cbv zeta. specialize (Hrange u).
    cbv zeta in Hrange.
    destruct (Rlt_dec _ 0.5); cbn [fst]; apply uint8_floor; lra. }
  split; [| split; [| split; [| split; [| split]]]].
  - unfold Render.colorRamp. cbv zeta. specialize (Hrange v). cbv zeta in Hrange.
    destruct (Rlt_dec _ 0.5); cbn [fst];
      apply uint8_between; try lia; lra.
  - unfold Render.colorRamp. cbv zeta. specialize (Hrange v). cbv zeta in Hrange.
    destruct (Rlt_dec _ 0.5); cbn [fst snd];
      apply uint8_between; try lia; lra.
  - unfold Render.colorRamp. cbv zeta. specialize (Hrange v). cbv zeta in Hrange.
    destruct (Rlt_dec _ 0.5); cbn [snd];
      apply uint8_between; try lia; lra.
  - intros Hv. unfold Render.colorRamp. cbv zeta.
    assert (Hc : Direct.clamp v 0 1 = 0).
    { unfold Direct.clamp. destruct (Rlt_dec v 0); [reflexivity |].
      destruct (Rgt_dec v 1); lra. }
    rewrite Hc. destruct (Rlt_dec 0 0.5); [| lra].
    replace (20 + 50 * (0 / 0.5)) with (IZR 20) by lra.
    replace (50 + 150 * (0 / 0.5)) with (IZR 50) by lra.
    replace (200 - 100 * (0 / 0.5)) with (IZR 200) by lra.
    rewrite !uint8_floor, !floor_IZR by lra. reflexivity.
  - intros Hv. unfold Render.colorRamp. cbv zeta.
    assert (Hc : Direct.clamp v 0 1 = 1).
    { unfold Direct.clamp. destruct (Rlt_dec v 0); [lra |].
      destruct (Rgt_dec v 1); lra. }
    rewrite Hc. destruct (Rlt_dec 1 0.5); [lra |].
    replace (70 + 180 * ((1 - 0.5) / 0.5)) with (IZR 250) by lra.
    replace (200 - 80 * ((1 - 0.5) / 0.5)) with (IZR 120) by lra.
    replace (100 + 150 * ((1 - 0.5) / 0.5)) with (IZR 250) by lra.
    rewrite !uint8_floor, !floor_IZR by lra. reflexivity.
  - intros Hvv. rewrite !Hred. apply floor_monotone.
    assert (Hmono : Direct.clamp v 0 1 <= Direct.clamp v' 0 1).
    { unfold Direct.clamp.
      destruct (Rlt_dec v 0); destruct (Rlt_dec v' 0);
        destruct (Rgt_dec v 1); destruct (Rgt_dec v' 1); lra. }
    pose proof (Hrange v) as Hcv. pose proof (Hrange v') as Hcv'.
    cbv zeta in Hcv, Hcv'.
    destruct (Rlt_dec (Direct.clamp v 0 1) 0.5);
      destruct (Rlt_dec (Direct.clamp v' 0 1) 0.5); lra.
Qed.

Lemma colorRamp_contract_witness :
  Render.colorRamp 3 = (250, 120, 250)%Z.
Proof.
  destruct (colorRamp_contract 3 3) as (_ & _ & _ & _ & Hone & _).
  apply Hone. lra.
Defined.

(** ** The camera *)

Lemma handleCamera_zoom_floor (i : Camera.Input) (c : Camera.Cam) :
  1 <= Camera.camZoom c -> 1 <= Camera.camZoom (Camera.handleCamera i c).
Proof.
  intros Hz. unfold Camera.handleCamera, Camera.keyStep, Camera.dragStep.
  cbv zeta. cbn [Camera.camZoom].
  assert (Hzoom : 1 <= Camera.camZoom (Camera.zoomStep i c)).
  { unfold Camera.zoomStep. destruct (Req_dec_T _ 0); [assumption |].
    cbv zeta. cbn [Camera.camZoom]. destruct (Rlt_dec _ 1); lra. }
  destruct (Camera.rightPressed i); [destruct (negb _) |]; cbn [Camera.camZoom];
    exact Hzoom.
Qed.

(** X9.  The zoom factor never falls below 1: a camera whose zoom is at least 1
    (as the initial zoom 4 is) keeps a zoom of at least 1 through every
    sequence of frames, whatever the wheel, the mouse and the keys do; and a
    frame with a wheel movement leaves a zoom of at least 1 whatever the
    zoom was. *)
Theorem camera_zoom_at_least_one (inputs : list Camera.Input)
    (i : Camera.Input) (c : Camera.Cam) :
  (1 <= Camera.camZoom c ->
   1 <= Camera.camZoom (Camera.frames inputs c)) /\
  1 <= Camera.camZoom (Camera.frames inputs Camera.initial) /\
  (Camera.scrollY i <> 0 -> 1 <= Camera.camZoom (Camera.handleCamera i c)).
Proof.
  assert (Hframes : forall c0, 1 <= Camera.camZoom c0 ->
                               1 <= Camera.camZoom (Camera.frames inputs c0)).
  { induction inputs as [| j rest IH]; intros c0 Hc0; cbn [Camera.frames];
      [assumption |].
    apply IH, handleCamera_zoom_floor, Hc0. }
  split; [apply Hframes | split].
  - apply Hframes. cbn. lra.
  - intros Hs. unfold Camera.handleCamera, Camera.keyStep, Camera.dragStep.
    cbv zeta. cbn [Camera.camZoom].
    assert (Hzoom : 1 <= Camera.camZoom (Camera.zoomStep i c)).
    { unfold Camera.zoomStep. destruct (Req_dec_T _ 0); [contradiction |].
      cbv zeta. cbn [Camera.camZoom]. destruct (Rlt_dec _ 1); lra. }
    destruct (Camera.rightPressed i); [destruct (negb _) |];
      cbn [Camera.camZoom]; exact Hzoom.
Qed.

Lemma camera_zoom_at_least_one_witness :
  1 <= Camera.camZoom
         (Camera.handleCamera
            (Camera.mkInput (-100) 400 300 false false false false false)
            Camera.initial).
Proof.
  refine (proj2 (proj2 (camera_zoom_at_least_one []
                          (Camera.mkInput (-100) 400 300
                                          false false false false false)
                          Camera.initial)) _).
  cbn. lra.
Defined.



(** ** Lenia2: kernel, seeding, update and drawing *)

(** X11.  The kernel of Lenia2 is a Gaussian cut off at distance 7: it is 1 at
    the centre, lies in [[0,1]] everywhere, vanishes exactly on the offsets
    with [dx^2 + dy^2 > 49] (the corners of the 15 x 15 square the update
    loops over contribute nothing), and is unchanged by reflecting an offset
    or exchanging its coordinates. *)
Theorem lenia2_kernel_contract (dx dy : Z) :
  Lenia2.kernel 0 0 = 1 /\
  0 <= Lenia2.kernel dx dy <= 1 /\
  (Lenia2.kernel dx dy = 0 <-> (49 < dx * dx + dy * dy)%Z) /\
  Lenia2.kernel (- dx) dy = Lenia2.kernel dx dy /\
  Lenia2.kernel dx (- dy) = Lenia2.kernel dx dy /\
  Lenia2.kernel dy dx = Lenia2.kernel dx dy.
Proof.
  assert (Hcut : forall n : Z,
             (0 <= n)%Z -> (sqrt (IZR n) > Lenia2.R0 <-> (49 < n)%Z)).
  { intros n Hn. unfold Lenia2.R0.
    replace 7.0 with (sqrt (7 * 7)) by (rewrite sqrt_square; lra).
    assert (H0 : 0 <= IZR n) by (apply IZR_le in Hn; exact Hn).
    split.
    - intros Hgt. apply sqrt_lt_0_alt in Hgt.
      apply lt_IZR. replace (IZR 49) with (7 * 7) by lra. exact Hgt.
    - intros Hlt. apply IZR_lt in Hlt.
      apply sqrt_lt_1; lra. }
  assert (Hsq : (0 <= dx * dx + dy * dy)%Z) by nia.
  split; [| split; [| split; [| split; [| split]]]].
  - unfold Lenia2.kernel, float64. cbn [Z.mul Z.add]. rewrite sqrt_0.
    destruct (Rgt_dec 0 Lenia2.R0) as [Hgt | _];
      [unfold Lenia2.R0 in Hgt; lra |].
    replace (- 0 * 0 / (2 * Lenia2.sigmaK * Lenia2.sigmaK)) with 0
      by (unfold Rdiv; ring).
    apply exp_0.
  - unfold Lenia2.kernel, float64. cbv zeta.
    destruct (Rgt_dec _ Lenia2.R0); [lra |].
    set (r := sqrt _). split; [left; apply exp_pos |].
    apply exp_le_1.
    pose proof (Rle_0_sqr r) as Hr. unfold Rsqr in Hr.
    assert (Hd : 0 < / (2 * Lenia2.sigmaK * Lenia2.sigmaK))
      by (apply Rinv_0_lt_compat; unfold Lenia2.sigmaK; lra).
    unfold Rdiv. nra.
  - unfold Lenia2.kernel, float64. cbv zeta.
    destruct (Rgt_dec _ Lenia2.R0) as [Hgt | Hle].
    + split; [intros _; now apply Hcut | intros _; lra].
    + split.
      * intros H0. pose proof (exp_pos (- sqrt (IZR (dx * dx + dy * dy))
                                        * sqrt (IZR (dx * dx + dy * dy))
                                        / (2 * Lenia2.sigmaK * Lenia2.sigmaK))).
        lra.
      * intros Hbig. exfalso. apply Hle. now apply Hcut.
  - unfold Lenia2.kernel. now replace (- dx * - dx + dy * dy)%Z
      with (dx * dx + dy * dy)%Z by ring.
  - unfold Lenia2.kernel. now replace (dx * dx + - dy * - dy)%Z
      with (dx * dx + dy * dy)%Z by ring.
  - unfold Lenia2.kernel. now replace (dy * dy + dx * dx)%Z
      with (dx * dx + dy * dy)%Z by ring.
Qed.


Lemma lenia2_updates_spec (width height n : nat) :
  forall field,
    inUnit field -> wellFormed width height field ->
    inUnit (Lenia2View.updates width height n field) /\
    wellFormed width height (Lenia2View.updates width height n field).
Proof.
  induction n as [| n IH]; intros field Hu Hw; cbn [Lenia2View.updates];
    [now split |].
  apply IH; [apply lenia2_update_inUnit | apply tabulate_wellFormed].
Qed.

(** X12.  Whatever the Field was (of any size, with any values), one
    [updateField] leaves a Field of the grid's dimensions with every cell
    in [[0,1]], and so does every further update. *)
Theorem lenia2_update_invariant (width height n : nat) (field : Field) :
  inUnit (Lenia2View.updates width height (S n) field) /\
  wellFormed width height (Lenia2View.updates width height (S n) field).
Proof.
  cbn [Lenia2View.updates].
  apply lenia2_updates_spec;
    [apply lenia2_update_inUnit | apply tabulate_wellFormed].
Qed.

(** X13.  [initializeBlob] with a non-zero radius and an amplitude
    [initialVal >= 0] writes a Field of the grid's dimensions with every
    cell in [[0,1]]; no cell exceeds the smaller of the amplitude and 1,
    and the centre cell, when it is on the grid, holds exactly that
    value. *)
Theorem initializeBlob_contract (width height : nat) (cx cy : Z)
    (radius initialVal : R) (j i : Z) :
  radius <> 0 -> 0 <= initialVal ->
  (0 <= j < Z.of_nat height)%Z -> (0 <= i < Z.of_nat width)%Z ->
  wellFormed width height
    (Lenia2View.initializeBlob width height cx cy radius initialVal) /\
  inUnit (Lenia2View.initializeBlob width height cx cy radius initialVal) /\
  get (Lenia2View.initializeBlob width height cx cy radius initialVal) j i
  <= Rmin initialVal 1 /\
  ((0 <= cy < Z.of_nat height)%Z -> (0 <= cx < Z.of_nat width)%Z ->
   get (Lenia2View.initializeBlob width height cx cy radius initialVal) cy cx
   = Rmin initialVal 1).
Proof.
  intros Hrad Hamp Hj Hi.
  assert (Hs : 0 < 2 * (radius / 3.0) * (radius / 3.0)).
  { assert (Hr2 : 0 < radius * radius)
      by (destruct (Rtotal_order radius 0) as [? | [? | ?]]; nra).
    unfold Rdiv. nra. }
  assert (Hexp : forall r, 0 < exp (- r * r / (2 * (radius / 3.0) * (radius / 3.0)))
                           <= 1).
  { intros r. split; [apply exp_pos |]. apply exp_le_1.
    pose proof (Rle_0_sqr r) as Hr. unfold Rsqr in Hr.
    apply Rinv_0_lt_compat in Hs. unfold Rdiv at 1. nra. }
  split; [apply tabulate_wellFormed | split; [| split]].
  - unfold Lenia2View.initializeBlob. cbv zeta. apply tabulate_Forall.
    intros y x _ _. set (r := sqrt _). destruct (Hexp r) as [Hp Hle].
    destruct (Rgt_dec _ 1.0); [lra | nra].
  - unfold Lenia2View.initializeBlob. cbv zeta.
    rewrite get_tabulate by assumption. set (r := sqrt _).
    destruct (Hexp r) as [Hp Hle]. unfold Rmin.
    destruct (Rgt_dec _ 1.0); destruct (Rle_dec initialVal 1); nra.
  - intros Hcy Hcx. unfold Lenia2View.initializeBlob. cbv zeta.
    rewrite get_tabulate by assumption. unfold float64.
    rewrite !Z.sub_diag. replace (0 * 0 + 0 * 0) with 0 by ring.
    rewrite sqrt_0.
    replace (- 0 * 0 / (2 * (radius / 3.0) * (radius / 3.0))) with 0
      by (unfold Rdiv; ring).
    rewrite exp_0, Rmult_1_r. unfold Rmin.
    destruct (Rgt_dec initialVal 1.0); destruct (Rle_dec initialVal 1); lra.
Qed.

Lemma initializeBlob_contract_witness :
  get (Lenia2View.initializeBlob Lenia2.Const.width Lenia2.Const.height
         128 128 12.0 1.0) 128 128
  = Rmin 1.0 1.
Proof.
  refine (proj2 (proj2 (proj2
            (initializeBlob_contract Lenia2.Const.width Lenia2.Const.height
               128 128 12.0 1.0 0 0 _ _ _ _))) _ _);
    try lra; unfold Lenia2.Const.width, Lenia2.Const.height; lia.
Defined.

Lemma flat_map_length_uniform {T U : Type} (g : T -> list U) (w : nat)
    (l : list T) :
  (forall r, length (g r) = w) -> length (flat_map g l) = (length l * w)%nat.
Proof.
  intros Hg. induction l as [| a l IH]; cbn; [reflexivity |].
  now rewrite length_app, Hg, IH.
Qed.

Lemma pixel_length (v : R) : length (Lenia2View.pixel v) = 3%nat.
Proof. reflexivity. Qed.

Lemma pixel_bytes (v : R) :
  Forall (fun b => (0 <= b <= 255)%Z) (Lenia2View.pixel v).
Proof.
  unfold Lenia2View.pixel. cbv zeta. pose proof (sqrt_pos v) as Hs.
  assert (Hmin : forall t, 0 <= t -> IZR 0 <= 255 * Rmin 1.0 t <= IZR 255)
    by (intros t Ht; unfold Rmin; destruct (Rle_dec _ _); lra).
  assert (Hmax : forall t, t <= 1 -> IZR 0 <= 255 * Rmax 0.0 t <= IZR 255)
    by (intros t Ht; unfold Rmax; destruct (Rle_dec _ _); lra).
  apply Forall_cons; [| apply Forall_cons; [| apply Forall_cons;
                                                [| apply Forall_nil]]].
  - apply uint8_between; [lia | lia | apply Hmin; lra].
  - apply uint8_between; [lia | lia | apply Hmin; lra].
  - apply uint8_between; [lia | lia | apply Hmax; lra].
Qed.

Lemma drawField_layout (width height : nat) (field : Field)
    (j i c : nat) :
  (j < height)%nat -> (i < width)%nat -> (c < 3)%nat ->
  nth ((j * width + i) * 3 + c) (Lenia2View.drawField width height field) 0%Z
  = nth c (Lenia2View.pixel (get field (Z.of_nat j) (Z.of_nat i))) 0%Z.
Proof.
  intros Hj Hi Hc.
  assert (Hrow : forall y,
             length (flat_map (fun x => Lenia2View.pixel (get field y x))
                              (upto width)) = (width * 3)%nat).
  { intros y.
    rewrite (flat_map_length_uniform _ 3) by (intros; apply pixel_length).
    now rewrite upto_length. }
  unfold Lenia2View.drawField.
  rewrite (nth_flat_map_uniform _ (width * 3) (upto height) 0%Z 0%Z)
    by (try exact Hrow; try lia; rewrite upto_length; nia).
  replace ((j * width + i) * 3 + c)%nat
    with ((i * 3 + c) + j * (width * 3))%nat by lia.
  rewrite Nat.div_add, Nat.Div0.mod_add by lia.
  rewrite Nat.div_small, Nat.mod_small by nia. cbn [Nat.add].
  rewrite upto_nth by assumption.
  rewrite (nth_flat_map_uniform _ 3 (upto width) 0%Z 0%Z)
    by (try (intros; apply pixel_length); try lia; rewrite upto_length; lia).
  replace (i * 3 + c)%nat with (c + i * 3)%nat by lia.
  rewrite Nat.div_add, Nat.Div0.mod_add by lia.
  rewrite Nat.div_small, Nat.mod_small by lia. cbn [Nat.add].
  now rewrite upto_nth by assumption.
Qed.

Lemma sqrt_unit (v : R) : 0 <= v <= 1 -> 0 <= sqrt v <= 1.
Proof.
  intros Hv. split; [apply sqrt_pos |].
  rewrite <- sqrt_1. apply sqrt_le_1; lra.
Qed.

(** X14.  [drawField] on a Field of the grid's dimensions with cells in [[0,1]]:
    the pixel array has [height*width*3] entries, every one a byte (no
    conversion wraps), and cell [(i, j)] owns the three entries from index
    [(j*width + i)*3]: red [255*min(1, 1.5*sqrt v)], green [255*sqrt v] and
    blue [255*(1 - sqrt v)], truncated (on such cells the [min] of the
    green channel and the [max] of the blue one never cut).  Red is
    saturated from [v = 4/9] on. *)
Theorem drawField_contract (width height : nat) (field : Field) (j i : nat) :
  wellFormed width height field -> inUnit field ->
  (j < height)%nat -> (i < width)%nat ->
  let v := get field (Z.of_nat j) (Z.of_nat i) in
  let pixels := Lenia2View.drawField width height field in
  let idx := ((j * width + i) * 3)%nat in
  length pixels = (height * width * 3)%nat /\
  Forall (fun b => (0 <= b <= 255)%Z) pixels /\
  nth (idx + 0) pixels 0%Z = floor (255 * Rmin 1 (1.5 * sqrt v)) /\
  nth (idx + 1) pixels 0%Z = floor (255 * sqrt v) /\
  nth (idx + 2) pixels 0%Z = floor (255 * (1 - sqrt v)) /\
  (4 / 9 <= v -> nth (idx + 0) pixels 0%Z = 255%Z).
Proof.
  intros Hwf Hunit Hj Hi v pixels idx.
  assert (Hv : 0 <= v <= 1)
    by (apply (get_in_cells (fun r => 0 <= r <= 1) width height field);
        try assumption; lia).
  pose proof (sqrt_unit v Hv) as Hs.
  assert (Hred : nth (idx + 0) pixels 0%Z
                 = floor (255 * Rmin 1 (1.5 * sqrt v))).
  { unfold idx, pixels. rewrite drawField_layout by (assumption || lia).
    fold v. unfold Lenia2View.pixel. cbv zeta. cbn [nth].
    replace (Rmin 1.0 (1.5 * sqrt v)) with (Rmin 1 (1.5 * sqrt v))
      by (f_equal; lra).
    apply uint8_floor. unfold Rmin. destruct (Rle_dec _ _); lra. }
  split; [| split; [| split; [| split; [| split]]]].
  - unfold pixels, Lenia2View.drawField.
    rewrite (flat_map_length_uniform _ (width * 3)).
    + rewrite upto_length. lia.
    + intros y.
      rewrite (flat_map_length_uniform _ 3) by (intros; apply pixel_length).
      now rewrite upto_length.
  - apply Forall_forall. intros b Hb.
    apply in_flat_map in Hb as (y & _ & Hb).
    apply in_flat_map in Hb as (x & _ & Hb).
    pose proof (pixel_bytes (get field y x)) as Hp.
    rewrite Forall_forall in Hp. now apply Hp.
  - exact Hred.
  - unfold idx, pixels. rewrite drawField_layout by (assumption || lia).
    fold v. unfold Lenia2View.pixel. cbv zeta. cbn [nth].
    replace (255 * Rmin 1.0 (1.0 * sqrt v)) with (255 * sqrt v)
      by (unfold Rmin; destruct (Rle_dec _ _); lra).
    apply uint8_floor. lra.
  - unfold idx, pixels. rewrite drawField_layout by (assumption || lia).
    fold v. unfold Lenia2View.pixel. cbv zeta. cbn [nth].
    replace (255 * Rmax 0.0 (1.0 - sqrt v)) with (255 * (1 - sqrt v))
      by (unfold Rmax; destruct (Rle_dec _ _); lra).
    apply uint8_floor. lra.
  - intros H49. rewrite Hred.
    assert (H23 : 2 / 3 <= sqrt v).
    { rewrite <- (sqrt_square (2 / 3)) by lra. apply sqrt_le_1; lra. }
    replace (255 * Rmin 1 (1.5 * sqrt v)) with (IZR 255)
      by (unfold Rmin; destruct (Rle_dec _ _); lra).
    apply floor_IZR.
Qed.

Lemma drawField_contract_witness :
  length (Lenia2View.drawField Lenia2.Const.width Lenia2.Const.height
            (zeros Lenia2.Const.width Lenia2.Const.height))
  = (Lenia2.Const.height * Lenia2.Const.width * 3)%nat.
Proof.
  refine (proj1 (drawField_contract Lenia2.Const.width Lenia2.Const.height
                   (zeros Lenia2.Const.width Lenia2.Const.height) 0 0
                   (zeros_wellFormed _ _) (zeros_inUnit _ _) _ _));
    unfold Lenia2.Const.width, Lenia2.Const.height; lia.
Defined.

(** ** The particle programs *)

Lemma fold_left_invariant {S T : Type} (P : S -> Prop) (f : S -> T -> S)
    (l : list T) (s : S) :
  (forall s' t, In t l -> P s' -> P (f s' t)) -> P s -> P (fold_left f l s).
Proof.
  revert s. induction l as [| t l IH]; intros s Hf Hs; [exact Hs |].
  cbn [fold_left]. apply IH.
  - intros s' t' Ht'. apply Hf. now right.
  - apply Hf; [now left | exact Hs].
Qed.

Lemma fold_left_fixed {S T : Type} (f : S -> T -> S) (l : list T) (s : S) :
  (forall t, In t l -> f s t = s) -> fold_left f l s = s.
Proof.
  induction l as [| t l IH]; intros Hf; [reflexivity |].
  cbn [fold_left]. rewrite (Hf t) by now left.
  apply IH. intros t' Ht'. apply Hf. now right.
Qed.

Lemma update_length {T : Type} (k : nat) (v : T) (s : list T) :
  length (update k v s) = length s.
Proof.
  revert k. induction s as [| h t IH]; intros [| k]; cbn; try reflexivity.
  now rewrite IH.
Qed.

Lemma nth_error_update_other {T : Type} (k j : nat) (v : T) (s : list T) :
  k <> j -> nth_error (update k v s) j = nth_error s j.
Proof.
  revert k j. induction s as [| h t IH]; intros [| k] [| j] Hkj; cbn;
    try reflexivity; try congruence.
  apply IH. congruence.
Qed.

Lemma nth_error_update_same {T : Type} (k : nat) (v : T) (s : list T) :
  (k < length s)%nat -> nth_error (update k v s) k = Some v.
Proof.
  revert k. induction s as [| h t IH]; intros [| k] Hk; cbn in *;
    try lia; try reflexivity.
  apply IH. lia.
Qed.

Lemma map_update {T U : Type} (f : T -> U) (k : nat) (v a : T) (s : list T) :
  nth_error s k = Some a -> f v = f a -> map f (update k v s) = map f s.
Proof.
  revert k. induction s as [| h t IH]; intros [| k] Hk Hf; cbn in *;
    try discriminate.
  - injection Hk as ->. now rewrite Hf.
  - f_equal. now apply IH.
Qed.

Lemma total_update {T : Type} (f : T -> R) (k : nat) (v a : T) (s : list T) :
  nth_error s k = Some a -> total f (update k v s) = total f s - f a + f v.
Proof.
  unfold total.
  revert k. induction s as [| h t IH]; intros [| k] Hk;
    cbn [update nth_error fold_right] in *; try discriminate.
  - injection Hk as ->. lra.
  - rewrite (IH k Hk). lra.
Qed.

Lemma Forall_through_map {T U : Type} (f : T -> U) (P : U -> Prop)
    (l l' : list T) :
  map f l' = map f l -> Forall (fun p => P (f p)) l ->
  Forall (fun p => P (f p)) l'.
Proof.
  intros Hmap Hl. apply (Forall_map f P). rewrite Hmap.
  now apply (Forall_map f P).
Qed.

(** *** The yeast-like simulation *)

Lemma yeast_accelerate_keeps (inter : Yeast.Interaction)
    (particles : list Yeast.Particle) (p : Yeast.Particle) :
  Yeast.x (Yeast.accelerate inter particles p) = Yeast.x p /\
  Yeast.y (Yeast.accelerate inter particles p) = Yeast.y p /\
  Yeast.col (Yeast.accelerate inter particles p) = Yeast.col p.
Proof.
  unfold Yeast.accelerate. destruct (negb _); [auto |].
  destruct (fold_left _ _ _) as [fx fy]. cbn. auto.
Qed.

Lemma yeast_interactions_keep (interactions : list Yeast.Interaction)
    (particles : list Yeast.Particle) :
  map Yeast.col (fold_left Yeast.interact interactions particles)
  = map Yeast.col particles /\
  map Yeast.x (fold_left Yeast.interact interactions particles)
  = map Yeast.x particles /\
  map Yeast.y (fold_left Yeast.interact interactions particles)
  = map Yeast.y particles.
Proof.
  apply (fold_left_invariant
           (fun ps => map Yeast.col ps = map Yeast.col particles /\
                      map Yeast.x ps = map Yeast.x particles /\
                      map Yeast.y ps = map Yeast.y particles));
    [| auto].
  intros ps inter _ (Hc & Hx & Hy). unfold Yeast.interact.
  rewrite <- Hc, <- Hx, <- Hy, !map_map.
  repeat split; apply map_ext; intros p;
    apply (yeast_accelerate_keeps inter ps p).
Qed.

Lemma yeast_move_in_window (width height : R) (p : Yeast.Particle) :
  0 <= width -> 0 <= height ->
  0 <= Yeast.x (Yeast.move width height p) <= width /\
  0 <= Yeast.y (Yeast.move width height p) <= height /\
  Yeast.col (Yeast.move width height p) = Yeast.col p.
Proof.
  intros Hw Hh. unfold Yeast.move. cbv zeta.
  destruct (Rlt_dec (Yeast.x p + Yeast.vx p) 0);
    destruct (Rlt_dec (Yeast.y p + Yeast.vy p) 0); cbv iota beta;
    destruct (Rgt_dec _ width); destruct (Rgt_dec _ height);
    cbn; repeat split; lra.
Qed.

Lemma yeast_applyRules_spec (width height : R)
    (interactions : list Yeast.Interaction)
    (particles : list Yeast.Particle) :
  0 <= width -> 0 <= height ->
  map Yeast.col (Yeast.applyRules width height interactions particles)
  = map Yeast.col particles /\
  Forall (fun p => 0 <= Yeast.x p <= width /\ 0 <= Yeast.y p <= height)
         (Yeast.applyRules width height interactions particles).
Proof.
  intros Hw Hh. unfold Yeast.applyRules. split.
  - rewrite <- (proj1 (yeast_interactions_keep interactions particles)).
    rewrite map_map. apply map_ext. intros p.
    apply (yeast_move_in_window width height p Hw Hh).
  - apply Forall_map, Forall_forall. intros p _.
    pose proof (yeast_move_in_window width height p Hw Hh). tauto.
Qed.

Lemma yeast_frames_last (width height : R) (n : nat)
    (interactions : list Yeast.Interaction)
    (particles : list Yeast.Particle) :
  Yeast.frames width height (S n) interactions particles
  = Yeast.applyRules width height interactions
      (Yeast.frames width height n interactions particles).
Proof.
  revert particles. induction n as [| n IH]; intros particles;
    [reflexivity |].
  change (Yeast.frames width height (S (S n)) interactions particles)
    with (Yeast.frames width height (S n) interactions
            (Yeast.applyRules width height interactions particles)).
  now rewrite IH.
Qed.

Lemma yeast_frames_colours (width height : R) (n : nat)
    (interactions : list Yeast.Interaction)
    (particles : list Yeast.Particle) :
  0 <= width -> 0 <= height ->
  map Yeast.col (Yeast.frames width height n interactions particles)
  = map Yeast.col particles.
Proof.
  intros Hw Hh. induction n as [| n IH]; [reflexivity |].
  rewrite yeast_frames_last.
  rewrite (proj1 (yeast_applyRules_spec width height interactions _ Hw Hh)).
  exact IH.
Qed.

(** X15.  Whatever the interaction table and wherever the particles start, after
    every frame of the yeast simulation each particle lies inside the
    window [[0,width] x [0,height]]; no frame adds, drops, reorders or
    recolours a particle. *)
Theorem yeast_particles_stay_in_window (width height : R) (n : nat)
    (interactions : list Yeast.Interaction)
    (particles : list Yeast.Particle) :
  0 <= width -> 0 <= height ->
  let after := Yeast.frames width height (S n) interactions particles in
  length after = length particles /\
  map Yeast.col after = map Yeast.col particles /\
  Forall (fun p => 0 <= Yeast.x p <= width /\ 0 <= Yeast.y p <= height)
         after.
Proof.
  intros Hw Hh after.
  assert (Hcol : map Yeast.col after = map Yeast.col particles)
    by (apply yeast_frames_colours; assumption).
  split; [| split].
  - rewrite <- (length_map Yeast.col after), Hcol. apply length_map.
  - exact Hcol.
  - unfold after. rewrite yeast_frames_last.
    apply (yeast_applyRules_spec width height interactions _ Hw Hh).
Qed.

Lemma yeast_particles_stay_in_window_witness :
  length (Yeast.frames Yeast.Const.width Yeast.Const.height 3
            Yeast.mainRules
            [Yeast.mkParticle 999 500 5 0 0; Yeast.mkParticle 2 500 (-5) 0 1])
  = 2%nat.
Proof.
  refine (proj1 (yeast_particles_stay_in_window
                   Yeast.Const.width Yeast.Const.height 2 Yeast.mainRules
                   [Yeast.mkParticle 999 500 5 0 0;
                    Yeast.mkParticle 2 500 (-5) 0 1] _ _));
    unfold Yeast.Const.width, Yeast.Const.height; lra.
Defined.

Lemma yeast_pull_aligned (inter : Yeast.Interaction) (p1 p2 : Yeast.Particle)
    (acc : R * R) :
  Yeast.x p2 = Yeast.x p1 \/ Yeast.y p2 = Yeast.y p1 ->
  Yeast.pull inter p1 acc p2 = acc.
Proof.
  intros Hal. unfold Yeast.pull. destruct (negb _); [reflexivity |].
  cbv zeta.
  replace ((Yeast.x p1 - Yeast.x p2) * (Yeast.x p1 - Yeast.x p2)
           * (Yeast.y p1 - Yeast.y p2) * (Yeast.y p1 - Yeast.y p2) / 2)
    with 0 by (destruct Hal as [-> | ->]; unfold Rdiv; ring).
  rewrite sqrt_0. destruct (Rlt_dec 0 0); [lra | reflexivity].
Qed.

(** X16.  The quantity [applyRules] uses as distance is [sqrt(dx*dx*dy*dy/2)],
    which is 0 as soon as two particles share a coordinate: partners that
    are level with a particle, or straight above or below it, exert no
    force on it, however close they are.  When every partner is so placed
    the interaction only halves the particle's velocity. *)
Theorem yeast_aligned_partners_exert_no_force (inter : Yeast.Interaction)
    (particles : list Yeast.Particle) (p1 : Yeast.Particle) :
  Yeast.col p1 = Yeast.a inter ->
  (forall p2, In p2 particles -> Yeast.col p2 = Yeast.b inter ->
              Yeast.x p2 = Yeast.x p1 \/ Yeast.y p2 = Yeast.y p1) ->
  Yeast.accelerate inter particles p1
  = Yeast.mkParticle (Yeast.x p1) (Yeast.y p1)
      (Yeast.vx p1 * 0.5) (Yeast.vy p1 * 0.5) (Yeast.col p1).
Proof.
  intros Hcol Hal. unfold Yeast.accelerate.
  rewrite Hcol, Z.eqb_refl. cbn [negb].
  rewrite fold_left_fixed.
  - f_equal; lra.
  - intros p2 Hp2. destruct (Z.eq_dec (Yeast.col p2) (Yeast.b inter)) as [Hb | Hb].
    + apply yeast_pull_aligned. now apply Hal.
    + unfold Yeast.pull. apply Z.eqb_neq in Hb. now rewrite Hb.
Qed.

Lemma yeast_aligned_partners_exert_no_force_witness :
  Yeast.accelerate (Yeast.mkInteraction 0 0 (-0.05))
    [Yeast.mkParticle 10 10 4 2 0; Yeast.mkParticle 11 10 0 0 0;
     Yeast.mkParticle 10 13 0 0 0]
    (Yeast.mkParticle 10 10 4 2 0)
  = Yeast.mkParticle 10 10 (4 * 0.5) (2 * 0.5) 0.
Proof.
  apply (yeast_aligned_partners_exert_no_force
           (Yeast.mkInteraction 0 0 (-0.05))
           [Yeast.mkParticle 10 10 4 2 0; Yeast.mkParticle 11 10 0 0 0;
            Yeast.mkParticle 10 13 0 0 0]
           (Yeast.mkParticle 10 10 4 2 0)).
  - reflexivity.
  - intros p2 [<- | [<- | [<- | []]]] _; cbn; auto.
Defined.

(** X17.  When the generator keeps its contract ([Float64] in [[0,1)], [Intn(n)]
    in [[0,n)]), [initParticles] makes [numParticles] particles at rest
    inside the window with a colour among 0, 1, 2; from there on, after any
    number of frames under any interaction table, there are still
    [numParticles] particles, each inside the window and of one of the
    three colours the drawing loop knows. *)
Theorem yeast_population_invariant (width height : R)
    (float : nat -> R) (intn : nat -> Z -> Z) (numParticles n : nat)
    (interactions : list Yeast.Interaction) :
  0 <= width -> 0 <= height ->
  (forall k, 0 <= float k < 1) ->
  (forall k m, (0 < m)%Z -> (0 <= intn k m < m)%Z) ->
  let start := Yeast.initParticles width height float intn numParticles in
  let after := Yeast.frames width height n interactions start in
  Forall (fun p => Yeast.vx p = 0 /\ Yeast.vy p = 0) start /\
  length after = numParticles /\
  Forall (fun p => 0 <= Yeast.x p <= width /\ 0 <= Yeast.y p <= height)
         after /\
  Forall (fun p => (0 <= Yeast.col p < 3)%Z) after.
Proof.
  intros Hw Hh Hfloat Hintn start after.
  assert (Hcol : map Yeast.col after = map Yeast.col start)
    by (apply yeast_frames_colours; assumption).
  assert (Hstart : Forall (fun p => 0 <= Yeast.x p <= width /\
                                    0 <= Yeast.y p <= height) start).
  { unfold start, Yeast.initParticles. apply Forall_map, Forall_forall.
    intros i _. cbn [Yeast.x Yeast.y].
    pose proof (Hfloat (3 * i)%nat). pose proof (Hfloat (3 * i + 1)%nat).
    split; nra. }
  split; [| split; [| split]].
  - unfold start, Yeast.initParticles. apply Forall_map, Forall_forall.
    intros i _. cbn. auto.
  - rewrite <- (length_map Yeast.col after), Hcol, length_map.
    unfold start, Yeast.initParticles. now rewrite length_map, length_seq.
  - unfold after. destruct n as [| n]; [exact Hstart |].
    rewrite yeast_frames_last.
    apply (yeast_applyRules_spec width height interactions _ Hw Hh).
  - apply (Forall_through_map Yeast.col (fun c => (0 <= c < 3)%Z) start after
             Hcol).
    unfold start, Yeast.initParticles. apply Forall_map, Forall_forall.
    intros i _. cbn [Yeast.col]. apply Hintn. lia.
Qed.

Lemma yeast_population_invariant_witness :
  length (Yeast.frames Yeast.Const.width Yeast.Const.height 2 Yeast.mainRules
            (Yeast.initParticles Yeast.Const.width Yeast.Const.height
               (fun _ => 0.5) (fun k m => (Z.of_nat k mod m)%Z)
               Yeast.numParticles))
  = Yeast.numParticles.
Proof.
  refine (proj1 (proj2 (yeast_population_invariant
                   Yeast.Const.width Yeast.Const.height
                   (fun _ => 0.5) (fun k m => (Z.of_nat k mod m)%Z)
                   Yeast.numParticles 2 Yeast.mainRules _ _ _ _)));
    unfold Yeast.Const.width, Yeast.Const.height; try lra.
  - intros _. lra.
  - intros k m Hm. apply Z.mod_pos_bound. exact Hm.
Defined.

(** *** The MaCE simulation *)

Lemma maceKeeps_refl (store : list MaCE.particle) : maceKeeps store store.
Proof. repeat split. Qed.

Lemma maceKeeps_update (store st : list MaCE.particle) (k : nat)
    (a v : MaCE.particle) :
  maceKeeps store st -> nth_error st k = Some a ->
  MaCE.x v = MaCE.x a -> MaCE.y v = MaCE.y a ->
  MaCE.color v = MaCE.color a ->
  maceKeeps store (update k v st).
Proof.
  intros (Hl & Hx & Hy & Hc) Hk Hvx Hvy Hvc. unfold maceKeeps.
  rewrite update_length, (map_update MaCE.x k v a),
    (map_update MaCE.y k v a), (map_update MaCE.color k v a) by assumption.
  auto.
Qed.

Lemma mace_accelerate_keeps (g : R) (particles2 : list MaCE.particle)
    (a : MaCE.particle) :
  MaCE.x (MaCE.accelerate g particles2 a) = MaCE.x a /\
  MaCE.y (MaCE.accelerate g particles2 a) = MaCE.y a /\
  MaCE.color (MaCE.accelerate g particles2 a) = MaCE.color a.
Proof.
  unfold MaCE.accelerate. destruct (fold_left _ _ _) as [fx fy]. cbn. auto.
Qed.

Lemma mace_forces_keeps (particles1 particles2 : MaCE.Group) (g : R)
    (store : list MaCE.particle) :
  maceKeeps store (MaCE.forces particles1 particles2 g store).
Proof.
  unfold MaCE.forces.
  apply (fold_left_invariant (maceKeeps store)); [| apply maceKeeps_refl].
  intros st i _ Hst.
  destruct (nth_error st (fst particles1 + i)) as [a |] eqn:Ha;
    [| exact Hst].
  apply (maceKeeps_update store st _ a); try assumption;
    apply mace_accelerate_keeps.
Qed.

Lemma mace_exchange_conserves (store st : list MaCE.particle) (i j : nat) :
  i <> j -> maceConserves store st ->
  maceConserves store (MaCE.exchange i st j).
Proof.
  intros Hij (Hk & Hvx & Hvy). unfold MaCE.exchange.
  destruct (nth_error st i) as [a |] eqn:Ha; [| now split].
  destruct (nth_error st j) as [b |] eqn:Hb; [| now split].
  cbv zeta. destruct (Rlt_dec _ _); [| now split].
  destruct (Rgt_dec _ 0); [| now split].
  set (a' := MaCE.mkparticle _ _ _ _ (MaCE.color a)).
  set (b' := MaCE.mkparticle _ _ _ _ (MaCE.color b)).
  assert (Hb1 : nth_error (update i a' st) j = Some b)
    by (rewrite nth_error_update_other; assumption).
  split; [| split].
  - apply (maceKeeps_update store _ j b); try reflexivity; try assumption.
    apply (maceKeeps_update store st i a); try reflexivity; assumption.
  - rewrite (total_update MaCE.vx j b' b) by assumption.
    rewrite (total_update MaCE.vx i a' a) by assumption.
    rewrite Hvx. unfold a', b'. cbn [MaCE.vx]. lra.
  - rewrite (total_update MaCE.vy j b' b) by assumption.
    rewrite (total_update MaCE.vy i a' a) by assumption.
    rewrite Hvy. unfold a', b'. cbn [MaCE.vy]. lra.
Qed.

Lemma mace_redistribute_conserves (store : list MaCE.particle) :
  maceConserves store (MaCE.redistribute store).
Proof.
  unfold MaCE.redistribute.
  apply (fold_left_invariant (maceConserves store));
    [| split; [apply maceKeeps_refl | split; reflexivity]].
  intros st i _ Hst.
  apply (fold_left_invariant (maceConserves store)); [| exact Hst].
  intros st' j Hj Hst'. apply in_seq in Hj.
  apply mace_exchange_conserves; [lia | exact Hst'].
Qed.

(** X18.  The redistribution step of [rule] conserves the total momentum of the
    population in each axis, whatever the positions and however many pairs
    exchange velocity; it moves and recolours no particle.  Two particles
    alone within the local radius, at distinct positions, both leave with
    the mean of their velocities. *)
Theorem mace_redistribution_conserves_momentum
    (store : list MaCE.particle) (a b : MaCE.particle) :
  (total MaCE.vx (MaCE.redistribute store) = total MaCE.vx store /\
   total MaCE.vy (MaCE.redistribute store) = total MaCE.vy store) /\
  (length (MaCE.redistribute store) = length store /\
   map MaCE.x (MaCE.redistribute store) = map MaCE.x store /\
   map MaCE.y (MaCE.redistribute store) = map MaCE.y store /\
   map MaCE.color (MaCE.redistribute store) = map MaCE.color store) /\
  (let distSq := (MaCE.x b - MaCE.x a) * (MaCE.x b - MaCE.x a)
                 + (MaCE.y b - MaCE.y a) * (MaCE.y b - MaCE.y a) in
   0 < distSq < 900 ->
   map MaCE.vx (MaCE.redistribute [a; b])
   = [(MaCE.vx a + MaCE.vx b) / 2; (MaCE.vx a + MaCE.vx b) / 2] /\
   map MaCE.vy (MaCE.redistribute [a; b])
   = [(MaCE.vy a + MaCE.vy b) / 2; (MaCE.vy a + MaCE.vy b) / 2]).
Proof.
  destruct (mace_redistribute_conserves store) as (Hk & Hvx & Hvy).
  split; [now split | split; [exact Hk |]].
  intros distSq Hd. unfold MaCE.redistribute.
  cbn [length seq fold_left Nat.sub]. unfold MaCE.exchange.
  cbn [nth_error]. cbv zeta. fold distSq.
  destruct (Rlt_dec distSq (MaCE.localRadius * MaCE.localRadius)) as [_ | Hn];
    [| exfalso; apply Hn; unfold MaCE.localRadius; lra].
  destruct (Rgt_dec distSq 0) as [_ | Hn]; [| exfalso; apply Hn; lra].
  cbn [update]. cbn [length seq fold_left Nat.sub map MaCE.vx MaCE.vy].
  split; (f_equal; [lra | f_equal; lra]).
Qed.

Lemma mace_move_on_canvas (cvWidth cvHeight : Z) (p : MaCE.particle) :
  (MaCE.particleSize <= cvWidth)%Z -> (MaCE.particleSize <= cvHeight)%Z ->
  0 <= MaCE.x (MaCE.move cvWidth cvHeight p)
    <= float64 (cvWidth - MaCE.particleSize) /\
  0 <= MaCE.y (MaCE.move cvWidth cvHeight p)
    <= float64 (cvHeight - MaCE.particleSize) /\
  MaCE.color (MaCE.move cvWidth cvHeight p) = MaCE.color p.
Proof.
  intros Hw Hh.
  assert (Hw' : 0 <= float64 (cvWidth - MaCE.particleSize))
    by (apply (IZR_le 0); lia).
  assert (Hh' : 0 <= float64 (cvHeight - MaCE.particleSize))
    by (apply (IZR_le 0); lia).
  unfold MaCE.move. cbv zeta.
  destruct (Rlt_dec (MaCE.x p + MaCE.vx p) 0);
    [| destruct (Rgt_dec (MaCE.x p + MaCE.vx p) _)];
    (destruct (Rlt_dec (MaCE.y p + MaCE.vy p) 0);
     [| destruct (Rgt_dec (MaCE.y p + MaCE.vy p) _)]);
    cbn; repeat split; lra.
Qed.

(** X19.  After every call of [rule], on a canvas at least one particle wide and
    high, every particle of the program lies in
    [[0, cv.Width()-particleSize] x [0, cv.Height()-particleSize]], whether
    or not it belongs to the two groups of the call; the call adds, drops
    and recolours no particle. *)
Theorem mace_rule_keeps_particles_on_canvas (cvWidth cvHeight : Z)
    (particles1 particles2 : MaCE.Group) (g : R)
    (store : list MaCE.particle) :
  (MaCE.particleSize <= cvWidth)%Z -> (MaCE.particleSize <= cvHeight)%Z ->
  let after := MaCE.rule cvWidth cvHeight particles1 particles2 g store in
  length after = length store /\
  map MaCE.color after = map MaCE.color store /\
  Forall (fun p => 0 <= MaCE.x p <= float64 (cvWidth - MaCE.particleSize) /\
                   0 <= MaCE.y p <= float64 (cvHeight - MaCE.particleSize))
         after.
Proof.
  intros Hw Hh after. unfold after, MaCE.rule.
  destruct (mace_forces_keeps particles1 particles2 g store)
    as (Hl1 & _ & _ & Hc1).
  destruct (mace_redistribute_conserves
              (MaCE.forces particles1 particles2 g store))
    as ((Hl2 & _ & _ & Hc2) & _).
  split; [| split].
  - now rewrite length_map, Hl2, Hl1.
  - rewrite <- Hc1, <- Hc2, map_map. apply map_ext. intros p.
    apply (mace_move_on_canvas cvWidth cvHeight p Hw Hh).
  - apply Forall_map, Forall_forall. intros p _.
    pose proof (mace_move_on_canvas cvWidth cvHeight p Hw Hh). tauto.
Qed.

Lemma mace_rule_keeps_particles_on_canvas_witness :
  length (MaCE.rule MaCE.Const.width MaCE.Const.height (0, 1)%nat (1, 1)%nat
            (-0.17)
            [MaCE.mkparticle 1698 3 4 (-9) String.EmptyString;
             MaCE.mkparticle 1690 10 0 0 String.EmptyString])
  = 2%nat.
Proof.
  refine (proj1 (mace_rule_keeps_particles_on_canvas
                   MaCE.Const.width MaCE.Const.height (0, 1)%nat (1, 1)%nat
                   (-0.17)
                   [MaCE.mkparticle 1698 3 4 (-9) String.EmptyString;
                    MaCE.mkparticle 1690 10 0 0 String.EmptyString] _ _));
    unfold MaCE.particleSize, MaCE.Const.width, MaCE.Const.height; lia.
Defined.


Lemma mace_members_of_tail (store group : list MaCE.particle) :
  MaCE.members (length store, length group) (store ++ group) = group.
Proof.
  unfold MaCE.members. cbn [fst snd].
  rewrite skipn_app, skipn_all, Nat.sub_diag. cbn [skipn app].
  apply firstn_all.
Qed.

(** X21.  With a generator that returns values of [[0,1)] and a canvas at least
    two paddings wide and high, [create(number, color)] appends [number]
    particles to the global list and leaves the earlier ones as they were;
    the group it returns is exactly that new tail, and each of its
    particles is at rest, of the colour asked for, and at least [padding]
    away from every edge of the canvas.  The call takes [2*number] values
    from the generator. *)
Theorem mace_create_contract (cvWidth cvHeight : Z) (float : nat -> R)
    (number : nat) (color : String.string) (store : list MaCE.particle)
    (k : nat) :
  (forall n, 0 <= float n < 1) ->
  (134 <= cvWidth)%Z -> (134 <= cvHeight)%Z ->
  let made := MaCE.create cvWidth cvHeight float number color store k in
  let group := fst (fst made) in
  let particles := snd (fst made) in
  snd made = (k + 2 * number)%nat /\
  length particles = (length store + number)%nat /\
  firstn (length store) particles = store /\
  MaCE.members group particles = skipn (length store) particles /\
  length (MaCE.members group particles) = number /\
  Forall (fun p =>
            MaCE.padding <= MaCE.x p <= float64 cvWidth - MaCE.padding /\
            MaCE.padding <= MaCE.y p <= float64 cvHeight - MaCE.padding /\
            MaCE.vx p = 0 /\ MaCE.vy p = 0 /\ MaCE.color p = color)
         (MaCE.members group particles).
Proof.
  intros Hfloat Hw Hh made group particles.
  unfold group, particles, made, MaCE.create. cbv zeta. cbn [fst snd].
  set (new := map (fun i =>
                     MaCE.mkparticle
                       (MaCE.randomX cvWidth (float (k + 2 * i)%nat))
                       (MaCE.randomY cvHeight (float (k + 2 * i + 1)%nat))
                       0 0 color)
                  (seq 0 number)).
  assert (Hlen : length new = number)
    by (unfold new; now rewrite length_map, length_seq).
  assert (Hmem : MaCE.members (length store, number) (store ++ new) = new)
    by (rewrite <- Hlen at 1; apply mace_members_of_tail).
  assert (Hskip : skipn (length store) (store ++ new) = new)
    by (rewrite skipn_app, skipn_all, Nat.sub_diag; reflexivity).
  split; [reflexivity |].
  split; [now rewrite length_app, Hlen |].
  split; [rewrite firstn_app, firstn_all, Nat.sub_diag; cbn [firstn];
          apply app_nil_r |].
  split; [now rewrite Hmem, Hskip |].
  split; [now rewrite Hmem |].
  rewrite Hmem. unfold new. apply Forall_map, Forall_forall. intros i _.
  cbn [MaCE.x MaCE.y MaCE.vx MaCE.vy MaCE.color].
  unfold MaCE.randomX, MaCE.randomY, MaCE.padding, float64.
  pose proof (Hfloat (k + 2 * i)%nat) as Hx.
  pose proof (Hfloat (k + 2 * i + 1)%nat) as Hy.
  assert (Hw' : 134 <= IZR cvWidth) by (apply (IZR_le 134); assumption).
  assert (Hh' : 134 <= IZR cvHeight) by (apply (IZR_le 134); assumption).
  repeat split; try reflexivity; nra.
Qed.

Lemma mace_create_contract_witness :
  snd (MaCE.create MaCE.Const.width MaCE.Const.height (fun _ => 0.5)
         2000 String.EmptyString [] 0)
  = 4000%nat.
Proof.
  refine (proj1 (mace_create_contract MaCE.Const.width MaCE.Const.height
                   (fun _ => 0.5) 2000 String.EmptyString [] 0 _ _ _)).
  - intros _. lra.
  - unfold MaCE.Const.width. lia.
  - unfold MaCE.Const.height. lia.
Defined.

(** ** The initial state *)

Lemma direct_seedCell_cursor (gridW gridH : nat) (draws : nat -> R)
    (y x : Z) (cur : nat) :
  (cur + 1 <= snd (Direct.seedCell gridW gridH draws y x cur) <= cur + 2)%nat.
Proof.
  unfold Direct.seedCell. cbv zeta. destruct (Rlt_dec _ _); cbn [snd]; lia.
Qed.

Lemma transform_seedCell_cursor (gridW gridH : nat) (draws : nat -> R)
    (y x : Z) (cur : nat) :
  (cur + 1 <= snd (Transform.seedCell gridW gridH draws y x cur)
   <= cur + 2)%nat.
Proof.
  unfold Transform.seedCell. cbv zeta. destruct (Rlt_dec _ _); cbn [snd]; lia.
Qed.

Lemma direct_seedRow_cursor (gridW gridH : nat) (draws : nat -> R) (y : Z)
    (xs : list Z) (cur : nat) :
  (cur + length xs <= snd (Direct.seedRow gridW gridH draws y xs cur)
   <= cur + 2 * length xs)%nat.
Proof.
  revert cur. induction xs as [| x xs IH]; intros cur; cbn [Direct.seedRow].
  - cbn. lia.
  - pose proof (direct_seedCell_cursor gridW gridH draws y x cur) as Hc.
    destruct (Direct.seedCell gridW gridH draws y x cur) as [v cur1].
    specialize (IH cur1).
    destruct (Direct.seedRow gridW gridH draws y xs cur1) as [row cur2].
    cbn [snd length] in *. lia.
Qed.

Lemma transform_seedRow_cursor (gridW gridH : nat) (draws : nat -> R) (y : Z)
    (xs : list Z) (cur : nat) :
  (cur + length xs <= snd (Transform.seedRow gridW gridH draws y xs cur)
   <= cur + 2 * length xs)%nat.
Proof.
  revert cur. induction xs as [| x xs IH]; intros cur;
    cbn [Transform.seedRow].
  - cbn. lia.
  - pose proof (transform_seedCell_cursor gridW gridH draws y x cur) as Hc.
    destruct (Transform.seedCell gridW gridH draws y x cur) as [v cur1].
    specialize (IH cur1).
    destruct (Transform.seedRow gridW gridH draws y xs cur1) as [row cur2].
    cbn [snd length] in *. lia.
Qed.

Lemma direct_seedRows_cursor (gridW gridH : nat) (draws : nat -> R)
    (ys : list Z) (cur : nat) :
  (cur + gridW * length ys
   <= snd (Direct.seedRows gridW gridH draws ys cur)
   <= cur + 2 * (gridW * length ys))%nat.
Proof.
  revert cur. induction ys as [| y ys IH]; intros cur; cbn [Direct.seedRows].
  - cbn. lia.
  - pose proof (direct_seedRow_cursor gridW gridH draws y (upto gridW) cur)
      as Hr.
    destruct (Direct.seedRow gridW gridH draws y (upto gridW) cur)
      as [row cur1].
    specialize (IH cur1).
    destruct (Direct.seedRows gridW gridH draws ys cur1) as [rows cur2].
    rewrite upto_length in Hr. cbn [snd length] in *. nia.
Qed.

Lemma transform_seedRows_cursor (gridW gridH : nat) (draws : nat -> R)
    (ys : list Z) (cur : nat) :
  (cur + gridW * length ys
   <= snd (Transform.seedRows gridW gridH draws ys cur)
   <= cur + 2 * (gridW * length ys))%nat.
Proof.
  revert cur. induction ys as [| y ys IH]; intros cur;
    cbn [Transform.seedRows].
  - cbn. lia.
  - pose proof (transform_seedRow_cursor gridW gridH draws y (upto gridW) cur)
      as Hr.
    destruct (Transform.seedRow gridW gridH draws y (upto gridW) cur)
      as [row cur1].
    specialize (IH cur1).
    destruct (Transform.seedRows gridW gridH draws ys cur1) as [rows cur2].
    rewrite upto_length in Hr. cbn [snd length] in *. nia.
Qed.

(** X22.  [NewGame], the generator returning values of [[0,1)]: the seeded Field
    has the dimensions of the grid and no cell reaches 1 — the cells of the
    camera program lie in [[0, 0.9]] (blob at most 0.8, noise in
    [[0.1, 0.9)]) and those of [lenia_lorenz.go] in [[0, 1)]; the scratch
    buffer is all zero; the seeding loop takes at least one and at most two
    values from the generator per cell. *)
Theorem NewGame_initial_state (gridW gridH : nat) (draws : nat -> R)
    (randSeed : Z -> nat -> R) (NewFFT2 : nat -> nat -> Transform.FFT2)
    (now : Z) :
  (forall n, 0 <= draws n < 1) ->
  (forall n, 0 <= randSeed now n < 1) ->
  let g := Direct.NewGame gridW gridH draws in
  let t := Transform.NewGame gridW gridH randSeed NewFFT2 now in
  (wellFormed gridW gridH (Direct.A g) /\
   Forall (Forall (fun v => 0 <= v <= 0.9)) (Direct.A g) /\
   Direct.Anext g = zeros gridW gridH /\
   (gridW * gridH
    <= snd (Direct.seedRows gridW gridH draws (upto gridH) 0)
    <= 2 * (gridW * gridH))%nat) /\
  (wellFormed gridW gridH (Transform.A t) /\
   Forall (Forall (fun v => 0 <= v < 1)) (Transform.A t) /\
   Transform.Anext t = zeros gridW gridH /\
   (gridW * gridH
    <= snd (Transform.seedRows gridW gridH (randSeed now) (upto gridH) 0)
    <= 2 * (gridW * gridH))%nat).
Proof.
  intros Hd Hr g t.
  assert (Hexp : forall d s, 0 < s -> 0 < exp (- d * d / s) <= 1).
  { intros d s Hs. split; [apply exp_pos |]. apply exp_le_1.
    pose proof (Rle_0_sqr d) as Hsq. unfold Rsqr in Hsq.
    apply Rinv_0_lt_compat in Hs. unfold Rdiv. nra. }
  split.
  - split; [apply direct_NewGame_wellFormed | split; [| split]].
    + unfold g, Direct.NewGame. cbv zeta. cbn [Direct.A].
      apply (direct_seedRows_spec gridW gridH draws (fun v => 0 <= v <= 0.9)).
      intros y x cur. unfold Direct.seedCell. cbv zeta.
      destruct (Rlt_dec (draws cur) 0.001); cbn [fst].
      * pose proof (Hd (S cur)). lra.
      * destruct (Rlt_dec _ 16); [| lra].
        set (d := hypot _ _).
        destruct (Hexp d (2 * 8 * 8)) as [Hp Hle]; lra.
    + reflexivity.
    + pose proof (direct_seedRows_cursor gridW gridH draws (upto gridH) 0)
        as Hc.
      rewrite upto_length in Hc. lia.
  - split; [apply transform_NewGame_wellFormed | split; [| split]].
    + unfold t, Transform.NewGame. cbv zeta. cbn [Transform.A].
      apply (transform_seedRows_spec gridW gridH (randSeed now)
               (fun v => 0 <= v < 1)).
      intros y x cur. unfold Transform.seedCell. cbv zeta.
      destruct (Rlt_dec (randSeed now cur) 0.002); cbn [fst].
      * pose proof (Hr (S cur)). lra.
      * destruct (Rlt_dec _ 12); [| lra].
        set (d := hypot _ _).
        destruct (Hexp d (2 * 6 * 6)) as [Hp Hle]; lra.
    + reflexivity.
    + pose proof (transform_seedRows_cursor gridW gridH (randSeed now)
                    (upto gridH) 0) as Hc.
      rewrite upto_length in Hc. lia.
Qed.

Lemma NewGame_initial_state_witness :
  wellFormed Direct.Const.gridW Direct.Const.gridH
    (Direct.A (Direct.NewGame Direct.Const.gridW Direct.Const.gridH
                 (clockDraws 1))).
Proof.
  refine (proj1 (proj1 (NewGame_initial_state
                   Direct.Const.gridW Direct.Const.gridH (clockDraws 1)
                   clockDraws newFourier 1 _ _)));
    intros n; unfold clockDraws; cbn; lra.
Defined.
